(** * yousync: the comparison and scoring core, embedded and verified

    The development follows the Python sources file by file:

    - [TextSimilarity]      text_similarity.py
    - [MfccSimilarity]      mfcc_similarity.py
    - [Pronunciation]       pronunciation.py
    - [TextgridComparator]  textgrid_comparator.py (pitch part)
    - [Scenario]            the inputs of the worked examples
    - [Spec]                the notions the statements are phrased in
    - [WordTimestamps]      pronunciation.py (the recogniser's words, S3 addresses)
    - [VoiceToPitch]        voice_to_pitch.py
    - [PhoneComparison]     textgrid_comparator.py (phones and timing), scorer.py
    - [FrameTimes]          mfcc_similarity.py (the times of the frames)
    - [Notions]             the notions of the further properties

    and then states and proves the properties, in the same order.

    Conventions of the embedding.

    - A Python [float] is a real number ([R]): arithmetic is exact, rounding
      error, NaN and infinities are not modelled.  Comparisons in the code
      become [Rlt_dec]/[Rle_dec] tests.
    - A Python [str] is a [string]; the model covers ASCII text, and the one
      non-ASCII character the code names (U+2019) through its UTF-8 bytes.
    - A dict with a fixed set of keys is a record; a key that may be absent
      is an [option] field; a dict used as a map is a [gmap].
    - A raised exception is the [Raise] outcome of the [outcome] monad.
    - numpy arrays of shape (N, D) are lists of N rows.  librosa's delta
      filter and the DTW distance of fastdtw are library code: they are
      section variables, with the shape facts their documentation states. *)

From Stdlib Require Import Reals Lra Lia ZArith String Ascii List Sorted.
From stdpp Require Import gmap strings.
Import ListNotations.

(** ** Python values and control *)

Module Py.

Inductive exn : Type :=
| IndexError
| ValueError
| ZeroDivisionError.

Inductive outcome (A : Type) : Type :=
| Ok (a : A)
| Raise (e : exn).
Arguments Ok {A} a.
Arguments Raise {A} e.

#[global] Instance outcome_ret : MRet outcome := fun A a => Ok a.

#[global] Instance outcome_bind : MBind outcome :=
  fun A B k m =>
    match m with
    | Ok a => k a
    | Raise e => Raise e
    end.

(** [xs[0]] *)
Definition first {A} (xs : list A) : outcome A :=
  match xs with
  | x :: _ => Ok x
  | [] => Raise IndexError
  end.

(** [xs[i]] for a non-negative index *)
Definition index {A} (xs : list A) (i : nat) : outcome A :=
  match xs !! i with
  | Some x => Ok x
  | None => Raise IndexError
  end.

Definition Rltb (x y : R) : bool := if Rlt_dec x y then true else false.
Definition Rleb (x y : R) : bool := if Rle_dec x y then true else false.

(** [sum(xs)] and [len(xs)] as a float *)
Definition sum (xs : list R) : R := fold_right Rplus 0%R xs.
Definition len {A} (xs : list A) : R := INR (length xs).

(** [round(x, ndigits)]: rounding to the nearest multiple of
    10^-ndigits, ties to the even one. *)
Definition round_half_even (x : R) : Z :=
  let f := Zfloor x in
  let d := (x - IZR f)%R in
  if Rlt_dec d (1 / 2) then f
  else if Rlt_dec (1 / 2) d then (f + 1)%Z
  else if Z.even f then f else (f + 1)%Z.

Definition round (x : R) (ndigits : nat) : R :=
  (IZR (round_half_even (x * 10 ^ ndigits)) / 10 ^ ndigits)%R.

End Py.

(** ** text_similarity.py *)

Module TextSimilarity.
Import Py.
Local Open Scope R_scope.

(** *** Characters *)

Definition code (c : ascii) : nat := nat_of_ascii c.

Definition is_upper (c : ascii) : bool :=
  (65 <=? code c)%nat && (code c <=? 90)%nat.
Definition is_lower (c : ascii) : bool :=
  (97 <=? code c)%nat && (code c <=? 122)%nat.
Definition is_digit (c : ascii) : bool :=
  (48 <=? code c)%nat && (code c <=? 57)%nat.

(** [\w] on ASCII text *)
Definition is_word_char (c : ascii) : bool :=
  is_upper c || is_lower c || is_digit c || (code c =? 95)%nat.

(** [\s], and what [str.strip] and [str.split] take for white space *)
Definition is_space (c : ascii) : bool :=
  ((9 <=? code c)%nat && (code c <=? 13)%nat)
  || ((28 <=? code c)%nat && (code c <=? 32)%nat).

Definition apostrophe : ascii := ascii_of_nat 39.
Definition space : ascii := ascii_of_nat 32.

Definition lower_char (c : ascii) : ascii :=
  if is_upper c then ascii_of_nat (code c + 32) else c.

(** *** normalize_and_tokenize *)

(** [text.lower()] *)
Definition lower (text : list ascii) : list ascii := map lower_char text.

(** [text.replace] of the typographic apostrophe U+2019 (the bytes
    E2 80 99) by the ASCII one *)
Fixpoint replace_apostrophe (text : list ascii) : list ascii :=
  match text with
  | [] => []
  | a :: tl =>
      match tl with
      | b :: c :: rest =>
          if ((code a =? 226) && (code b =? 128) && (code c =? 153))%nat
          then apostrophe :: replace_apostrophe rest
          else a :: replace_apostrophe tl
      | _ => a :: replace_apostrophe tl
      end
  end.

(** [re.sub] deleting every match of [[^\w\s']]: word characters,
    white space and the apostrophe stay *)
Definition strip_punctuation (text : list ascii) : list ascii :=
  List.filter (fun c => is_word_char c || is_space c || Ascii.eqb c apostrophe) text.

(** [re.sub] putting one space for every match of [\s+]; [in_run] says
    that the previous character was white space. *)
Fixpoint collapse_spaces (in_run : bool) (text : list ascii) : list ascii :=
  match text with
  | [] => []
  | c :: rest =>
      if is_space c
      then if in_run then collapse_spaces true rest
           else space :: collapse_spaces true rest
      else c :: collapse_spaces false rest
  end.

Fixpoint lstrip (text : list ascii) : list ascii :=
  match text with
  | c :: rest => if is_space c then lstrip rest else text
  | [] => []
  end.

(** [text.strip()] *)
Definition strip (text : list ascii) : list ascii :=
  rev (lstrip (rev (lstrip text))).

(** [text.split()]; [cur] is the token being read, reversed. *)
Fixpoint split_spaces (cur : list ascii) (text : list ascii) : list string :=
  match text with
  | [] =>
      match cur with
      | [] => []
      | _ => [string_of_list_ascii (rev cur)]
      end
  | c :: rest =>
      if is_space c
      then match cur with
           | [] => split_spaces [] rest
           | _ => string_of_list_ascii (rev cur) :: split_spaces [] rest
           end
      else split_spaces (c :: cur) rest
  end.

Definition normalize_and_tokenize (text : string) : list string :=
  let text := lower (list_ascii_of_string text) in
  let text := replace_apostrophe text in
  let text := strip_punctuation text in
  let text := collapse_spaces false text in
  let text := strip text in
  split_spaces [] text.

(** *** Segments *)

(** A word segment: [{word, start_time, end_time}], with [confidence] on
    recognised words and, on reference words, the cached feature matrix
    under [mfcc] (absent or [null]: [None]). *)
Record Segment : Type := {
  word : string;
  start_time : R;
  end_time : R;
  confidence : option R;
  mfcc : option (list (list R))
}.

(** [seg.copy()] followed by the two assignments *)
Definition with_times (seg : Segment) (s e : R) : Segment :=
  {| word := word seg; start_time := s; end_time := e;
     confidence := confidence seg; mfcc := mfcc seg |}.

(** A token of the recogniser's JSON.  [timestamps.from] and
    [timestamps.to] are held as seconds, that is, after [parse_time]. *)
Record Token : Type := {
  text : option string;
  ts_from : R;
  ts_to : R;
  p : option R
}.

(** [whisper_json['transcription']]: a list of segments, each with its
    list of tokens. *)
Definition WhisperJson : Type := list (list Token).

Definition startswith_bracket (s : string) : bool :=
  match s with
  | String c _ => (code c =? 91)%nat
  | EmptyString => false
  end.

Definition str_strip (s : string) : string :=
  string_of_list_ascii (strip (list_ascii_of_string s)).

Definition parse_token (token : Token) : list Segment :=
  match text token with
  | Some t =>
      if startswith_bracket t then []
      else
        let w := str_strip t in
        match w with
        | EmptyString => []
        | _ => [ {| word := w;
                    start_time := ts_from token;
                    end_time := ts_to token;
                    confidence := Some (match p token with
                                        | Some c => c
                                        | None => 0
                                        end);
                    mfcc := None |} ]
        end
  | None => []
  end.

Definition parse_whisper_cpp_result (whisper_json : WhisperJson) : list Segment :=
  flat_map (fun segment => flat_map parse_token segment) whisper_json.

Definition normalize_segments_to_zero (segments : list Segment) : list Segment :=
  match segments with
  | [] => segments
  | seg0 :: _ =>
      let offset := start_time seg0 in
      map (fun seg => with_times seg (start_time seg - offset) (end_time seg - offset))
          segments
  end.

Definition first_or_empty (tokens : list string) : string :=
  match tokens with
  | t :: _ => t
  | [] => EmptyString
  end.

Definition word_match_with_normalization (ref_word user_word : string) : bool :=
  let ref_clean := first_or_empty (normalize_and_tokenize ref_word) in
  let user_clean := first_or_empty (normalize_and_tokenize user_word) in
  String.eqb ref_clean user_clean.

Definition LCS_THRESH : R := 0.6.

(** *** compute_char_lcs_ratio *)

(** One row of the table: from [a[i-1]] and row [i-1] to row [i].
    [up_row] is [dp[i-1][j..n]], [diag] is [dp[i-1][j-1]] and [left] is
    [dp[i][j-1]]; the result is [dp[i][j..n]]. *)
Fixpoint lcs_row (ai : ascii) (b : list ascii) (up_row : list nat)
    (diag left : nat) : list nat :=
  match b, up_row with
  | bj :: b', up :: up_row' =>
      let v := if Ascii.eqb ai bj then S diag else Nat.max up left in
      v :: lcs_row ai b' up_row' up v
  | _, _ => []
  end.

(** Row [m] of the table *)
Definition lcs_last_row (a b : list ascii) : list nat :=
  fold_left (fun row ai => O :: lcs_row ai b (tl row) (hd O row) O)
            a (repeat O (S (length b))).

Definition compute_char_lcs_ratio (a b : string) : R :=
  let la := list_ascii_of_string a in
  let lb := list_ascii_of_string b in
  let m := length la in
  let n := length lb in
  if (0 <? Nat.max m n)%nat
  then INR (List.last (lcs_last_row la lb) O) / INR (Nat.max m n)
  else 0.

(** *** score_text_alignment *)

Inductive Status : Type := pass | fail.

(** One entry of the result.  The entry of a word whose best candidate
    is below [LCS_THRESH] has no [confidence] key. *)
Record TextResult : Type := {
  r_word : string;
  status : Status;
  lcs_similarity : R;
  r_confidence : option R
}.

Definition tol : R := 0.25.
Definition start_tol : R := 0.5.

(** The test of the list comprehension of lines 92-95. *)
Definition in_window (window_start window_end : R) (user : Segment) : bool :=
  negb (Rltb (end_time user) window_start || Rltb window_end (start_time user)).

Definition window_overlap (window_start window_end : R) (user : Segment) : R :=
  Rmin window_end (end_time user) - Rmax window_start (start_time user).

(** [max(candidates, key=...)] on a non-empty list [best :: rest]: the
    first element with the greatest key. *)
Fixpoint max_by {A} (key : A -> R) (best : A) (rest : list A) : A :=
  match rest with
  | [] => best
  | x :: rest' =>
      if Rlt_dec (key best) (key x) then max_by key x rest'
      else max_by key best rest'
  end.

Definition score_word (user_normalized : list Segment) (ref : Segment) : TextResult :=
  let window_start := start_time ref - tol in
  let window_end := end_time ref + tol in
  let candidates := List.filter (in_window window_start window_end) user_normalized in
  match candidates with
  | c :: cs =>
      let best_user := max_by (window_overlap window_start window_end) c cs in
      let lcs_sim :=
        if word_match_with_normalization (word ref) (word best_user) then 1
        else compute_char_lcs_ratio (word ref) (word best_user) in
      if Rlt_dec lcs_sim LCS_THRESH then
        {| r_word := word ref; status := fail; lcs_similarity := lcs_sim;
           r_confidence := None |}
      else
        let start_ok := Rleb (Rabs (start_time best_user - start_time ref)) start_tol in
        let overlap := window_overlap window_start window_end best_user in
        let ref_dur := end_time ref - start_time ref in
        let ratio := if Req_dec_T ref_dur 0 then 0 else overlap / ref_dur in
        let st := if start_ok && Rleb 0.70 ratio then pass else fail in
        {| r_word := word ref; status := st; lcs_similarity := lcs_sim;
           r_confidence := Some (match confidence best_user with
                                 | Some c => c
                                 | None => 0
                                 end) |}
  | [] =>
      {| r_word := word ref; status := fail; lcs_similarity := 0;
         r_confidence := Some 0 |}
  end.

Definition score_text_alignment (reference_segments : list Segment)
    (user_whisper_json : WhisperJson) : list TextResult :=
  let user_segments := parse_whisper_cpp_result user_whisper_json in
  let user_normalized := normalize_segments_to_zero user_segments in
  let ref_normalized := normalize_segments_to_zero reference_segments in
  map (score_word user_normalized) ref_normalized.

Definition compare_texts (reference_segments : list Segment)
    (user_whisper_json : WhisperJson) : list TextResult :=
  score_text_alignment reference_segments user_whisper_json.

End TextSimilarity.

(** ** mfcc_similarity.py *)

Module MfccSimilarity.
Import Py TextSimilarity.
Local Open Scope R_scope.

(** An array of shape (N, D): N frames of D coefficients. *)
Definition matrix : Type := list (list R).

Definition shape0 (m : matrix) : nat := length m.
Definition shape1 (m : matrix) : nat :=
  match m with
  | row :: _ => length row
  | [] => O
  end.

(** *** numpy *)

Definition np_mean (xs : list R) : R := sum xs / len xs.

(** [np.std]: the population standard deviation *)
Definition np_std (xs : list R) : R :=
  let mu := np_mean xs in
  sqrt (np_mean (map (fun x => (x - mu) ^ 2) xs)).

(** [m[:, j]] *)
Definition column (j : nat) (m : matrix) : list R :=
  map (fun row => nth j row 0) m.

Definition columns (m : matrix) : list (list R) :=
  map (fun j => column j m) (seq 0 (shape1 m)).

(** [np.mean(m, axis=0)] and [np.std(m, axis=0)] *)
Definition mean_axis0 (m : matrix) : list R := map np_mean (columns m).
Definition std_axis0 (m : matrix) : list R := map np_std (columns m).

(** [np.interp(x, xp, fp)]; [(x0, f0)] is the last anchor at or below [x]. *)
Fixpoint interp_from (x x0 f0 : R) (xp fp : list R) : R :=
  match xp, fp with
  | x1 :: xp', f1 :: fp' =>
      if Rlt_dec x x1
      then (f1 - f0) / (x1 - x0) * (x - x0) + f0
      else interp_from x x1 f1 xp' fp'
  | _, _ => f0
  end.

Definition np_interp (x : R) (xp fp : list R) : R :=
  match xp, fp with
  | x0 :: xp', f0 :: fp' =>
      if Rlt_dec x x0 then f0 else interp_from x x0 f0 xp' fp'
  | _, _ => 0
  end.

Fixpoint insert_sorted (x : R) (l : list R) : list R :=
  match l with
  | [] => [x]
  | y :: l' => if Rle_dec x y then x :: l else y :: insert_sorted x l'
  end.

Definition np_sort (xs : list R) : list R := fold_right insert_sorted [] xs.

(** [np.percentile(xs, q)] with the default linear interpolation between
    the two closest ranks. *)
Definition np_percentile (xs : list R) (q : nat) : R :=
  let sorted := np_sort xs in
  let pos := ((length xs - 1) * q)%nat in
  let lo := (pos / 100)%nat in
  let hi := Nat.min (S lo) (length xs - 1) in
  let frac := INR (pos mod 100) / 100 in
  nth lo sorted 0 + (nth hi sorted 0 - nth lo sorted 0) * frac.

(** [np.clip(x, lo, hi)] *)
Definition np_clip (x lo hi : R) : R := Rmin (Rmax x lo) hi.

(** [np.pad(m, ((before, after), (0, 0)), mode='edge')] *)
Definition pad_edge (before after : nat) (m : matrix) : matrix :=
  repeat (hd [] m) before ++ m ++ repeat (List.last m []) after.

(** [np.searchsorted(a, v, side)]: numpy's binary search between the
    indices [lo] and [hi].  [right t] says that the probe [t] sends the
    search to the left half: [v <= t] for [side="left"], [v < t] for
    [side="right"].  Every step shrinks [hi - lo], so [hi - lo] units of
    fuel are enough. *)
Fixpoint bisect (fuel : nat) (right : R -> bool) (a : list R) (lo hi : nat) : nat :=
  match fuel with
  | O => lo
  | S fuel' =>
      if (lo <? hi)%nat then
        let mid := (lo + (hi - lo) / 2)%nat in
        if right (nth mid a 0) then bisect fuel' right a lo mid
        else bisect fuel' right a (S mid) hi
      else lo
  end.

Definition searchsorted_left (a : list R) (v : R) : nat :=
  bisect (length a) (fun t => Rleb v t) a 0 (length a).
Definition searchsorted_right (a : list R) (v : R) : nat :=
  bisect (length a) (fun t => Rltb v t) a 0 (length a).

(** *** Calibration *)

Definition sim_points : list R :=
  [0.00; 0.02; 0.05; 0.08; 0.09; 0.10; 0.30; 0.40; 0.53; 1.00].
Definition score_points : list R :=
  [0.0; 0.0; 40.0; 50.0; 60.0; 70.0; 80.0; 90.0; 100.0; 100.0].

Definition continuous_score (similarity : R) : R :=
  np_interp similarity sim_points score_points.

(** *** Normalisation *)

Definition cmvn_rows (m : matrix) : matrix :=
  let mean := mean_axis0 m in
  let std := map (fun s => s + 1e-9) (std_axis0 m) in
  map (fun row => zip_with Rdiv (zip_with Rminus row mean) std) m.

Definition _apply_cmvn (mfcc : matrix) : matrix :=
  if (shape0 mfcc =? 0)%nat then mfcc else cmvn_rows mfcc.

Definition cmvn_with_c0_clipping (mfcc : matrix) : matrix :=
  if (shape0 mfcc =? 0)%nat then mfcc
  else
    let rest := map (@tl R) mfcc in
    let rest_norm := cmvn_rows rest in
    let c0 := column 0 mfcc in
    let c0_min := np_percentile c0 5 in
    let c0_max := np_percentile c0 95 in
    let c0_norm :=
      if Rlt_dec (c0_max - c0_min) 1e-6
      then map (fun _ => 0.5) c0
      else map (fun x => (np_clip x c0_min c0_max - c0_min) / (c0_max - c0_min)) c0 in
    zip_with cons c0_norm rest_norm.

Definition _calculate_std_deviation (mfcc : matrix) : R :=
  if (shape0 mfcc =? 0)%nat then 0
  else if (13 <=? shape1 mfcc)%nat
       then np_mean (std_axis0 (map (firstn 13) mfcc))
       else np_mean (std_axis0 mfcc).

(** [_pad_reference_mfcc] *)
Definition _pad_reference_mfcc (mfcc : matrix) (target_length : nat) : matrix :=
  if (target_length <=? length mfcc)%nat then mfcc
  else pad_edge 0 (target_length - length mfcc) mfcc.

(** [m[lo:hi]] for [0 <= lo <= hi] *)
Definition slice {A} (l : list A) (lo hi : nat) : list A :=
  firstn (hi - lo) (skipn lo l).

Definition MIN_FRAMES : nat := 5.

Definition extract_mfcc_segment (mfcc : matrix) (frame_times : list R)
    (start_time end_time : R) : matrix :=
  let start_idx := searchsorted_left frame_times start_time in
  let end_idx := searchsorted_right frame_times end_time in
  let start_idx := Nat.max 0 start_idx in
  let end_idx := Nat.min (length mfcc) end_idx in
  if (Z.of_nat end_idx - Z.of_nat start_idx <? Z.of_nat MIN_FRAMES)%Z
  then []
  else slice mfcc start_idx end_idx.

(** [a * w] with [w] of shape (D,), and [a - b]: numpy raises when the
    widths do not agree (its stretching of a width of one is not
    modelled; no feature matrix has that width). *)
Definition scale_columns (a : matrix) (w : list R) : outcome matrix :=
  if (shape1 a =? length w)%nat
  then Ok (map (fun row => zip_with Rmult row w) a)
  else Raise ValueError.

Definition subtract (a b : matrix) : outcome matrix :=
  if (shape1 a =? shape1 b)%nat && (length a =? length b)%nat
  then Ok (zip_with (zip_with Rminus) a b)
  else Raise ValueError.

Definition STD_THRESHOLD : R := 0.5.
Definition dimension_weights : list R := [1.5; 0.8; 0.3].

Definition weight_vector (d : nat) : list R :=
  repeat (nth 0 dimension_weights 0) d
  ++ repeat (nth 1 dimension_weights 0) d
  ++ repeat (nth 2 dimension_weights 0) d.

Definition std_ratio_of (ref_mfcc user_mfcc : matrix) : R :=
  let ref_std := _calculate_std_deviation ref_mfcc in
  let user_std := _calculate_std_deviation user_mfcc in
  if Rlt_dec 0 ref_std then user_std / ref_std else 0.

(** Lines 264-271: the shorter of the two segments is padded to the
    length of the longer. *)
Definition pad_shorter (ref_norm user_norm : matrix) : matrix * matrix :=
  if (length ref_norm =? length user_norm)%nat then (ref_norm, user_norm)
  else if (length user_norm <? length ref_norm)%nat
       then (ref_norm, _pad_reference_mfcc user_norm (length ref_norm))
       else (_pad_reference_mfcc ref_norm (length user_norm), user_norm).

(** Lines 250-288 of [frame_wise_euclidean_similarity]: from the two
    normalised segments to the similarity. *)
Definition similarity_of_normalized (std_ratio : R) (ref_norm user_norm : matrix)
    : outcome R :=
  let d := (shape1 ref_norm / 3)%nat in
  let w := weight_vector d in
  ref_norm ← scale_columns ref_norm w;
  user_norm ← scale_columns user_norm w;
  let '(ref_norm, user_norm) := pad_shorter ref_norm user_norm in
  diff ← subtract ref_norm user_norm;
  let frame_distances := map (fun row => sqrt (sum (map (fun x => x ^ 2) row))) diff in
  let mean_distance := np_mean frame_distances in
  let similarity := 1 / (1 + mean_distance) in
  if Rlt_dec std_ratio 1
  then
    let std_penalty := (1 - std_ratio) * 0.3 in
    Ok (similarity * (1 - std_penalty))
  else Ok similarity.

(** One entry of the result of [compare_mfcc_segments]; the aggregator
    reads both keys with a default, hence the options. *)
Record MfccResult : Type := {
  m_word : string;
  similarity : option R;
  adjusted_score : option R
}.

Section Delta.

(** [librosa.feature.delta(data.T, order=order, width=width).T]: the
    derivative filter along the frame axis. *)
Variable delta : nat -> nat -> matrix -> matrix.

Definition _add_delta_features (mfcc : matrix) : matrix :=
  if (shape0 mfcc =? 0)%nat then []
  else
    let n_frames := shape0 mfcc in
    let '(delta_mfcc, delta2_mfcc) :=
      if (n_frames <? 5)%nat then
        let pad_size := Nat.max 0 (5 - n_frames) in
        let padded_mfcc := pad_edge pad_size pad_size mfcc in
        let delta_mfcc := delta 1 3 padded_mfcc in
        let delta2_mfcc := delta 2 3 padded_mfcc in
        if (0 <? pad_size)%nat
        then (slice delta_mfcc pad_size (pad_size + n_frames),
              slice delta2_mfcc pad_size (pad_size + n_frames))
        else (delta_mfcc, delta2_mfcc)
      else if (n_frames <? 9)%nat then
        let width := if (n_frames mod 2 =? 1)%nat then n_frames else (n_frames - 1)%nat in
        let width := Nat.max 3 width in
        (delta 1 width mfcc, delta 2 width mfcc)
      else (delta 1 9 mfcc, delta 2 9 mfcc) in
    zip_with (@app R) (zip_with (@app R) mfcc delta_mfcc) delta2_mfcc.

(** Lines 237-244: the derivative features are added to a 13-column input. *)
Definition augment (mfcc : matrix) : matrix :=
  if (shape1 mfcc =? 13)%nat then _add_delta_features mfcc else mfcc.

(** Lines 246-248: the two normalised segments of the main path. *)
Definition normalized_segments (ref_mfcc user_mfcc : matrix) : matrix * matrix :=
  (_apply_cmvn (augment ref_mfcc), _apply_cmvn (augment user_mfcc)).

(** The body of the [try] block. *)
Definition similarity_body (ref_mfcc user_mfcc : matrix) : outcome R :=
  let std_ratio := std_ratio_of ref_mfcc user_mfcc in
  if Rlt_dec std_ratio STD_THRESHOLD then
    let penalty_factor := 1 - std_ratio / STD_THRESHOLD in
    Ok (0.05 * (1 - penalty_factor))
  else
    let '(ref_norm, user_norm) := normalized_segments ref_mfcc user_mfcc in
    similarity_of_normalized std_ratio ref_norm user_norm.

Definition frame_wise_euclidean_similarity (ref_mfcc user_mfcc : matrix) : R :=
  if (shape0 ref_mfcc =? 0)%nat || (shape0 user_mfcc =? 0)%nat then 0
  else if (shape0 ref_mfcc <? MIN_FRAMES)%nat || (shape0 user_mfcc <? MIN_FRAMES)%nat
       then 0
       else match similarity_body ref_mfcc user_mfcc with
            | Ok similarity => similarity
            | Raise _ => 0
            end.

Definition segment_similarity (user_mfcc : matrix) (user_frame_times : list R)
    (start_ end_ : R) (segment : Segment) : R :=
  match mfcc segment with
  | None => 0
  | Some [] => 0
  | Some ref_mfcc =>
      let user_segment := extract_mfcc_segment user_mfcc user_frame_times start_ end_ in
      if (shape0 ref_mfcc =? 0)%nat then 0
      else if (shape0 user_segment =? 0)%nat then 0
           else frame_wise_euclidean_similarity ref_mfcc user_segment
  end.

Definition compare_mfcc_segments (cached_segments : list Segment)
    (user_mfcc : matrix) (user_frame_times : list R) : list MfccResult :=
  let offset :=
    match cached_segments with
    | seg0 :: _ => start_time seg0
    | [] => 0
    end in
  map (fun segment =>
         let start_ := start_time segment - offset in
         let end_ := end_time segment - offset in
         let similarity :=
           segment_similarity user_mfcc user_frame_times start_ end_ segment in
         let adjusted_score := continuous_score similarity in
         let normalized_score := adjusted_score / 100.0 in
         {| m_word := word segment;
            similarity := Some similarity;
            adjusted_score := Some normalized_score |})
      cached_segments.

End Delta.

End MfccSimilarity.

(** ** pronunciation.py *)

Module Pronunciation.
Import Py TextSimilarity MfccSimilarity.
Local Open Scope R_scope.

Definition calculate_time_overlap (ref_start ref_end user_start user_end : R) : R * R :=
  let overlap_start := Rmax ref_start user_start in
  let overlap_end := Rmin ref_end user_end in
  if Rle_dec overlap_end overlap_start then (0, 0)
  else
    let overlap_duration := overlap_end - overlap_start in
    let ref_duration := ref_end - ref_start in
    let overlap_ratio :=
      if Rlt_dec 0 ref_duration then overlap_duration / ref_duration else 0 in
    (overlap_duration, overlap_ratio).

(** [log_time_overlap_analysis] prints and returns its verdict. *)
Definition log_time_overlap_analysis (overlap_ratio threshold : R) : bool :=
  Rleb threshold overlap_ratio.

(** One entry of the result of [analyze_time_overlap]. *)
Record TimeMatch : Type := {
  t_word : string;
  time_match : bool;
  overlap_ratio : R;
  ref_start : R;
  ref_end : R;
  user_start : option R;
  user_end : option R
}.

(** [normalize_and_tokenize(w)[0]] *)
Definition first_token (w : string) : outcome string :=
  first (normalize_and_tokenize w).

(** The dict comprehension of lines 452-454: the items are entered in
    order, each under its key. *)
Fixpoint build_user_words_dict (user_word_timestamps : list Segment)
    (d : gmap string Segment) : outcome (gmap string Segment) :=
  match user_word_timestamps with
  | [] => Ok d
  | item :: rest =>
      key ← first_token (word item);
      build_user_words_dict rest (<[key := item]> d)
  end.

Definition match_word (user_words_dict : gmap string Segment) (threshold : R)
    (ref_word_data : Segment) : outcome TimeMatch :=
  let ref_word := word ref_word_data in
  let ref_start := start_time ref_word_data in
  let ref_end := end_time ref_word_data in
  ref_key ← first_token ref_word;
  match user_words_dict !! ref_key with
  | Some user_match =>
      let user_start := start_time user_match in
      let user_end := end_time user_match in
      let '(_, overlap_ratio) :=
        calculate_time_overlap ref_start ref_end user_start user_end in
      let is_time_match := log_time_overlap_analysis overlap_ratio threshold in
      Ok {| t_word := ref_word; time_match := is_time_match;
            overlap_ratio := overlap_ratio;
            ref_start := ref_start; ref_end := ref_end;
            user_start := Some user_start; user_end := Some user_end |}
  | None =>
      Ok {| t_word := ref_word; time_match := false; overlap_ratio := 0;
            ref_start := ref_start; ref_end := ref_end;
            user_start := None; user_end := None |}
  end.

(** The [for] loop of lines 456-494. *)
Fixpoint match_words (user_words_dict : gmap string Segment) (threshold : R)
    (reference_words : list Segment) : outcome (list TimeMatch) :=
  match reference_words with
  | [] => Ok []
  | ref_word_data :: rest =>
      r ← match_word user_words_dict threshold ref_word_data;
      rs ← match_words user_words_dict threshold rest;
      Ok (r :: rs)
  end.

Definition analyze_time_overlap (reference_words user_word_timestamps : list Segment)
    (threshold : R) : outcome (list TimeMatch) :=
  user_words_dict ← build_user_words_dict user_word_timestamps ∅;
  match_words user_words_dict threshold reference_words.

Definition default_threshold : R := 0.4.

(** [log_text_matching_summary] prints; its two success rates divide by
    [len(reference_words)]. *)
Definition log_text_matching_summary (reference_words : list string) : outcome unit :=
  match reference_words with
  | [] => Raise ZeroDivisionError
  | _ => Ok tt
  end.

(** *** generate_comprehensive_results *)

Record WordAnalysis : Type := {
  a_word : string;
  text_status : Status;
  a_time_match : bool;
  a_overlap_ratio : R;
  mfcc_similarity : R;
  word_score : R
}.

(** The state of the loop of lines 612-665. *)
Record Tally : Type := {
  word_analysis : list WordAnalysis;
  text_pass_count : nat;
  time_pass_count : nat;
  stt_failures : list string;
  time_failures : list (string * R);
  mfcc_low_quality : list (string * R)
}.

Definition empty_tally : Tally :=
  {| word_analysis := []; text_pass_count := 0; time_pass_count := 0;
     stt_failures := []; time_failures := []; mfcc_low_quality := [] |}.

Definition is_pass (s : Status) : bool :=
  match s with pass => true | fail => false end.

Definition or_default (o : option R) (d : R) : R :=
  match o with Some x => x | None => d end.

(** The MFCC value of word [i]: the calibrated score when the entry has
    one, the raw similarity otherwise, 0 without an entry. *)
Definition mfcc_value (mfcc_comparison_result : list MfccResult) (i : nat) : R :=
  match mfcc_comparison_result !! i with
  | Some entry =>
      match adjusted_score entry with
      | Some a => a
      | None => or_default (similarity entry) 0
      end
  | None => 0
  end.

(** One iteration of the loop, for the word at index [i]. *)
Definition tally_word (text_comparison_result : list TextResult)
    (mfcc_comparison_result : list MfccResult)
    (time_matching_results : list TimeMatch)
    (t : Tally) (i : nat) (w : string) : outcome Tally :=
  let text_status :=
    match text_comparison_result !! i with
    | Some r => status r
    | None => fail
    end in
  let time_result := time_matching_results !! i in
  let time_match :=
    match time_result with Some tr => time_match tr | None => false end in
  let overlap_ratio :=
    match time_result with Some tr => overlap_ratio tr | None => 0 end in
  let mfcc_similarity := mfcc_value mfcc_comparison_result i in
  entry ← index text_comparison_result i;
  let confidence := or_default (r_confidence entry) 0 in
  let text_score := if is_pass text_status then confidence else 0 in
  let word_score := text_score * 0.7 + mfcc_similarity * 0.3 in
  let analysis :=
    {| a_word := w; text_status := text_status; a_time_match := time_match;
       a_overlap_ratio := round overlap_ratio 3;
       mfcc_similarity := round mfcc_similarity 3;
       word_score := round word_score 3 |} in
  let stt_failed :=
    match time_result with
    | Some tr => match user_start tr with None => true | Some _ => false end
    | None => false
    end in
  let time_failed :=
    negb stt_failed && negb time_match &&
    match time_result with
    | Some tr => match user_start tr with None => false | Some _ => true end
    | None => false
    end in
  Ok {| word_analysis := word_analysis t ++ [analysis];
        text_pass_count :=
          if is_pass text_status then S (text_pass_count t) else text_pass_count t;
        time_pass_count :=
          if time_match then S (time_pass_count t) else time_pass_count t;
        stt_failures :=
          if stt_failed then stt_failures t ++ [w] else stt_failures t;
        time_failures :=
          if time_failed then time_failures t ++ [(w, overlap_ratio)]
          else time_failures t;
        mfcc_low_quality :=
          if Rlt_dec mfcc_similarity 0.4
          then mfcc_low_quality t ++ [(w, mfcc_similarity)]
          else mfcc_low_quality t |}.

(** [for i, word in enumerate(reference_words)], from index [i] on. *)
Fixpoint tally_words (text_comparison_result : list TextResult)
    (mfcc_comparison_result : list MfccResult)
    (time_matching_results : list TimeMatch)
    (t : Tally) (i : nat) (reference_words : list string) : outcome Tally :=
  match reference_words with
  | [] => Ok t
  | w :: rest =>
      t' ← tally_word text_comparison_result mfcc_comparison_result
             time_matching_results t i w;
      tally_words text_comparison_result mfcc_comparison_result
                  time_matching_results t' (S i) rest
  end.

Record Report : Type := {
  overall_score : R;
  report_words : list WordAnalysis;
  text_accuracy : R;
  time_accuracy : R;
  mfcc_average : R;
  total_words : nat;
  passed_words : nat;
  time_matched_words : nat;
  report_stt_failures : list string;
  report_time_failures : list string;
  report_mfcc_low_quality : list string
}.

Definition ratio_or_zero (x : R) (n : nat) : R :=
  match n with
  | O => 0
  | _ => x / INR n
  end.

Definition generate_comprehensive_results (reference_words : list string)
    (text_comparison_result : list TextResult)
    (mfcc_comparison_result : list MfccResult)
    (time_matching_results : list TimeMatch) : outcome Report :=
  t ← tally_words text_comparison_result mfcc_comparison_result
        time_matching_results empty_tally 0 reference_words;
  let n_ref := length reference_words in
  let text_accuracy := ratio_or_zero (INR (text_pass_count t)) n_ref in
  let time_accuracy := ratio_or_zero (INR (time_pass_count t)) n_ref in
  let mfcc_total := sum (map mfcc_similarity (word_analysis t)) in
  let mfcc_average := ratio_or_zero mfcc_total (length (word_analysis t)) in
  let score_total := sum (map word_score (word_analysis t)) in
  let overall_score := ratio_or_zero score_total (length (word_analysis t)) in
  Ok {| overall_score := round overall_score 3;
        report_words := word_analysis t;
        text_accuracy := round text_accuracy 3;
        time_accuracy := round time_accuracy 3;
        mfcc_average := round mfcc_average 3;
        total_words := n_ref;
        passed_words := text_pass_count t;
        time_matched_words := time_pass_count t;
        report_stt_failures := stt_failures t;
        report_time_failures := map fst (time_failures t);
        report_mfcc_low_quality := map fst (mfcc_low_quality t) |}.

(** Steps 2 to 5 of [analyze_pronunciation_pipeline] (lines 345-385):
    time-overlap analysis, text comparison, MFCC comparison and the
    aggregation, on the recogniser's output and the user's features. *)
Definition analysis_steps (delta : nat -> nat -> matrix -> matrix)
    (reference_segments user_word_timestamps : list Segment)
    (user_stt_result : WhisperJson)
    (user_mfcc : matrix) (user_frame_times : list R) : outcome Report :=
  time_matching_results ←
    analyze_time_overlap reference_segments user_word_timestamps default_threshold;
  let text_comparison_result := compare_texts reference_segments user_stt_result in
  _ ← log_text_matching_summary (map word reference_segments);
  let mfcc_comparison_result :=
    compare_mfcc_segments delta reference_segments user_mfcc user_frame_times in
  generate_comprehensive_results (map word reference_segments)
    text_comparison_result mfcc_comparison_result time_matching_results.

End Pronunciation.

(** ** textgrid_comparator.py: pitch analysis *)

Module TextgridComparator.
Import Py MfccSimilarity.
Local Open Scope R_scope.

(** A point of a pitch track: [{"time": t, "hz": f}], [hz] being [null]
    on an unvoiced frame. *)
Record PitchPoint : Type := {
  time : R;
  hz : option R
}.

(** A segment of the script: [{"text", "start", "end"}]. *)
Record ScriptSegment : Type := {
  seg_text : string;
  seg_start : R;
  seg_end : R
}.

Fixpoint extract_pitch_segment_safe (pitch_data : list PitchPoint) (start_ end_ : R)
    : list R :=
  match pitch_data with
  | [] => []
  | pt :: rest =>
      match hz pt with
      | Some h =>
          if Rleb start_ (time pt) && Rleb (time pt) end_ && Rltb 0 h
          then h :: extract_pitch_segment_safe rest start_ end_
          else extract_pitch_segment_safe rest start_ end_
      | None => extract_pitch_segment_safe rest start_ end_
      end
  end.

Definition zscore_normalize_pitch (pitch_values : list R) : list R :=
  match pitch_values with
  | [] => []
  | _ =>
      let mean_val := np_mean pitch_values in
      let std_val := np_std pitch_values in
      if Req_dec_T std_val 0 then map (fun _ => 0) pitch_values
      else map (fun val => (val - mean_val) / std_val) pitch_values
  end.

(** [np.linspace(0, 1, n)] *)
Definition linspace01 (n : nat) : list R :=
  match n with
  | 1%nat => [0]
  | _ => map (fun i => INR i / INR (n - 1)) (seq 0 n)
  end.

Definition resample (values : list R) (n : nat) : list R :=
  map (fun x => np_interp x (linspace01 (length values)) values) (linspace01 n).

Definition dot (a b : list R) : R := sum (zip_with Rmult a b).
Definition norm (a : list R) : R := sqrt (sum (map (fun x => x ^ 2) a)).

Definition calculate_simple_pitch_similarity (ref_pitch user_pitch : list R) : R :=
  let min_len := Nat.min (length ref_pitch) (length user_pitch) in
  if (min_len <? 3)%nat then 0
  else
    let ref_resampled := resample ref_pitch min_len in
    let user_resampled := resample user_pitch min_len in
    let ref_norm :=
      map (fun x => (x - np_mean ref_resampled) / (np_std ref_resampled + 1e-8))
          ref_resampled in
    let user_norm :=
      map (fun x => (x - np_mean user_resampled) / (np_std user_resampled + 1e-8))
          user_resampled in
    let dot_product := dot ref_norm user_norm in
    let norm_ref := norm ref_norm in
    let norm_user := norm user_norm in
    if Req_dec_T norm_ref 0 then 0
    else if Req_dec_T norm_user 0 then 0
         else
           let similarity := dot_product / (norm_ref * norm_user) in
           Rmax 0 ((similarity + 1) / 2).

(** One entry of [segment_details]. *)
Record SegmentDetail : Type := {
  d_text : string;
  d_start : R;
  d_end : R;
  d_similarity : option R
}.

Record PitchAnalysis : Type := {
  pitch_similarity : R;
  segment_details : list SegmentDetail
}.

Section Dtw.

(** [fastdtw(x, y, dist=euclidean)[0]], the warping distance; an
    exception of the library (or its absence) is a [Raise]. *)
Variable fastdtw : list R -> list R -> outcome R.

Definition calculate_dtw_pitch_similarity (ref_pitch user_pitch : list R) : R :=
  if (length ref_pitch <? 3)%nat || (length user_pitch <? 3)%nat then 0
  else
    let ref_norm := zscore_normalize_pitch ref_pitch in
    let user_norm := zscore_normalize_pitch user_pitch in
    match fastdtw ref_norm user_norm with
    | Ok distance =>
        let max_len := Nat.max (length ref_norm) (length user_norm) in
        Rmax 0 (1 - distance / INR max_len)
    | Raise _ => calculate_simple_pitch_similarity ref_pitch user_pitch
    end.

(** The similarity of one segment (lines 362-372): [None] is [null]. *)
Definition segment_pitch_similarity (ref_pitch_data user_pitch_data : list PitchPoint)
    (segment : ScriptSegment) : option R :=
  let start_ := seg_start segment in
  let end_ := seg_end segment in
  let ref_segment := extract_pitch_segment_safe ref_pitch_data start_ end_ in
  let user_segment := extract_pitch_segment_safe user_pitch_data start_ end_ in
  if (5 <? length ref_segment)%nat && (5 <? length user_segment)%nat
  then Some (calculate_dtw_pitch_similarity ref_segment user_segment)
  else None.

(** The loop of lines 361-382, with its two accumulators. *)
Fixpoint pitch_loop (ref_pitch_data user_pitch_data : list PitchPoint)
    (segments : list ScriptSegment)
    (segment_results : list SegmentDetail) (similarities : list R)
    : list SegmentDetail * list R :=
  match segments with
  | [] => (segment_results, similarities)
  | segment :: rest =>
      let similarity :=
        segment_pitch_similarity ref_pitch_data user_pitch_data segment in
      let detail :=
        {| d_text := seg_text segment;
           d_start := seg_start segment;
           d_end := seg_end segment;
           d_similarity :=
             match similarity with
             | Some s => Some (round s 3)
             | None => None
             end |} in
      pitch_loop ref_pitch_data user_pitch_data rest
        (segment_results ++ [detail])
        (match similarity with
         | Some s => similarities ++ [s]
         | None => similarities
         end)
  end.

(** [analyze_pitch_similarity], from the two loaded pitch tracks on. *)
Definition analyze_pitch_similarity (ref_pitch_data user_pitch_data : list PitchPoint)
    (segments : list ScriptSegment) : PitchAnalysis :=
  let '(segment_results, similarities) :=
    pitch_loop ref_pitch_data user_pitch_data segments [] [] in
  let avg_similarity :=
    match similarities with
    | [] => 0
    | _ => sum similarities / len similarities
    end in
  {| pitch_similarity := round avg_similarity 3;
     segment_details := segment_results |}.

End Dtw.

End TextgridComparator.

(** ** Inputs of the worked examples *)

Module Scenario.
Import Py TextSimilarity MfccSimilarity TextgridComparator.
Local Open Scope R_scope.

(** A word of a script or of the recogniser's output. *)
Definition spoken (w : string) (s e : R) : Segment :=
  {| word := w; start_time := s; end_time := e;
     confidence := None; mfcc := None |}.

(** The reference word [{"cat", 0.0, 0.5}]. *)
Definition ref_cat : Segment := spoken "cat" 0.0 0.5.

(** A recognised token ["cat"] from [s] to [e] seconds. *)
Definition cat_token (s e : R) (conf : option R) : Token :=
  {| text := Some "cat"%string; ts_from := s; ts_to := e; p := conf |}.

(** A reference word made of punctuation only: [{"-", 0.0, 0.5}]. *)
Definition ref_dash : Segment := spoken "-" 0.0 0.5.

(** The user says ["the"] twice; the reference has it once, early. *)
Definition the_reference : list Segment :=
  [spoken "The" 0.0 0.3; spoken "cat" 0.4 0.9].
Definition the_user : list Segment :=
  [spoken "the" 0.0 0.3; spoken "cat" 0.4 0.9; spoken "the" 5.0 5.3].

(** Two words recorded one second into the audio. *)
Definition late_words : list Segment :=
  [spoken "the" 1.0 1.3; spoken "cat" 1.4 1.9].

(** The text result of a word that passed with confidence 0.9991. *)
Definition cat_passed : TextResult :=
  {| r_word := "cat"; status := pass; lcs_similarity := 1;
     r_confidence := Some 0.9991 |}.

(** Three frames of one coefficient, at the times 0, 0.5 and 1. *)
Definition three_frames : matrix := [[1]; [2]; [3]].
Definition three_times : list R := [0; 0.5; 1].

(** Five frames of one coefficient, at the times 0, 0.25, ..., 1. *)
Definition five_frames : matrix := [[1]; [2]; [3]; [4]; [5]].
Definition five_times : list R := [0; 0.25; 0.5; 0.75; 1].

(** A filter of the shape of librosa's delta, for the worked examples:
    the differences of consecutive frames, the last frame getting 0. *)
Fixpoint frame_differences (m : matrix) : matrix :=
  match m with
  | row :: ((next :: _) as rest) =>
      zip_with Rminus next row :: frame_differences rest
  | [row] => [map (fun _ => 0) row]
  | [] => []
  end.

Definition difference_delta (order width : nat) (m : matrix) : matrix :=
  Nat.iter order frame_differences m.

(** Five frames of 13 coefficients: a constant energy (coefficient 0),
    a rising coefficient 1, the rest at 0. *)
Definition flat_energy_frame (c1 : R) : list R :=
  [1; c1; 0; 0; 0; 0; 0; 0; 0; 0; 0; 0; 0].
Definition flat_energy : matrix :=
  map flat_energy_frame [0; 1; 2; 3; 4].

(** A script segment, and a machine without the fastdtw library. *)
Definition hello_segment : ScriptSegment :=
  {| seg_text := "hello"; seg_start := 0.0; seg_end := 0.5 |}.
Definition no_fastdtw (x y : list R) : outcome R := Raise ValueError.

End Scenario.

(** ** What the claims speak of *)

Module Spec.
Import Py TextSimilarity MfccSimilarity Pronunciation TextgridComparator.
Local Open Scope R_scope.

(** A matrix all of whose rows have [d] coefficients. *)
Definition rectangular (d : nat) (m : matrix) : Prop :=
  Forall (fun row => length row = d) m.

(** A feature matrix: 13 coefficients per frame, or 39 once augmented. *)
Definition feature_matrix (m : matrix) : Prop :=
  rectangular 13 m \/ rectangular 39 m.

(** librosa's delta filter returns an array of the shape of its input. *)
Definition keeps_shape (delta : nat -> nat -> matrix -> matrix) : Prop :=
  forall (order width d : nat) (m : matrix),
    rectangular d m ->
    length (delta order width m) = length m /\ rectangular d (delta order width m).

(** Plain CMVN, column by column: [y] has the frames of [x], and every
    one of its [d] columns is the column of [x] with the column's mean
    subtracted and the result divided by the column's standard deviation
    plus 1e-9. *)
Definition z_scored (d : nat) (x y : matrix) : Prop :=
  length y = length x
  /\ forall j : nat,
       (j < d)%nat ->
       column j y
       = map (fun v => (v - np_mean (column j x)) / (np_std (column j x) + 1e-9))
             (column j x).

(** The anchors that follow [(x0, f0)] in a calibration table: their
    abscissas increase strictly, their scores never decrease. *)
Inductive rising (x0 f0 : R) : list R -> list R -> Prop :=
| rising_nil : rising x0 f0 [] []
| rising_cons (x1 f1 : R) (xp fp : list R) :
    x0 < x1 -> f0 <= f1 -> rising x1 f1 xp fp ->
    rising x0 f0 (x1 :: xp) (f1 :: fp).

(** The first index of [a] whose element satisfies [test]; [len(a)] when
    there is none. *)
Fixpoint first_index (test : R -> bool) (a : list R) : nat :=
  match a with
  | [] => O
  | t :: a' => if test t then O else S (first_index test a')
  end.

(** A voiced point of positive pitch inside the window. *)
Definition usable_point (start_ end_ : R) (pt : PitchPoint) : option R :=
  match hz pt with
  | Some h => if Rleb start_ (time pt) && Rleb (time pt) end_ && Rltb 0 h
              then Some h else None
  | None => None
  end.

(** The mean of a list, 0 for the empty list. *)
Definition average_or_zero (xs : list R) : R :=
  match xs with
  | [] => 0
  | _ => sum xs / len xs
  end.

(** A segment with strictly more than 5 usable points on both sides. *)
Definition long_enough (ref_pitch_data user_pitch_data : list PitchPoint)
    (segment : ScriptSegment) : bool :=
  (5 <? length (omap (usable_point (seg_start segment) (seg_end segment)) ref_pitch_data))%nat
  && (5 <? length (omap (usable_point (seg_start segment) (seg_end segment)) user_pitch_data))%nat.

(** Whether [k] is the first normalised token of the word of [item]. *)
Definition has_key (k : string) (item : Segment) : bool :=
  match normalize_and_tokenize (word item) with
  | t :: _ => String.eqb t k
  | [] => false
  end.

(** The last item of the list whose first normalised token is [k]. *)
Fixpoint last_with_key (k : string) (items : list Segment) : option Segment :=
  match items with
  | [] => None
  | item :: rest =>
      match last_with_key k rest with
      | Some u => Some u
      | None => if has_key k item then Some item else None
      end
  end.

(** A word without any normalised token, such as ["-"] or ["..."]. *)
Definition tokenless (seg : Segment) : Prop :=
  normalize_and_tokenize (word seg) = [].

(** A word with at least one normalised token. *)
Definition tokenizes (seg : Segment) : Prop :=
  normalize_and_tokenize (word seg) <> [].

(** What the time-overlap analysis records in [r] for the reference word
    [ref], given the user word [found] it was paired with. *)
Definition recorded (threshold : R) (ref : Segment) (found : option Segment)
    (r : TimeMatch) : Prop :=
  t_word r = word ref
  /\ ref_start r = start_time ref /\ ref_end r = end_time ref
  /\ match found with
     | Some u =>
         user_start r = Some (start_time u)
         /\ user_end r = Some (end_time u)
         /\ overlap_ratio r =
            snd (calculate_time_overlap (start_time ref) (end_time ref)
                                        (start_time u) (end_time u))
         /\ time_match r = Rleb threshold (overlap_ratio r)
     | None =>
         user_start r = None /\ user_end r = None
         /\ overlap_ratio r = 0 /\ time_match r = false
     end.

(** The text part of a word's score: the confidence of the matched
    candidate if the word's text status is [pass], else 0. *)
Definition text_part (entry : TextResult) : R :=
  match status entry with
  | pass => match r_confidence entry with Some c => c | None => 0 end
  | fail => 0
  end.

(** The MFCC part of the score of word [i]: the calibrated score when
    the entry has one, the raw similarity otherwise. *)
Definition mfcc_part (mfcc_comparison_result : list MfccResult) (i : nat) : R :=
  match mfcc_comparison_result !! i with
  | Some m =>
      match adjusted_score m with
      | Some calibrated => calibrated
      | None => match similarity m with Some s => s | None => 0 end
      end
  | None => 0
  end.

End Spec.

(** ** pronunciation.py: the recogniser's words and the S3 addresses *)

Module WordTimestamps.
Import Py TextSimilarity.
Local Open Scope R_scope.

(** An entry of [transcription['words']].  An absent key is [None]; the
    value of a time that is present is a number or [null], the latter
    being [Some None]. *)
Record WordEntry : Type := {
  e_word : option string;
  e_start : option (option R);
  e_end : option (option R)
}.

(** [stt_result['transcription'][0]].  [tr_words] is [None] when the key
    is absent or its value is not a list, [tr_tokens] when the key is
    absent.  The tokens are those of [parse_whisper_cpp_result], their
    timestamps held in seconds. *)
Record Transcription : Type := {
  tr_words : option (list WordEntry);
  tr_tokens : option (list Token)
}.

(** [stt_result['transcription']]; an absent key is the empty list. *)
Definition SttResult : Type := list Transcription.

(** One word of the result; [word_start] is [None] until a token with a
    leading space has been read, and so may [start_time] be. *)
Record WordTimestamp : Type := {
  wt_word : string;
  wt_start : option R;
  wt_end : option R
}.

(** The variables of the merging loop of lines 213-246. *)
Record Merge : Type := {
  word_timestamps : list WordTimestamp;
  current_text : string;
  word_start : option R;
  prev_end : option R
}.

Definition endswith_bracket (s : string) : bool :=
  match rev (list_ascii_of_string s) with
  | c :: _ => (code c =? 93)%nat
  | [] => false
  end.

Definition startswith_space (s : string) : bool :=
  match s with
  | String c _ => (code c =? 32)%nat
  | EmptyString => false
  end.

(** [re.fullmatch(r'[\W_]+', text)] *)
Definition is_punctuation (s : string) : bool :=
  match list_ascii_of_string s with
  | [] => false
  | l => forallb (fun c => negb (is_word_char c) || (code c =? 95)%nat) l
  end.

(** The truth value of a string *)
Definition nonempty (s : string) : bool :=
  match s with
  | EmptyString => false
  | String _ _ => true
  end.

(** The [append] of lines 233-238 and 249-254. *)
Definition flush (st : Merge) : list WordTimestamp :=
  if nonempty (current_text st)
  then word_timestamps st
       ++ [ {| wt_word := current_text st;
               wt_start := word_start st;
               wt_end := prev_end st |} ]
  else word_timestamps st.

(** One iteration of the loop of lines 218-246. *)
Definition merge_token (st : Merge) (token : Token) : Merge :=
  let t := match text token with Some t => t | None => EmptyString end in
  if startswith_bracket t && endswith_bracket t then st
  else if is_punctuation t then st
  else
    let start_ := ts_from token in
    let end_ := ts_to token in
    if startswith_space t
    then {| word_timestamps := flush st;
            current_text := str_strip t;
            word_start := Some start_;
            prev_end := Some end_ |}
    else {| word_timestamps := word_timestamps st;
            current_text := (current_text st ++ str_strip t)%string;
            word_start := word_start st;
            prev_end := Some end_ |}.

Definition merge_start : Merge :=
  {| word_timestamps := []; current_text := EmptyString;
     word_start := None; prev_end := None |}.

(** Lines 212-255: the loop and the last [append]. *)
Definition merge_tokens (tokens : list Token) : list WordTimestamp :=
  flush (fold_left merge_token tokens merge_start).

(** Lines 196-202: an entry with its three keys gives a word. *)
Definition complete_entry (e : WordEntry) : list WordTimestamp :=
  match e_word e, e_start e, e_end e with
  | Some w, Some s, Some e' =>
      [ {| wt_word := w; wt_start := s; wt_end := e' |} ]
  | _, _, _ => []
  end.

Definition extract_word_timestamps (stt_result : SttResult) : list WordTimestamp :=
  match stt_result with
  | [] => []
  | transcription :: _ =>
      match tr_words transcription with
      | Some (w :: ws) => flat_map complete_entry (w :: ws)
      | _ =>
          match tr_tokens transcription with
          | Some (t :: ts) => merge_tokens (t :: ts)
          | _ => []
          end
      end
  end.

(** *** parse_s3_url *)

(** [s.split(sep, maxsplit)], and [s.split(sep)] for [maxsplit = None];
    [cur] is the part being read, reversed. *)
Fixpoint split_on (sep : ascii) (maxsplit : option nat) (cur : list ascii)
    (s : list ascii) : list string :=
  match s with
  | [] => [string_of_list_ascii (rev cur)]
  | c :: rest =>
      if Ascii.eqb c sep then
        match maxsplit with
        | Some O => split_on sep maxsplit (c :: cur) rest
        | Some (S n) =>
            string_of_list_ascii (rev cur) :: split_on sep (Some n) [] rest
        | None =>
            string_of_list_ascii (rev cur) :: split_on sep None [] rest
        end
      else split_on sep maxsplit (c :: cur) rest
  end.

(** [sub in s] *)
Definition contains (sub s : string) : bool :=
  match String.index 0 sub s with
  | Some _ => true
  | None => false
  end.

(** [s.lstrip(c)] for a single character *)
Fixpoint lstrip_char (c : ascii) (s : string) : string :=
  match s with
  | String a rest => if Ascii.eqb a c then lstrip_char c rest else s
  | EmptyString => EmptyString
  end.

Definition slash : ascii := ascii_of_nat 47.
Definition dot_char : ascii := ascii_of_nat 46.

Section UrlParse.

(** [urlparse(url)], read at [.netloc] and [.path]. *)
Variable urlparse : string -> string * string.

Definition parse_s3_url (s3_url : string) : outcome (string * string) :=
  if String.prefix "s3://" s3_url then
    let parts := split_on slash (Some 3%nat) [] (list_ascii_of_string s3_url) in
    if (length parts <? 4)%nat then Raise ValueError
    else Ok (nth 2 parts EmptyString, nth 3 parts EmptyString)
  else if contains "amazonaws.com" s3_url then
    let '(netloc, path) := urlparse s3_url in
    let netloc_parts := split_on dot_char None [] (list_ascii_of_string netloc) in
    if (length netloc_parts <? 3)%nat || negb (nonempty path) then Raise ValueError
    else Ok (nth 0 netloc_parts EmptyString, lstrip_char slash path)
  else Raise ValueError.

End UrlParse.

End WordTimestamps.

(** ** voice_to_pitch.py *)

Module VoiceToPitch.
Import Py TextgridComparator.
Local Open Scope R_scope.

Fixpoint extract_pitch_segment (pitch_data : list PitchPoint) (start_time end_time : R)
    : list R :=
  match pitch_data with
  | [] => []
  | point :: rest =>
      match hz point with
      | Some h =>
          if Rleb start_time (time point) && Rleb (time point) end_time
          then h :: extract_pitch_segment rest start_time end_time
          else extract_pitch_segment rest start_time end_time
      | None => extract_pitch_segment rest start_time end_time
      end
  end.

End VoiceToPitch.

(** ** textgrid_comparator.py: phones and timing; scorer.py *)

Module PhoneComparison.
Import Py TextgridComparator.
Local Open Scope R_scope.

(** An interval of the phones tier, as [parse_textgrid] builds it from
    the lines [xmin], [xmax] and [text].  Every interval has its two
    bounds; [phone] is [None] when the interval has no [text] line. *)
Record Interval : Type := {
  i_start : R;
  i_end : R;
  phone : option string
}.

(** What [parse_textgrid] returns, but for the file name. *)
Record TextgridData : Type := {
  intervals : list Interval;
  total_duration : R
}.

(** The list comprehensions of lines 109-110: the phones that are
    present and not the empty string. *)
Definition phones (ivs : list Interval) : list string :=
  omap (fun interval =>
          match phone interval with
          | Some (String c s) => Some (String c s)
          | _ => None
          end) ivs.

(** The loop of lines 116-119, over the common prefix of the two lists. *)
Fixpoint count_matches (ref_phones user_phones : list string) : nat :=
  match ref_phones, user_phones with
  | r :: ref_phones', u :: user_phones' =>
      if String.eqb r u then S (count_matches ref_phones' user_phones')
      else count_matches ref_phones' user_phones'
  | _, _ => O
  end.

Definition calculate_timing_accuracy (ref_intervals user_intervals : list Interval) : R :=
  match ref_intervals, user_intervals with
  | r0 :: _, u0 :: _ =>
      let ref_duration := i_end (List.last ref_intervals r0) - i_start r0 in
      let user_duration := i_end (List.last user_intervals u0) - i_start u0 in
      let time_diff_ratio :=
        if Rlt_dec 0 ref_duration
        then Rabs (ref_duration - user_duration) / ref_duration
        else 1 in
      Rmax 0 (1 - time_diff_ratio)
  | _, _ => 0
  end.

Record TextgridAnalysis : Type := {
  pronunciation_accuracy : R;
  timing_accuracy : R;
  reference_phones : nat;
  user_phones : nat;
  matched_phones : nat;
  reference_duration : R;
  user_duration : R
}.

(** [compare_textgrids], from the two parsed files on. *)
Definition compare_textgrids (ref_data user_data : TextgridData) : TextgridAnalysis :=
  let ref_phones := phones (intervals ref_data) in
  let user_phones := phones (intervals user_data) in
  let total_phones := length ref_phones in
  let matched_phones := count_matches ref_phones user_phones in
  let pronunciation_accuracy :=
    if (0 <? total_phones)%nat then INR matched_phones / INR total_phones else 0 in
  let timing_accuracy :=
    calculate_timing_accuracy (intervals ref_data) (intervals user_data) in
  {| pronunciation_accuracy := round pronunciation_accuracy 3;
     timing_accuracy := round timing_accuracy 3;
     reference_phones := length ref_phones;
     user_phones := length user_phones;
     matched_phones := matched_phones;
     reference_duration := total_duration ref_data;
     user_duration := total_duration user_data |}.

(** The [overall_scores] of a comparison; an absent key is [None]. *)
Record OverallScores : Type := {
  pronunciation_score : option R;
  timing_score : option R;
  pitch_score : option R
}.

(** The result of [comprehensive_analysis], which [calculate_final_score]
    reads with [.get]: an absent entry is [None].  The [file_paths] entry
    repeats the four paths the function was called with. *)
Record Comparison : Type := {
  textgrid_analysis : option TextgridAnalysis;
  pitch_analysis : option PitchAnalysis;
  overall_scores : option OverallScores
}.

(** Lines 301-316 of [comprehensive_analysis]: the result, from the
    results of its two analyses. *)
Definition comprehensive_result (textgrid_results : TextgridAnalysis)
    (pitch_results : PitchAnalysis) : Comparison :=
  {| textgrid_analysis := Some textgrid_results;
     pitch_analysis := Some pitch_results;
     overall_scores :=
       Some {| pronunciation_score := Some (pronunciation_accuracy textgrid_results * 100);
               timing_score := Some (timing_accuracy textgrid_results * 100);
               pitch_score := Some (pitch_similarity pitch_results * 100) |} |}.

(** [comprehensive_analysis], from the parsed TextGrid files and the
    loaded pitch tracks on. *)
Definition comprehensive_analysis (fastdtw : list R -> list R -> outcome R)
    (ref_data user_data : TextgridData)
    (ref_pitch_data user_pitch_data : list PitchPoint)
    (reference_segments : list ScriptSegment) : Comparison :=
  comprehensive_result
    (compare_textgrids ref_data user_data)
    (analyze_pitch_similarity fastdtw ref_pitch_data user_pitch_data reference_segments).

(** *** scorer.py *)

Definition weight_pronunciation : R := 50.
Definition weight_timing : R := 25.
Definition weight_pitch : R := 25.

(** The result of [calculate_final_score]; its [weights_used] entry
    repeats the three constant weights. *)
Record FinalScore : Type := {
  final_overall_score : R;
  final_pronunciation_score : R;
  final_timing_score : R;
  final_pitch_score : R;
  detail_accuracy : R;
  detail_matched_phones : nat;
  detail_total_phones : nat;
  detail_timing_accuracy : R;
  detail_reference_duration : R;
  detail_user_duration : R;
  detail_similarity : R;
  detail_segments_analyzed : nat
}.

Definition get_score (o : option R) : R :=
  match o with
  | Some x => x
  | None => 0
  end.

Definition calculate_final_score (comparison_results : Comparison) : FinalScore :=
  let pronunciation_score_ :=
    match overall_scores comparison_results with
    | Some s => get_score (pronunciation_score s)
    | None => 0
    end in
  let timing_score_ :=
    match overall_scores comparison_results with
    | Some s => get_score (timing_score s)
    | None => 0
    end in
  let pitch_score_ :=
    match overall_scores comparison_results with
    | Some s => get_score (pitch_score s)
    | None => 0
    end in
  let final_score :=
    pronunciation_score_ * weight_pronunciation / 100
    + timing_score_ * weight_timing / 100
    + pitch_score_ * weight_pitch / 100 in
  let tg := textgrid_analysis comparison_results in
  let pa := pitch_analysis comparison_results in
  {| final_overall_score := round final_score 1;
     final_pronunciation_score := round pronunciation_score_ 1;
     final_timing_score := round timing_score_ 1;
     final_pitch_score := round pitch_score_ 1;
     detail_accuracy :=
       match tg with Some a => pronunciation_accuracy a | None => 0 end;
     detail_matched_phones :=
       match tg with Some a => matched_phones a | None => O end;
     detail_total_phones :=
       match tg with Some a => reference_phones a | None => O end;
     detail_timing_accuracy :=
       match tg with Some a => timing_accuracy a | None => 0 end;
     detail_reference_duration :=
       match tg with Some a => reference_duration a | None => 0 end;
     detail_user_duration :=
       match tg with Some a => user_duration a | None => 0 end;
     detail_similarity :=
       match pa with Some a => pitch_similarity a | None => 0 end;
     detail_segments_analyzed :=
       match pa with Some a => length (segment_details a) | None => O end |}.

End PhoneComparison.

(** ** mfcc_similarity.py: the times of the frames *)

Module FrameTimes.
Import Py MfccSimilarity.
Local Open Scope R_scope.

(** [np.linspace(start, stop, num)] *)
Definition np_linspace (start stop : R) (num : nat) : list R :=
  match num with
  | O => []
  | 1%nat => [start]
  | _ => map (fun i => start + INR i * ((stop - start) / INR (num - 1))) (seq 0 num)
  end.

(** Lines 317-319 of [extract_mfcc_from_audio]: the times of the
    [n_frames] frames of a recording of [duration] seconds. *)
Definition frame_times_of (duration : R) (n_frames : nat) : list R :=
  np_linspace 0 duration n_frames.

End FrameTimes.

(** ** What the further properties speak of *)

Module Notions.
Import Py TextSimilarity MfccSimilarity Pronunciation TextgridComparator.
Import WordTimestamps PhoneComparison FrameTimes.
Local Open Scope R_scope.

(** The time from the start of the first interval of a tier to the end
    of its last one. *)
Definition span (ivs : list Interval) : R :=
  match ivs with
  | i0 :: _ => i_end (List.last ivs i0) - i_start i0
  | [] => 0
  end.

(** A score between 0 and 100. *)
Definition percentage (x : R) : Prop := 0 <= x <= 100.

(** A letter or a digit. *)
Definition alphanumeric (c : ascii) : bool :=
  is_upper c || is_lower c || is_digit c.

(** A character of a normalised token: a lower-case letter, a digit, an
    underscore or an apostrophe. *)
Definition token_char (c : ascii) : bool :=
  is_lower c || is_digit c || (code c =? 95)%nat || Ascii.eqb c apostrophe.

(** A word with a letter or a digit in it. *)
Definition has_alphanumeric (s : string) : Prop :=
  exists c : ascii, In c (list_ascii_of_string s) /\ alphanumeric c = true.

(** A merged word as the time-overlap analysis reads it; a word without
    start or end time is no segment. *)
Definition as_segment (w : WordTimestamp) : option Segment :=
  match wt_start w, wt_end w with
  | Some s, Some e =>
      Some {| word := wt_word w; start_time := s; end_time := e;
              confidence := None; mfcc := None |}
  | _, _ => None
  end.

(** A state of the merging loop: the finished words and the pending one
    have a letter or a digit and an end time; a start time is missing
    from the first finished word at most, and from the pending word only
    while no word is finished. *)
Definition sound_merge (st : Merge) : Prop :=
  Forall (fun w => has_alphanumeric (wt_word w) /\ wt_end w <> None)
         (word_timestamps st)
  /\ (current_text st = EmptyString
      \/ (has_alphanumeric (current_text st) /\ prev_end st <> None))
  /\ (word_start st = None -> word_timestamps st = [])
  /\ Forall (fun w => wt_start w <> None) (tl (word_timestamps st)).

(** A state of the merging loop whose first word, finished or pending,
    has no start time. *)
Definition headless_merge (st : Merge) : Prop :=
  (word_timestamps st = [] /\ current_text st <> EmptyString /\ word_start st = None)
  \/ (exists (w : WordTimestamp) (ws : list WordTimestamp),
        word_timestamps st = w :: ws /\ wt_start w = None).

(** A normalised token: not empty, and made of token characters. *)
Definition clean_token (t : string) : Prop :=
  t <> EmptyString
  /\ Forall (fun c => token_char c = true) (list_ascii_of_string t).

(** What holds of every entry of the text comparison: the similarity is
    a fraction; a word passes only at or above the threshold; and an
    entry without confidence is a failed word below the threshold. *)
Definition sound_text_result (r : TextResult) : Prop :=
  0 <= lcs_similarity r <= 1
  /\ (status r = pass -> LCS_THRESH <= lcs_similarity r)
  /\ (r_confidence r = None -> status r = fail /\ lcs_similarity r < LCS_THRESH).

(** The frames whose time lies in the closed window, in order. *)
Fixpoint frames_within (mfcc : matrix) (frame_times : list R) (start_ end_ : R)
    : matrix :=
  match mfcc, frame_times with
  | row :: mfcc', t :: frame_times' =>
      if Rleb start_ t && Rleb t end_
      then row :: frames_within mfcc' frame_times' start_ end_
      else frames_within mfcc' frame_times' start_ end_
  | _, _ => []
  end.

(** The time the script starts at: the start of its first segment, 0
    for an empty script. *)
Definition script_offset (cached_segments : list Segment) : R :=
  match cached_segments with
  | seg0 :: _ => start_time seg0
  | [] => 0
  end.

(** A recording heard [c] seconds later: every token's timestamps moved. *)
Definition delay_token (c : R) (token : Token) : Token :=
  {| text := text token; ts_from := ts_from token + c;
     ts_to := ts_to token + c; p := p token |}.

Definition delay (c : R) (whisper_json : WhisperJson) : WhisperJson :=
  map (map (delay_token c)) whisper_json.

(** A script whose words all start and end [c] seconds later. *)
Definition delay_segment (c : R) (seg : Segment) : Segment :=
  with_times seg (start_time seg + c) (end_time seg + c).

(** A number between 0 and 1. *)
Definition unit_interval (x : R) : Prop := 0 <= x <= 1.

(** A confidence, when recorded, is a probability. *)
Definition probability (o : option R) : Prop :=
  match o with
  | Some x => unit_interval x
  | None => True
  end.

(** What holds of every record of the time-overlap analysis: the ratio
    is a fraction, the user's times are both there or both missing, a
    word without them is not matched, and a word is matched exactly when
    it has them and the ratio reaches the threshold. *)
Definition sound_record (threshold : R) (r : TimeMatch) : Prop :=
  0 <= overlap_ratio r <= 1
  /\ (user_start r = None <-> user_end r = None)
  /\ (user_start r = None -> time_match r = false /\ overlap_ratio r = 0)
  /\ (time_match r = true <-> user_start r <> None /\ threshold <= overlap_ratio r).

(** An MFCC entry whose two values, where present, are fractions. *)
Definition sound_mfcc_result (m : MfccResult) : Prop :=
  probability (adjusted_score m) /\ probability (similarity m).

(** A word of the report whose scores are fractions. *)
Definition sound_word_analysis (a : WordAnalysis) : Prop :=
  unit_interval (word_score a) /\ unit_interval (mfcc_similarity a).

(** The state of the aggregation loop after [n] words. *)
Definition sound_tally (t : Tally) (n : nat) : Prop :=
  length (word_analysis t) = n
  /\ (text_pass_count t <= n)%nat
  /\ (time_pass_count t <= n)%nat
  /\ (length (stt_failures t) + length (time_failures t) <= n)%nat
  /\ (length (mfcc_low_quality t) <= n)%nat
  /\ Forall sound_word_analysis (word_analysis t).

(** A stand-in for the DTW distance in the worked examples: the sum of
    the absolute differences of the paired values. *)
Definition paired_distance (x y : list R) : outcome R :=
  Ok (sum (zip_with (fun a b => Rabs (a - b)) x y)).

(** Tokens of the recogniser for the worked examples: a word in two
    pieces, a comma and a second word; and the same without the leading
    space of the first piece. *)
Definition piece (t : string) (s e : R) : Token :=
  {| text := Some t; ts_from := s; ts_to := e; p := None |}.

Definition hello_world_tokens : list Token :=
  [piece " Hel" 0.0 0.2; piece "lo" 0.2 0.4; piece "," 0.4 0.4;
   piece " world" 0.5 0.9].

Definition headless_tokens : list Token :=
  [piece "Hel" 0.0 0.2; piece "lo" 0.2 0.4; piece " world" 0.5 0.9].

Definition hello_world_segments : list Segment :=
  [ {| word := "Hello"; start_time := 0.0; end_time := 0.4;
       confidence := None; mfcc := None |};
    {| word := "world"; start_time := 0.5; end_time := 0.9;
       confidence := None; mfcc := None |} ].

(** A parser of addresses for the worked examples: it knows no host. *)
Definition no_host (url : string) : string * string := (EmptyString, EmptyString).

End Notions.

(** * Properties *)

Import Py TextSimilarity MfccSimilarity Pronunciation TextgridComparator.
Import Scenario Spec.
Local Open Scope R_scope.

(** ** Deciding comparisons of reals *)

Lemma Rltb_true x y : x < y -> Rltb x y = true.
Proof. intros H. unfold Rltb. destruct (Rlt_dec x y); [reflexivity | contradiction]. Qed.

Lemma Rltb_false x y : y <= x -> Rltb x y = false.
Proof. intros H. unfold Rltb. destruct (Rlt_dec x y); [lra | reflexivity]. Qed.

Lemma Rleb_true x y : x <= y -> Rleb x y = true.
Proof. intros H. unfold Rleb. destruct (Rle_dec x y); [reflexivity | contradiction]. Qed.

Lemma Rleb_false x y : y < x -> Rleb x y = false.
Proof. intros H. unfold Rleb. destruct (Rle_dec x y); [lra | reflexivity]. Qed.

(** Case analysis on every comparison of the goal, the impossible
    branches closed by linear arithmetic. *)
Ltac dec_R :=
  repeat match goal with
  | |- context [Rlt_dec ?a ?b] => destruct (Rlt_dec a b); try lra
  | |- context [Rle_dec ?a ?b] => destruct (Rle_dec a b); try lra
  | |- context [Req_dec_T ?a ?b] => destruct (Req_dec_T a b); try lra
  | |- context [Rcase_abs ?a] => destruct (Rcase_abs a); try lra
  end.

(** ** The model at work on small inputs *)

Example tokenize_sentence :
  normalize_and_tokenize "Hello,  World's  fine!! " = ["hello"; "world's"; "fine"]%string.
Proof. reflexivity. Qed.

Example tokenize_punctuation : normalize_and_tokenize "..." = [].
Proof. reflexivity. Qed.

Example lcs_table_hello_hallo :
  lcs_last_row (list_ascii_of_string "hello") (list_ascii_of_string "hallo")
  = [0; 1; 1; 2; 3; 4]%nat.
Proof. reflexivity. Qed.

Example lcs_ratio_hello_hallo : compute_char_lcs_ratio "hello" "hallo" = 0.8.
Proof.
  unfold compute_char_lcs_ratio.
  change (list_ascii_of_string "hello") with ["h"; "e"; "l"; "l"; "o"]%char.
  change (list_ascii_of_string "hallo") with ["h"; "a"; "l"; "l"; "o"]%char.
  change (lcs_last_row ["h"; "e"; "l"; "l"; "o"]%char ["h"; "a"; "l"; "l"; "o"]%char)
    with [0; 1; 1; 2; 3; 4]%nat.
  cbn. lra.
Qed.

Example lcs_ratio_empty : compute_char_lcs_ratio "" "" = 0.
Proof. reflexivity. Qed.

Example bisect_left_example : searchsorted_left [0; 0.25; 0.5; 0.75; 1] 0.5 = 2%nat.
Proof.
  unfold searchsorted_left. cbn [length bisect Nat.ltb Nat.leb Nat.sub Nat.add Nat.div
    Nat.divmod fst nth].
  rewrite (Rleb_true 0.5 0.5) by lra. cbn [bisect Nat.ltb Nat.leb Nat.sub Nat.add Nat.div
    Nat.divmod fst nth].
  rewrite (Rleb_false 0.5 0.25) by lra. cbn [bisect Nat.ltb Nat.leb Nat.sub Nat.add Nat.div
    Nat.divmod fst nth].
  reflexivity.
Qed.

(** ** text_similarity.py *)

Section NormalizeToZero.

Lemma normalize_segments_to_zero_cons (seg0 : Segment) (rest : list Segment) :
  normalize_segments_to_zero (seg0 :: rest) =
  with_times seg0 (start_time seg0 - start_time seg0) (end_time seg0 - start_time seg0)
  :: map (fun seg => with_times seg (start_time seg - start_time seg0)
                                    (end_time seg - start_time seg0)) rest.
Proof. reflexivity. Qed.

Lemma normalize_segments_to_zero_length (segments : list Segment) :
  length (normalize_segments_to_zero segments) = length segments.
Proof.
  destruct segments as [|seg0 rest]; [reflexivity|].
  unfold normalize_segments_to_zero. now rewrite length_map.
Qed.

Lemma with_times_shift_zero (seg : Segment) (a b o : R) :
  o = 0 ->
  with_times (with_times seg a b)
             (start_time (with_times seg a b) - o)
             (end_time (with_times seg a b) - o)
  = with_times seg a b.
Proof.
  intros ->. unfold with_times. cbn. f_equal; lra.
Qed.

(** C9.  On a non-empty sequence [seg0 :: rest],
    [normalize_segments_to_zero] keeps the length and the order, and
    replaces the start and end time of every span by the same time
    minus the original start time of [seg0], the other keys unchanged;
    the first span of the result starts at 0; and normalising the
    result once more gives back the result itself. *)
Theorem normalize_segments_to_zero_shifts_and_is_idempotent
    (seg0 : Segment) (rest : list Segment) :
  let segments := seg0 :: rest in
  let normalized := normalize_segments_to_zero segments in
  length normalized = length segments
  /\ (forall (i : nat) (seg : Segment),
        segments !! i = Some seg ->
        exists seg' : Segment,
          normalized !! i = Some seg'
          /\ start_time seg' = start_time seg - start_time seg0
          /\ end_time seg' = end_time seg - start_time seg0
          /\ word seg' = word seg
          /\ confidence seg' = confidence seg
          /\ mfcc seg' = mfcc seg)
  /\ (exists (first_span : Segment) (others : list Segment),
        normalized = first_span :: others /\ start_time first_span = 0)
  /\ normalize_segments_to_zero normalized = normalized.
Proof.
  intros segments normalized. repeat split.
  - apply normalize_segments_to_zero_length.
  - intros i seg Hi. subst normalized segments.
    unfold normalize_segments_to_zero.
    rewrite list_lookup_fmap, Hi. cbn.
    eexists. split; [reflexivity|]. cbn. repeat split; reflexivity.
  - subst normalized segments. rewrite normalize_segments_to_zero_cons.
    do 2 eexists. split; [reflexivity|]. cbn. lra.
  - subst normalized segments. rewrite normalize_segments_to_zero_cons.
    rewrite normalize_segments_to_zero_cons.
    cbn [start_time with_times].
    f_equal.
    + apply with_times_shift_zero. lra.
    + rewrite map_map. apply map_ext. intros seg.
      apply with_times_shift_zero. lra.
Qed.

End NormalizeToZero.

Section TextAlignment.

Lemma score_word_no_candidate (user_normalized : list Segment) (ref : Segment) :
  List.filter (in_window (start_time ref - tol) (end_time ref + tol)) user_normalized = [] ->
  score_word user_normalized ref =
  {| r_word := word ref; status := fail; lcs_similarity := 0; r_confidence := Some 0 |}.
Proof.
  intros H. unfold score_word. now rewrite H.
Qed.

(** A single candidate whose normalised text is that of the reference
    word: the verdict rests on the two timing checks. *)
Lemma score_word_single_match (user ref : Segment) :
  in_window (start_time ref - tol) (end_time ref + tol) user = true ->
  word_match_with_normalization (word ref) (word user) = true ->
  end_time ref - start_time ref <> 0 ->
  score_word [user] ref =
  {| r_word := word ref;
     status :=
       if Rleb (Rabs (start_time user - start_time ref)) start_tol
          && Rleb 0.70 (window_overlap (start_time ref - tol) (end_time ref + tol) user
                        / (end_time ref - start_time ref))
       then pass else fail;
     lcs_similarity := 1;
     r_confidence := Some (match confidence user with Some c => c | None => 0 end) |}.
Proof.
  intros Hwin Hword Hdur. unfold score_word.
  cbn [List.filter]. rewrite Hwin. cbn [max_by]. rewrite Hword.
  unfold LCS_THRESH. destruct (Rlt_dec 1 0.6) as [Hlt|_]; [lra|].
  destruct (Req_dec_T (end_time ref - start_time ref) 0) as [He|_]; [contradiction|].
  reflexivity.
Qed.

Lemma parse_cat_token (s e : R) (conf : option R) :
  parse_whisper_cpp_result [[cat_token s e conf]] =
  [ {| word := "cat"; start_time := s; end_time := e;
       confidence := Some (match conf with Some c => c | None => 0 end);
       mfcc := None |} ].
Proof. reflexivity. Qed.

Lemma cat_matches_cat : word_match_with_normalization "cat" "cat" = true.
Proof. reflexivity. Qed.

(** A lone ["cat"] token lasting [d] seconds, wherever it starts, is
    compared as the span [0, d]. *)
Lemma score_lone_cat (s e : R) (conf : option R) :
  score_text_alignment [ref_cat] [[cat_token s e conf]] =
  [ score_word
      [ {| word := "cat"; start_time := s - s; end_time := e - s;
           confidence := Some (match conf with Some c => c | None => 0 end);
           mfcc := None |} ]
      {| word := "cat"; start_time := 0.0 - 0.0; end_time := 0.5 - 0.0;
         confidence := None; mfcc := None |} ].
Proof.
  unfold score_text_alignment. rewrite parse_cat_token. reflexivity.
Qed.

Lemma lone_cat_passes (s e : R) (conf : option R) :
  0.35 <= e - s <= 1 ->
  score_text_alignment [ref_cat] [[cat_token s e conf]] =
  [ {| r_word := "cat"; status := pass; lcs_similarity := 1;
       r_confidence := Some (match conf with Some c => c | None => 0 end) |} ].
Proof.
  intros Hd. rewrite score_lone_cat.
  rewrite score_word_single_match; cbn [word start_time end_time confidence].
  - rewrite Rleb_true.
    2:{ unfold start_tol, Rabs. dec_R. }
    rewrite Rleb_true; [reflexivity|].
    unfold window_overlap, tol, Rmin, Rmax. cbn [start_time end_time]. dec_R.
  - unfold in_window, tol. cbn [start_time end_time].
    rewrite !Rltb_false; [reflexivity | lra | lra].
  - exact cat_matches_cat.
  - lra.
Qed.

(** C3, as the code has it.  With the reference word [{"cat", 0.0, 0.5}]:
    the single candidate [{"cat", 0.1, 0.45}] gives status [pass];
    the single candidate [{"cat", 2.0, 2.5}] is itself shifted to start
    at 0 (the user's segments are normalised like the reference's), is
    compared as [{"cat", 0.0, 0.5}] and gives status [pass] with
    [lcs_similarity] 1; status [fail] with [lcs_similarity] 0 and
    confidence 0 is the result when the recogniser returned no word. *)
Theorem score_text_alignment_cat (conf : option R) :
  map status (score_text_alignment [ref_cat] [[cat_token 0.1 0.45 conf]]) = [pass]
  /\ score_text_alignment [ref_cat] [[cat_token 2.0 2.5 conf]] =
     [ {| r_word := "cat"; status := pass; lcs_similarity := 1;
          r_confidence := Some (match conf with Some c => c | None => 0 end) |} ]
  /\ score_text_alignment [ref_cat] [] =
     [ {| r_word := "cat"; status := fail; lcs_similarity := 0;
          r_confidence := Some 0 |} ].
Proof.
  split; [|split].
  - rewrite lone_cat_passes by lra. reflexivity.
  - apply lone_cat_passes. lra.
  - unfold score_text_alignment. cbn [parse_whisper_cpp_result flat_map
      normalize_segments_to_zero map ref_cat].
    rewrite score_word_no_candidate; reflexivity.
Qed.

(** C3 as stated fails: for the single candidate [{"cat", 2.0, 2.5}]
    the result is not a [fail] of similarity 0. *)
Lemma score_text_alignment_cat_late_not_fail :
  ~ (exists r : TextResult,
       score_text_alignment [ref_cat] [[cat_token 2.0 2.5 (Some 0.9)]] = [r]
       /\ status r = fail /\ lcs_similarity r = 0).
Proof.
  intros [r [Hr [Hs _]]].
  rewrite lone_cat_passes in Hr by lra.
  injection Hr as <-. discriminate Hs.
Qed.

End TextAlignment.

(** ** pronunciation.py: time-overlap analysis *)

Section TimeOverlap.

Lemma first_token_ok (seg : Segment) :
  tokenizes seg -> exists k, first_token (word seg) = Ok k /\ has_key k seg = true.
Proof.
  unfold tokenizes, first_token, has_key.
  destruct (normalize_and_tokenize (word seg)) as [|t ts]; [congruence|].
  intros _. exists t. split; [reflexivity|]. apply String.eqb_refl.
Qed.

Lemma first_token_has_key (seg : Segment) (k k' : string) :
  first_token (word seg) = Ok k -> has_key k' seg = true <-> k = k'.
Proof.
  unfold first_token, has_key.
  destruct (normalize_and_tokenize (word seg)) as [|t ts]; [discriminate|].
  cbn. intros [= ->]. apply String.eqb_eq.
Qed.

(** The dictionary holds, under each key, the last item entered there. *)
Lemma build_user_words_dict_lookup (items : list Segment) :
  forall (d d' : gmap string Segment) (k : string),
    build_user_words_dict items d = Ok d' ->
    d' !! k = match last_with_key k items with
              | Some u => Some u
              | None => d !! k
              end.
Proof.
  induction items as [|item rest IH]; intros d d' k Hb; cbn in Hb.
  - injection Hb as <-. reflexivity.
  - destruct (first_token (word item)) as [key|e] eqn:Hkey; cbn in Hb; [|discriminate].
    rewrite (IH _ _ k Hb). cbn [last_with_key].
    destruct (last_with_key k rest) as [u|]; [reflexivity|].
    destruct (has_key k item) eqn:Hk.
    + apply (first_token_has_key _ _ _ Hkey) in Hk. subst key.
      apply lookup_insert_eq.
    + rewrite lookup_insert_ne; [reflexivity|].
      intros ->. rewrite (proj2 (first_token_has_key _ _ _ Hkey)) in Hk by reflexivity.
      discriminate.
Qed.

Lemma build_user_words_dict_total (items : list Segment) :
  Forall tokenizes items ->
  forall d, exists d', build_user_words_dict items d = Ok d'.
Proof.
  induction 1 as [|item rest Hitem _ IH]; intros d; cbn.
  - now exists d.
  - destruct (first_token_ok _ Hitem) as [key [-> _]]. cbn. apply IH.
Qed.

Lemma match_word_recorded (d : gmap string Segment) (threshold : R) (ref : Segment) :
  tokenizes ref ->
  exists (r : TimeMatch) (k : string),
    match_word d threshold ref = Ok r
    /\ first_token (word ref) = Ok k
    /\ recorded threshold ref (d !! k) r.
Proof.
  intros Href. destruct (first_token_ok _ Href) as [k [Hk _]].
  unfold match_word. rewrite Hk. cbn.
  destruct (d !! k) as [u|] eqn:Hd.
  - destruct (calculate_time_overlap _ _ _ _) as [dur ratio] eqn:Hc.
    eexists. exists k. split; [reflexivity|]. split; [reflexivity|].
    unfold recorded, log_time_overlap_analysis.
    cbn [t_word ref_start ref_end user_start user_end overlap_ratio time_match].
    rewrite Hd, Hc. repeat split; reflexivity.
  - eexists. exists k. split; [reflexivity|]. split; [reflexivity|].
    unfold recorded. rewrite Hd. cbn. repeat split; reflexivity.
Qed.

Lemma match_words_recorded (d : gmap string Segment) (threshold : R)
    (refs : list Segment) :
  Forall tokenizes refs ->
  exists results : list TimeMatch,
    match_words d threshold refs = Ok results
    /\ length results = length refs
    /\ forall (i : nat) (ref : Segment),
         refs !! i = Some ref ->
         exists (r : TimeMatch) (k : string),
           results !! i = Some r
           /\ first_token (word ref) = Ok k
           /\ recorded threshold ref (d !! k) r.
Proof.
  induction 1 as [|ref rest Href _ IH]; cbn.
  - exists []. split; [reflexivity|]. split; [reflexivity|].
    intros i ref Hi. discriminate.
  - destruct (match_word_recorded d threshold ref Href) as [r [k [Hr [Hk Hrec]]]].
    destruct IH as [results [Hres [Hlen Hall]]].
    rewrite Hr. cbn. rewrite Hres. cbn.
    exists (r :: results). split; [reflexivity|]. split; [cbn; lia|].
    intros [|i] ref' Hi; cbn in Hi.
    + injection Hi as <-. exists r, k.
      split; [reflexivity|]. split; assumption.
    + apply Hall, Hi.
Qed.

(** C10.  [analyze_time_overlap] keys the user's words by their first
    normalised token.  When every word has such a token, the analysis
    returns one record per reference word, in order, and the record of
    a reference word with key [k] is made from the LAST user word with
    key [k] (an earlier user word with the same key is overwritten,
    wherever it lies in time), or reports no candidate when no user
    word has key [k]. *)
Theorem analyze_time_overlap_last_occurrence_wins
    (reference_words user_word_timestamps : list Segment) (threshold : R) :
  Forall tokenizes user_word_timestamps ->
  Forall tokenizes reference_words ->
  exists results : list TimeMatch,
    analyze_time_overlap reference_words user_word_timestamps threshold = Ok results
    /\ length results = length reference_words
    /\ forall (i : nat) (ref : Segment),
         reference_words !! i = Some ref ->
         exists (r : TimeMatch) (k : string),
           results !! i = Some r
           /\ first_token (word ref) = Ok k
           /\ recorded threshold ref (last_with_key k user_word_timestamps) r.
Proof.
  intros Husers Hrefs. unfold analyze_time_overlap.
  destruct (build_user_words_dict_total _ Husers ∅) as [d Hd].
  rewrite Hd. cbn.
  destruct (match_words_recorded d threshold _ Hrefs) as [results [Hres [Hlen Hall]]].
  exists results. split; [exact Hres|]. split; [exact Hlen|].
  intros i ref Hi. destruct (Hall i ref Hi) as [r [k [Hr [Hk Hrec]]]].
  exists r, k. split; [exact Hr|]. split; [exact Hk|].
  rewrite (build_user_words_dict_lookup _ _ _ k Hd), lookup_empty in Hrec.
  destruct (last_with_key k user_word_timestamps); exact Hrec.
Qed.

Lemma the_user_tokenizes : Forall tokenizes the_user.
Proof. repeat constructor; intros H; vm_compute in H; discriminate H. Defined.

Lemma the_reference_tokenizes : Forall tokenizes the_reference.
Proof. repeat constructor; intros H; vm_compute in H; discriminate H. Defined.

(** The reference has ["The"] at 0.0-0.3 and the user says ["the"] at
    0.0-0.3 and again at 5.0-5.3: the record of the reference word is
    made from the occurrence at 5.0. *)
Lemma analyze_time_overlap_last_occurrence_wins_witness :
  exists results : list TimeMatch,
    analyze_time_overlap the_reference the_user default_threshold = Ok results
    /\ exists r : TimeMatch,
         results !! 0%nat = Some r
         /\ user_start r = Some 5.0 /\ user_end r = Some 5.3.
Proof.
  destruct (analyze_time_overlap_last_occurrence_wins
              the_reference the_user default_threshold
              the_user_tokenizes the_reference_tokenizes)
    as [results [Hres [_ Hall]]].
  exists results. split; [exact Hres|].
  destruct (Hall 0%nat (spoken "The" 0.0 0.3) eq_refl) as [r [k [Hr [Hk Hrec]]]].
  exists r. split; [exact Hr|].
  assert (Hkey : k = "the"%string).
  { vm_compute in Hk. injection Hk as <-. reflexivity. }
  subst k.
  replace (last_with_key "the" the_user) with (Some (spoken "the" 5.0 5.3)) in Hrec
    by reflexivity.
  destruct Hrec as [_ [_ [_ [Hs [He _]]]]].
  split; assumption.
Defined.

End TimeOverlap.

(** ** mfcc_similarity.py: calibration *)

Section Calibration.

Lemma slope_nonneg (x0 f0 x1 f1 : R) :
  x0 < x1 -> f0 <= f1 -> 0 <= (f1 - f0) / (x1 - x0).
Proof.
  intros Hx Hf. apply Rmult_le_pos; [lra|].
  apply Rlt_le, Rinv_0_lt_compat. lra.
Qed.

(** Between two anchors the interpolated score lies between their scores. *)
Lemma segment_bounds (x0 f0 x1 f1 x : R) :
  x0 < x1 -> f0 <= f1 -> x0 <= x <= x1 ->
  f0 <= (f1 - f0) / (x1 - x0) * (x - x0) + f0 <= f1.
Proof.
  intros Hx Hf Hin. pose proof (slope_nonneg x0 f0 x1 f1 Hx Hf) as Hs.
  assert (Hfull : (f1 - f0) / (x1 - x0) * (x1 - x0) = f1 - f0) by (field; lra).
  split; nra.
Qed.

Lemma interp_from_lower (x0 f0 : R) (xp fp : list R) :
  rising x0 f0 xp fp ->
  forall x : R, x0 <= x -> f0 <= interp_from x x0 f0 xp fp.
Proof.
  induction 1 as [x0 f0 | x0 f0 x1 f1 xp fp Hx Hf _ IH]; intros x Hle; cbn; [lra|].
  destruct (Rlt_dec x x1) as [Hlt|Hge].
  - apply (segment_bounds x0 f0 x1 f1 x); lra.
  - specialize (IH x). lra.
Qed.

(** Interpolation over a rising table is non-decreasing. *)
Lemma interp_from_monotone (x0 f0 : R) (xp fp : list R) :
  rising x0 f0 xp fp ->
  forall x y : R, x0 <= x -> x <= y ->
    interp_from x x0 f0 xp fp <= interp_from y x0 f0 xp fp.
Proof.
  induction 1 as [x0 f0 | x0 f0 x1 f1 xp fp Hx Hf Hrest IH]; intros x y Hle Hxy; cbn; [lra|].
  destruct (Rlt_dec x x1) as [Hlt|Hge], (Rlt_dec y x1) as [Hlt'|Hge'].
  - pose proof (slope_nonneg x0 f0 x1 f1 Hx Hf) as Hs. nra.
  - pose proof (segment_bounds x0 f0 x1 f1 x Hx Hf) as Hb.
    pose proof (interp_from_lower x1 f1 xp fp Hrest y). lra.
  - lra.
  - apply IH; lra.
Qed.

Lemma np_interp_monotone (x0 f0 : R) (xp fp : list R) :
  rising x0 f0 xp fp ->
  forall x y : R, x <= y ->
    np_interp x (x0 :: xp) (f0 :: fp) <= np_interp y (x0 :: xp) (f0 :: fp).
Proof.
  intros Hrising x y Hxy. cbn.
  destruct (Rlt_dec x x0) as [Hlt|Hge], (Rlt_dec y x0) as [Hlt'|Hge'].
  - lra.
  - apply interp_from_lower; [exact Hrising | lra].
  - lra.
  - apply interp_from_monotone; [exact Hrising | lra | exact Hxy].
Qed.

Lemma anchors_rising : rising 0.00 0.0 (tl sim_points) (tl score_points).
Proof.
  unfold sim_points, score_points. cbn [tl].
  repeat (apply rising_cons; [lra | lra |]). apply rising_nil.
Qed.

Ltac unfold_score :=
  unfold continuous_score, np_interp, sim_points, score_points, interp_from.

Lemma continuous_score_range (x : R) : 0 <= continuous_score x <= 100.
Proof. unfold_score. dec_R. Qed.

(** C4.  [continuous_score] is non-decreasing on all of its domain; it
    maps 0.0 to 0 and 1.0 to 100, and 0.45 into [90, 100]; below the
    first anchor it is the first score, above the last anchor the last
    score. *)
Theorem continuous_score_monotone_and_clamped :
  (forall x y : R, x <= y -> continuous_score x <= continuous_score y)
  /\ continuous_score 0.0 = 0
  /\ continuous_score 1.0 = 100
  /\ 90 <= continuous_score 0.45 <= 100
  /\ (forall x : R, x <= 0.0 -> continuous_score x = 0)
  /\ (forall x : R, 1.0 <= x -> continuous_score x = 100).
Proof.
  split; [|repeat split].
  - intros x y Hxy. unfold continuous_score.
    exact (np_interp_monotone _ _ _ _ anchors_rising x y Hxy).
  - unfold_score. dec_R.
  - unfold_score. dec_R.
  - unfold_score. dec_R.
  - unfold_score. dec_R.
  - intros x Hx. unfold_score. dec_R.
  - intros x Hx. unfold_score. dec_R.
Qed.

Lemma compare_mfcc_segments_entry (delta : nat -> nat -> matrix -> matrix)
    (cached_segments : list Segment) (user_mfcc : matrix) (user_frame_times : list R)
    (entry : MfccResult) :
  In entry (compare_mfcc_segments delta cached_segments user_mfcc user_frame_times) ->
  exists s : R,
    similarity entry = Some s
    /\ adjusted_score entry = Some (continuous_score s / 100.0).
Proof.
  unfold compare_mfcc_segments. rewrite in_map_iff.
  intros [segment [<- _]]. eexists. split; reflexivity.
Qed.

End Calibration.

(** ** pronunciation.py: the aggregated report *)

Section Aggregation.

Variables (text_comparison_result : list TextResult)
          (mfcc_comparison_result : list MfccResult)
          (time_matching_results : list TimeMatch).

Lemma tally_word_spec (t : Tally) (i : nat) (w : string) (entry : TextResult) :
  text_comparison_result !! i = Some entry ->
  exists a : WordAnalysis,
    a_word a = w
    /\ text_status a = status entry
    /\ word_score a = round (0.7 * text_part entry + 0.3 * mfcc_part mfcc_comparison_result i) 3
    /\ exists t' : Tally,
         tally_word text_comparison_result mfcc_comparison_result
                    time_matching_results t i w = Ok t'
         /\ word_analysis t' = word_analysis t ++ [a].
Proof.
  intros Hentry. unfold tally_word, index. rewrite Hentry. cbn.
  eexists. split; [|split; [|split]]; cycle 3.
  - eexists. split; reflexivity.
  - reflexivity.
  - reflexivity.
  - cbn. f_equal. unfold text_part, mfcc_part, mfcc_value, or_default, is_pass.
    destruct (status entry); lra.
Qed.

Lemma tally_words_spec (reference_words : list string) :
  forall (t : Tally) (i : nat),
    (i + length reference_words <= length text_comparison_result)%nat ->
    exists t' : Tally,
      tally_words text_comparison_result mfcc_comparison_result
                  time_matching_results t i reference_words = Ok t'
      /\ exists added : list WordAnalysis,
           word_analysis t' = word_analysis t ++ added
           /\ length added = length reference_words
           /\ forall (j : nat) (w : string),
                reference_words !! j = Some w ->
                exists (a : WordAnalysis) (entry : TextResult),
                  added !! j = Some a
                  /\ text_comparison_result !! (i + j)%nat = Some entry
                  /\ a_word a = w
                  /\ text_status a = status entry
                  /\ word_score a =
                     round (0.7 * text_part entry + 0.3 * mfcc_part mfcc_comparison_result (i + j)) 3.
Proof.
  induction reference_words as [|w rest IH]; intros t i Hlen; cbn [tally_words].
  - exists t. split; [reflexivity|]. exists []. rewrite app_nil_r.
    split; [reflexivity|]. split; [reflexivity|]. intros j w Hj. discriminate.
  - cbn in Hlen.
    destruct (lookup_lt_is_Some_2 text_comparison_result i) as [entry Hentry]; [lia|].
    destruct (tally_word_spec t i w entry Hentry)
      as [a [Hw [Hst [Hscore [t1 [Ht1 Hwa]]]]]].
    rewrite Ht1. cbn.
    destruct (IH t1 (S i)) as [t' [Ht' [added [Happ [Hladd Hall]]]]]; [lia|].
    exists t'. split; [exact Ht'|]. exists (a :: added).
    split; [rewrite Happ, Hwa, <- app_assoc; reflexivity|].
    split; [cbn; lia|].
    intros [|j] w' Hj; cbn in Hj.
    + injection Hj as <-. exists a, entry. rewrite Nat.add_0_r.
      repeat split; assumption.
    + destruct (Hall j w' Hj) as [a' [entry' H']].
      exists a', entry'. replace (i + S j)%nat with (S i + j)%nat by lia. exact H'.
Qed.

(** C7, as the code has it.  When the text comparison has an entry for
    every reference word, the report is produced and lists the words in
    order; the score of word [i] is, ROUNDED TO THREE DECIMALS,
    0.7 * (the confidence of the matched candidate if the text status is
    [pass], else 0) + 0.3 * (the calibrated score of the word's MFCC
    entry when it has one, its raw similarity otherwise).  Every entry
    that [compare_mfcc_segments] produces has a calibrated score, in
    [0, 1]. *)
Theorem word_score_is_rounded_weighted_sum (reference_words : list string) :
  (length reference_words <= length text_comparison_result)%nat ->
  (exists report : Report,
     generate_comprehensive_results reference_words text_comparison_result
       mfcc_comparison_result time_matching_results = Ok report
     /\ length (report_words report) = length reference_words
     /\ forall (i : nat) (w : string),
          reference_words !! i = Some w ->
          exists (a : WordAnalysis) (entry : TextResult),
            report_words report !! i = Some a
            /\ text_comparison_result !! i = Some entry
            /\ a_word a = w
            /\ text_status a = status entry
            /\ word_score a =
               round (0.7 * text_part entry
                      + 0.3 * mfcc_part mfcc_comparison_result i) 3)
  /\ (forall (delta : nat -> nat -> matrix -> matrix)
             (cached_segments : list Segment)
             (user_mfcc : matrix) (user_frame_times : list R) (m : MfccResult),
        In m (compare_mfcc_segments delta cached_segments user_mfcc user_frame_times) ->
        exists calibrated : R,
          adjusted_score m = Some calibrated /\ 0 <= calibrated <= 1).
Proof.
  intros Hlen. split.
  - destruct (tally_words_spec reference_words empty_tally 0%nat Hlen)
      as [t [Ht [added [Happ [Hladd Hall]]]]].
    unfold generate_comprehensive_results. rewrite Ht. cbn.
    eexists. split; [reflexivity|]. cbn [report_words].
    cbn in Happ. rewrite Happ. split; [exact Hladd|]. exact Hall.
  - intros delta cached_segments user_mfcc user_frame_times m Hm.
    destruct (compare_mfcc_segments_entry _ _ _ _ _ Hm) as [s [_ Hadj]].
    eexists. split; [exact Hadj|].
    pose proof (continuous_score_range s). lra.
Qed.

End Aggregation.

Lemma word_score_is_rounded_weighted_sum_witness :
  exists report : Report,
    generate_comprehensive_results ["cat"%string] [cat_passed] [] [] = Ok report
    /\ length (report_words report) = 1%nat.
Proof.
  destruct (word_score_is_rounded_weighted_sum [cat_passed] [] [] ["cat"%string])
    as [[report [Hrep [Hlen _]]] _].
  - cbn. lia.
  - exists report. split; [exact Hrep | exact Hlen].
Defined.

Lemma round_is_a_multiple (x : R) (n : nat) (y : R) :
  (forall k : Z, IZR k <> y * 10 ^ n) -> round x n <> y.
Proof.
  intros Hy Heq. unfold round in Heq.
  apply (Hy (round_half_even (x * 10 ^ n))).
  rewrite <- Heq. field. apply pow_nonzero. lra.
Qed.

(** C7 as stated fails: a word that passed with confidence 0.9991 and has
    no MFCC entry is reported with a score that is not 0.7 * 0.9991. *)
Lemma word_score_differs_from_weighted_sum :
  exists (report : Report) (a : WordAnalysis),
    generate_comprehensive_results ["cat"%string] [cat_passed] [] [] = Ok report
    /\ report_words report = [a]
    /\ word_score a <> 0.7 * 0.9991 + 0.3 * 0.
Proof.
  do 2 eexists. split; [reflexivity|]. split; [reflexivity|].
  cbn [word_score]. apply round_is_a_multiple.
  intros k Hk.
  assert (H1 : IZR 699 < IZR k) by (rewrite Hk; lra).
  assert (H2 : IZR k < IZR 700) by (rewrite Hk; lra).
  apply lt_IZR in H1, H2. lia.
Qed.

(** ** mfcc_similarity.py: segment extraction *)

Section Extraction.

(** When every probe sends the search left, it ends at [lo]; when every
    probe sends it right, at [hi]. *)
Lemma bisect_all_right (right : R -> bool) (a : list R) (fuel : nat) :
  forall lo hi : nat,
    (hi - lo <= fuel)%nat ->
    (forall i : nat, (lo <= i < hi)%nat -> right (nth i a 0) = true) ->
    bisect fuel right a lo hi = lo.
Proof.
  induction fuel as [|fuel IH]; intros lo hi Hfuel Hall; cbn [bisect]; [reflexivity|].
  destruct (Nat.ltb_spec lo hi) as [Hlt|_]; [|reflexivity].
  assert (Hmid : (lo <= lo + (hi - lo) / 2 < hi)%nat).
  { split; [lia|]. pose proof (Nat.div_lt (hi - lo) 2). lia. }
  rewrite (Hall _ Hmid). apply IH; [lia|]. intros i Hi. apply Hall. lia.
Qed.

Lemma bisect_none_right (right : R -> bool) (a : list R) (fuel : nat) :
  forall lo hi : nat,
    (lo <= hi)%nat -> (hi - lo <= fuel)%nat ->
    (forall i : nat, (lo <= i < hi)%nat -> right (nth i a 0) = false) ->
    bisect fuel right a lo hi = hi.
Proof.
  induction fuel as [|fuel IH]; intros lo hi Hle Hfuel Hall; cbn [bisect]; [lia|].
  destruct (Nat.ltb_spec lo hi) as [Hlt|Hge]; [|lia].
  assert (Hmid : (lo <= lo + (hi - lo) / 2 < hi)%nat).
  { split; [lia|]. pose proof (Nat.div_lt (hi - lo) 2). lia. }
  rewrite (Hall _ Hmid). apply IH; [lia | lia |]. intros i Hi. apply Hall. lia.
Qed.

Lemma nth_Forall (P : R -> Prop) (a : list R) (i : nat) :
  Forall P a -> (i < length a)%nat -> P (nth i a 0).
Proof.
  intros Ha Hi. apply (proj1 (Forall_forall _ _) Ha), list_elem_of_In, nth_In, Hi.
Qed.

Lemma slice_all {A} (l : list A) : slice l 0 (length l) = l.
Proof. unfold slice. cbn. rewrite Nat.sub_0_r. apply firstn_all. Qed.

(** C6, as the code has it.  Let [frame_times] hold one time per frame
    of [mfcc], all within [0, duration].  Extracting the span from 0 to
    [duration] returns every frame of [mfcc] when there are at least 5
    frames, and the empty matrix when there are fewer. *)
Theorem extract_mfcc_segment_full_span
    (mfcc : matrix) (frame_times : list R) (duration : R) :
  length frame_times = length mfcc ->
  Forall (fun t => 0 <= t <= duration) frame_times ->
  ((5 <= length mfcc)%nat ->
   extract_mfcc_segment mfcc frame_times 0 duration = mfcc)
  /\ ((length mfcc < 5)%nat ->
      extract_mfcc_segment mfcc frame_times 0 duration = []).
Proof.
  intros Hlen Hspan.
  assert (Hstart : searchsorted_left frame_times 0 = 0%nat).
  { apply bisect_all_right; [lia|]. intros i Hi.
    apply Rleb_true. apply (nth_Forall _ _ i Hspan). lia. }
  assert (Hend : searchsorted_right frame_times duration = length mfcc).
  { rewrite <- Hlen. apply bisect_none_right; [lia | lia |]. intros i Hi.
    apply Rltb_false. apply (nth_Forall _ _ i Hspan). lia. }
  unfold extract_mfcc_segment, MIN_FRAMES. rewrite Hstart, Hend.
  rewrite Nat.min_id, Nat.max_0_l.
  split; intros H.
  - destruct (Z.ltb_spec (Z.of_nat (length mfcc) - Z.of_nat 0) (Z.of_nat 5)); [lia|].
    apply slice_all.
  - destruct (Z.ltb_spec (Z.of_nat (length mfcc) - Z.of_nat 0) (Z.of_nat 5)); [|lia].
    reflexivity.
Qed.

Lemma five_times_span : Forall (fun t => 0 <= t <= 1) five_times.
Proof. unfold five_times. repeat (constructor; [lra|]). constructor. Defined.

Lemma three_times_span : Forall (fun t => 0 <= t <= 1) three_times.
Proof. unfold three_times. repeat (constructor; [lra|]). constructor. Qed.

Lemma extract_mfcc_segment_full_span_witness :
  extract_mfcc_segment five_frames five_times 0 1 = five_frames.
Proof.
  apply (extract_mfcc_segment_full_span five_frames five_times 1).
  - reflexivity.
  - exact five_times_span.
  - cbn. lia.
Defined.

(** C6 as stated fails: three frames spanning [0, 1] are not returned. *)
Lemma extract_mfcc_segment_drops_short_matrix :
  length three_times = length three_frames
  /\ Forall (fun t => 0 <= t <= 1) three_times
  /\ extract_mfcc_segment three_frames three_times 0 1 <> three_frames.
Proof.
  split; [reflexivity|]. split; [exact three_times_span|].
  assert (Hstart : searchsorted_left three_times 0 = 0%nat).
  { apply bisect_all_right; [lia|]. intros i Hi.
    apply Rleb_true. apply (nth_Forall _ _ i three_times_span). lia. }
  assert (Hend : searchsorted_right three_times 1 = 3%nat).
  { apply (bisect_none_right _ three_times 3 0 3); [lia | lia |]. intros i Hi.
    apply Rltb_false. apply (nth_Forall _ _ i three_times_span). cbn. lia. }
  unfold extract_mfcc_segment. rewrite Hstart, Hend. cbn. discriminate.
Qed.

(** On a sorted array the binary search finds the first index whose
    element passes the test, as the documentation of [np.searchsorted]
    has it. *)
Lemma bisect_boundary (right : R -> bool) (a : list R) (fuel : nat) :
  (forall i j : nat, (i <= j < length a)%nat ->
     right (nth i a 0) = true -> right (nth j a 0) = true) ->
  forall lo hi : nat,
    (lo <= hi <= length a)%nat -> (hi - lo <= fuel)%nat ->
    (forall i : nat, (i < lo)%nat -> right (nth i a 0) = false) ->
    (forall i : nat, (hi <= i < length a)%nat -> right (nth i a 0) = true) ->
    let r := bisect fuel right a lo hi in
    (r <= length a)%nat
    /\ (forall i : nat, (i < r)%nat -> right (nth i a 0) = false)
    /\ (forall i : nat, (r <= i < length a)%nat -> right (nth i a 0) = true).
Proof.
  intros Hmono. induction fuel as [|fuel IH]; intros lo hi Hle Hfuel Hlo Hhi; cbn [bisect].
  - assert (lo = hi) by lia. subst hi. cbn. repeat split; [lia | exact Hlo | exact Hhi].
  - destruct (Nat.ltb_spec lo hi) as [Hlt|Hge].
    + assert (Hmid : (lo <= lo + (hi - lo) / 2 < hi)%nat).
      { split; [lia|]. pose proof (Nat.div_lt (hi - lo) 2). lia. }
      destruct (right (nth (lo + (hi - lo) / 2) a 0)) eqn:Hprobe.
      * apply IH; [lia | lia | exact Hlo |].
        intros i Hi. apply (Hmono (lo + (hi - lo) / 2)%nat i); [lia | exact Hprobe].
      * apply IH; [lia | lia | | exact Hhi].
        intros i Hi. destruct (right (nth i a 0)) eqn:Hi'; [|reflexivity].
        rewrite (Hmono i (lo + (hi - lo) / 2)%nat) in Hprobe; [discriminate | lia | exact Hi'].
    + assert (lo = hi) by lia. subst hi. cbn. repeat split; [lia | exact Hlo | exact Hhi].
Qed.

Lemma first_index_boundary (right : R -> bool) (a : list R) :
  (first_index right a <= length a)%nat
  /\ (forall i : nat, (i < first_index right a)%nat -> right (nth i a 0) = false)
  /\ ((first_index right a < length a)%nat ->
      right (nth (first_index right a) a 0) = true).
Proof.
  induction a as [|t a [IHle [IHlow IHat]]]; cbn.
  - repeat split; [lia | intros i Hi; lia | intros Hi; lia].
  - destruct (right t) eqn:Ht.
    + repeat split; [lia | intros i Hi; lia | intros _; exact Ht].
    + repeat split; [lia | |].
      * intros [|i] Hi; [exact Ht | apply IHlow; lia].
      * intros Hi. apply IHat. lia.
Qed.

Lemma sorted_nth (a : list R) :
  StronglySorted Rle a ->
  forall i j : nat, (i <= j < length a)%nat -> nth i a 0 <= nth j a 0.
Proof.
  induction 1 as [|t a Hsorted IH Hall]; intros i j Hij; cbn in Hij; [lia|].
  destruct i as [|i], j as [|j]; cbn; try lia.
  - lra.
  - apply (nth_Forall _ _ j Hall). lia.
  - apply IH. lia.
Qed.

Lemma bisect_first_index (right : R -> bool) (a : list R) :
  (forall i j : nat, (i <= j < length a)%nat ->
     right (nth i a 0) = true -> right (nth j a 0) = true) ->
  bisect (length a) right a 0 (length a) = first_index right a.
Proof.
  intros Hmono.
  destruct (bisect_boundary right a (length a) Hmono 0 (length a))
    as [Hble [Hblow Hbhigh]]; [lia | lia | intros i Hi; lia | intros i Hi; lia |].
  destruct (first_index_boundary right a) as [Hfle [Hflow Hfat]].
  destruct (Nat.lt_trichotomy (bisect (length a) right a 0 (length a)) (first_index right a))
    as [Hlt | [Heq | Hgt]]; [|exact Heq|].
  - assert (Htrue : right (nth (bisect (length a) right a 0 (length a)) a 0) = true)
      by (apply Hbhigh; lia).
    rewrite (Hflow _ Hlt) in Htrue. discriminate Htrue.
  - assert (Htrue : right (nth (first_index right a) a 0) = true)
      by (apply Hfat; lia).
    rewrite (Hblow _ Hgt) in Htrue. discriminate Htrue.
Qed.

(** [side="left"]: the first index [i] with [v <= a[i]]. *)
Lemma searchsorted_left_first_index (a : list R) (v : R) :
  StronglySorted Rle a ->
  searchsorted_left a v = first_index (fun t => Rleb v t) a.
Proof.
  intros Hsorted. apply bisect_first_index. intros i j Hij Hi.
  pose proof (sorted_nth a Hsorted i j Hij) as Hle. unfold Rleb in *.
  destruct (Rle_dec v (nth i a 0)); [|discriminate].
  destruct (Rle_dec v (nth j a 0)); [reflexivity | lra].
Qed.

(** [side="right"]: the first index [i] with [v < a[i]]. *)
Lemma searchsorted_right_first_index (a : list R) (v : R) :
  StronglySorted Rle a ->
  searchsorted_right a v = first_index (fun t => Rltb v t) a.
Proof.
  intros Hsorted. apply bisect_first_index. intros i j Hij Hi.
  pose proof (sorted_nth a Hsorted i j Hij) as Hle. unfold Rltb in *.
  destruct (Rlt_dec v (nth i a 0)); [|discriminate].
  destruct (Rlt_dec v (nth j a 0)); [reflexivity | lra].
Qed.

End Extraction.

(** ** textgrid_comparator.py: pitch analysis *)

Section Pitch.

Variable fastdtw : list R -> list R -> outcome R.
Variables ref_pitch_data user_pitch_data : list PitchPoint.

(** The extracted points are the voiced points of positive pitch inside
    the window, in order. *)
Lemma extract_pitch_segment_safe_usable (pitch_data : list PitchPoint) (start_ end_ : R) :
  extract_pitch_segment_safe pitch_data start_ end_
  = omap (usable_point start_ end_) pitch_data.
Proof.
  induction pitch_data as [|pt rest IH]; cbn; [reflexivity|].
  unfold usable_point at 1. destruct (hz pt) as [h|]; [|exact IH].
  destruct (Rleb start_ (time pt) && Rleb (time pt) end_ && Rltb 0 h);
    cbn; now rewrite IH.
Qed.

Lemma usable_point_spec (start_ end_ : R) (pt : PitchPoint) (h : R) :
  usable_point start_ end_ pt = Some h
  <-> hz pt = Some h /\ start_ <= time pt <= end_ /\ 0 < h.
Proof.
  unfold usable_point, Rleb, Rltb. destruct (hz pt) as [h'|].
  - destruct (Rle_dec start_ (time pt)), (Rle_dec (time pt) end_), (Rlt_dec 0 h'); cbn;
      split; try discriminate;
      try (intros [= <-]; repeat split; assumption);
      try (intros [[= <-] [[? ?] ?]]; first [reflexivity | contradiction]).
  - split; [discriminate|]. intros [H _]. discriminate H.
Qed.

Lemma segment_pitch_similarity_spec (segment : ScriptSegment) :
  segment_pitch_similarity fastdtw ref_pitch_data user_pitch_data segment
  = if long_enough ref_pitch_data user_pitch_data segment
    then Some (calculate_dtw_pitch_similarity fastdtw
                 (omap (usable_point (seg_start segment) (seg_end segment)) ref_pitch_data)
                 (omap (usable_point (seg_start segment) (seg_end segment)) user_pitch_data))
    else None.
Proof.
  unfold segment_pitch_similarity, long_enough.
  now rewrite !extract_pitch_segment_safe_usable.
Qed.

(** The loop appends one detail per segment, and one similarity per
    segment that has one. *)
Lemma pitch_loop_spec (segments : list ScriptSegment) :
  forall (segment_results : list SegmentDetail) (similarities : list R),
    pitch_loop fastdtw ref_pitch_data user_pitch_data segments segment_results similarities
    = (segment_results
         ++ map (fun segment =>
                   {| d_text := seg_text segment;
                      d_start := seg_start segment;
                      d_end := seg_end segment;
                      d_similarity :=
                        (fun s => round s 3) <$>
                          segment_pitch_similarity fastdtw ref_pitch_data
                            user_pitch_data segment |})
                segments,
       similarities
         ++ omap (segment_pitch_similarity fastdtw ref_pitch_data user_pitch_data)
                 segments).
Proof.
  induction segments as [|segment rest IH]; intros segment_results similarities; cbn.
  - now rewrite !app_nil_r.
  - rewrite IH.
    destruct (segment_pitch_similarity fastdtw ref_pitch_data user_pitch_data segment);
      cbn; now rewrite <- !app_assoc.
Qed.

(** C8.  The analysis reports one detail per segment, in order.  The
    similarity of a segment is computed (and reported rounded) exactly
    when both the reference and the user have strictly more than 5
    voiced, positive, in-window pitch points there; otherwise it is
    [None] (null).  The aggregate is the rounded mean of the computed
    similarities alone: a null segment adds neither to the sum nor to
    the count, and with no computed similarity the aggregate is 0. *)
Theorem pitch_similarity_ignores_null_segments (segments : list ScriptSegment) :
  let analysis :=
    analyze_pitch_similarity fastdtw ref_pitch_data user_pitch_data segments in
  let computed :=
    omap (segment_pitch_similarity fastdtw ref_pitch_data user_pitch_data) segments in
  length (segment_details analysis) = length segments
  /\ (forall (i : nat) (segment : ScriptSegment),
        segments !! i = Some segment ->
        exists d : SegmentDetail,
          segment_details analysis !! i = Some d
          /\ d_similarity d =
             if long_enough ref_pitch_data user_pitch_data segment
             then Some (round (calculate_dtw_pitch_similarity fastdtw
                          (extract_pitch_segment_safe ref_pitch_data
                             (seg_start segment) (seg_end segment))
                          (extract_pitch_segment_safe user_pitch_data
                             (seg_start segment) (seg_end segment))) 3)
             else None)
  /\ length computed
     = length (List.filter (long_enough ref_pitch_data user_pitch_data) segments)
  /\ pitch_similarity analysis = round (average_or_zero computed) 3
  /\ (computed = [] -> pitch_similarity analysis = 0).
Proof.
  intros analysis computed. subst analysis. unfold analyze_pitch_similarity.
  rewrite pitch_loop_spec. cbn [app]. fold computed.
  cbn [segment_details pitch_similarity].
  split; [now rewrite length_map|]. split; [|split; [|split]].
  - intros i segment Hi. rewrite list_lookup_fmap, Hi. cbn.
    eexists. split; [reflexivity|]. cbn [d_similarity].
    rewrite segment_pitch_similarity_spec, <- !extract_pitch_segment_safe_usable.
    now destruct (long_enough ref_pitch_data user_pitch_data segment).
  - subst computed. induction segments as [|segment rest IH]; [reflexivity|].
    cbn. rewrite segment_pitch_similarity_spec.
    destruct (long_enough ref_pitch_data user_pitch_data segment); cbn; now rewrite IH.
  - unfold average_or_zero. now destruct computed.
  - intros ->. unfold round, round_half_even.
    replace (0 * 10 ^ 3) with (IZR 0) by (cbn; lra).
    rewrite ZfloorZ. replace (IZR 0 - IZR 0) with 0 by lra.
    destruct (Rlt_dec 0 (1 / 2)) as [_|Hn]; [|lra]. cbn. lra.
Qed.

End Pitch.

(** ** mfcc_similarity.py: the frame-wise similarity *)

Section Numeric.

Lemma sum_nonneg (xs : list R) : Forall (fun x => 0 <= x) xs -> 0 <= sum xs.
Proof.
  unfold sum. induction 1 as [|x xs Hx _ IH]; cbn; lra.
Qed.

Lemma len_nonneg {A} (xs : list A) : 0 <= len xs.
Proof. unfold len. apply pos_INR. Qed.

Lemma len_pos {A} (xs : list A) : xs <> [] -> 0 < len xs.
Proof.
  destruct xs; [congruence|]. intros _. unfold len. apply lt_0_INR. cbn. lia.
Qed.

Lemma np_mean_nonneg (xs : list R) : Forall (fun x => 0 <= x) xs -> 0 <= np_mean xs.
Proof.
  intros H. unfold np_mean. destruct xs as [|x xs].
  - cbn. lra.
  - apply Rmult_le_pos; [apply sum_nonneg, H|].
    apply Rlt_le, Rinv_0_lt_compat, len_pos. discriminate.
Qed.

Lemma np_std_nonneg (xs : list R) : 0 <= np_std xs.
Proof. apply sqrt_pos. Qed.

Lemma std_axis0_nonneg (m : matrix) : Forall (fun x => 0 <= x) (std_axis0 m).
Proof.
  unfold std_axis0. apply Forall_fmap, Forall_forall. intros col _. apply np_std_nonneg.
Qed.

Lemma _calculate_std_deviation_nonneg (m : matrix) : 0 <= _calculate_std_deviation m.
Proof.
  unfold _calculate_std_deviation.
  destruct (shape0 m =? 0)%nat; [lra|].
  destruct (13 <=? shape1 m)%nat; apply np_mean_nonneg, std_axis0_nonneg.
Qed.

Lemma std_ratio_of_nonneg (ref_mfcc user_mfcc : matrix) :
  0 <= std_ratio_of ref_mfcc user_mfcc.
Proof.
  unfold std_ratio_of.
  destruct (Rlt_dec 0 (_calculate_std_deviation ref_mfcc)) as [Hpos|_]; [|lra].
  apply Rmult_le_pos; [apply _calculate_std_deviation_nonneg|].
  apply Rlt_le, Rinv_0_lt_compat, Hpos.
Qed.

(** The similarity of two segments at mean distance [md >= 0], before and
    after the penalty for a ratio in [0.5, 1). *)
Lemma similarity_range (md : R) : 0 <= md -> 0 < 1 / (1 + md) <= 1.
Proof.
  intros Hmd. split.
  - apply Rdiv_lt_0_compat; lra.
  - assert (H : / (1 + md) <= / 1) by (apply Rinv_le_contravar; lra).
    rewrite Rinv_1 in H. lra.
Qed.

Lemma penalised_similarity_range (md std_ratio : R) :
  0 <= md -> 0.5 <= std_ratio < 1 ->
  0 < 1 / (1 + md) * (1 - (1 - std_ratio) * 0.3) <= 1.
Proof.
  intros Hmd Hr. pose proof (similarity_range md Hmd) as Hs. split; nra.
Qed.

End Numeric.

Section Shapes.

Lemma rectangular_shape1 (d : nat) (m : matrix) :
  rectangular d m -> m <> [] -> shape1 m = d.
Proof.
  intros Hm Hne. destruct m as [|row rest]; [congruence|].
  apply Forall_inv in Hm. exact Hm.
Qed.

Lemma length_columns (m : matrix) : length (columns m) = shape1 m.
Proof. unfold columns. now rewrite length_map, length_seq. Qed.

Lemma length_cmvn_rows (m : matrix) : length (cmvn_rows m) = length m.
Proof. unfold cmvn_rows. apply length_map. Qed.

Lemma rectangular_cmvn_rows (d : nat) (m : matrix) :
  rectangular d m -> rectangular d (cmvn_rows m).
Proof.
  intros Hm. destruct m as [|row0 rest] eqn:E; [constructor|]. rewrite <- E in *.
  assert (Hd : shape1 m = d) by (apply rectangular_shape1; [exact Hm | now subst m]).
  unfold cmvn_rows. apply Forall_fmap. eapply Forall_impl; [exact Hm|].
  intros row Hrow. cbn.
  rewrite !length_zip_with. unfold mean_axis0, std_axis0.
  rewrite !length_map, length_columns, Hd, Hrow. lia.
Qed.

Lemma length__apply_cmvn (m : matrix) : length (_apply_cmvn m) = length m.
Proof.
  unfold _apply_cmvn. destruct (shape0 m =? 0)%nat; [reflexivity|]. apply length_cmvn_rows.
Qed.

Lemma rectangular__apply_cmvn (d : nat) (m : matrix) :
  rectangular d m -> rectangular d (_apply_cmvn m).
Proof.
  intros Hm. unfold _apply_cmvn. destruct (shape0 m =? 0)%nat; [exact Hm|].
  now apply rectangular_cmvn_rows.
Qed.

Lemma rectangular_zip_with_app (d1 d2 : nat) (a b : matrix) :
  rectangular d1 a -> rectangular d2 b ->
  rectangular (d1 + d2) (zip_with (@app R) a b).
Proof.
  intros Ha. revert b. induction Ha as [|row a Hrow _ IH]; intros b Hb; [constructor|].
  destruct Hb as [|row' b Hrow' Hb]; [constructor|].
  cbn. constructor; [rewrite length_app; lia | now apply IH].
Qed.

Lemma length_weight_vector (d : nat) : length (weight_vector d) = (3 * d)%nat.
Proof. unfold weight_vector. rewrite !length_app, !repeat_length. lia. Qed.

Section WithDelta.

Variable delta : nat -> nat -> matrix -> matrix.
Hypothesis delta_keeps_shape : keeps_shape delta.

Lemma _add_delta_features_shape (m : matrix) :
  rectangular 13 m -> (5 <= length m)%nat ->
  length (_add_delta_features delta m) = length m
  /\ rectangular 39 (_add_delta_features delta m).
Proof.
  intros Hm Hlen. unfold _add_delta_features, shape0.
  destruct (Nat.eqb_spec (length m) 0); [lia|].
  destruct (Nat.ltb_spec (length m) 5); [lia|].
  assert (Hpair : forall width,
            length (zip_with (@app R) (zip_with (@app R) m (delta 1%nat width m))
                                    (delta 2%nat width m)) = length m
            /\ rectangular 39 (zip_with (@app R) (zip_with (@app R) m (delta 1%nat width m))
                                       (delta 2%nat width m))).
  { intros width.
    destruct (delta_keeps_shape 1%nat width 13%nat m Hm) as [Hl1 Hr1].
    destruct (delta_keeps_shape 2%nat width 13%nat m Hm) as [Hl2 Hr2].
    split.
    - rewrite !length_zip_with. lia.
    - apply (rectangular_zip_with_app 26 13); [|exact Hr2].
      now apply (rectangular_zip_with_app 13 13). }
  destruct (length m <? 9)%nat; apply Hpair.
Qed.

Lemma augment_shape (m : matrix) :
  feature_matrix m -> (5 <= length m)%nat ->
  length (augment delta m) = length m /\ rectangular 39 (augment delta m).
Proof.
  intros [Hm|Hm] Hlen; unfold augment;
    rewrite (rectangular_shape1 _ m Hm) by (intros ->; cbn in Hlen; lia); cbn.
  - now apply _add_delta_features_shape.
  - split; [reflexivity | exact Hm].
Qed.

End WithDelta.

End Shapes.

Section Similarity.

Lemma scale_columns_ok (d : nat) (a : matrix) (w : list R) :
  rectangular d a -> a <> [] -> length w = d ->
  exists a' : matrix,
    scale_columns a w = Ok a' /\ length a' = length a /\ rectangular d a'.
Proof.
  intros Ha Hne Hw. unfold scale_columns.
  rewrite (rectangular_shape1 d a Ha Hne), Hw, Nat.eqb_refl.
  eexists. split; [reflexivity|]. split; [apply length_map|].
  apply Forall_fmap. eapply Forall_impl; [exact Ha|].
  intros row Hrow. cbn in *. rewrite length_zip_with. lia.
Qed.

Lemma last_in {A} (l : list A) (d : A) : l <> [] -> In (List.last l d) l.
Proof.
  intros Hne. rewrite (app_removelast_last d Hne) at 2.
  apply in_or_app. right. now left.
Qed.

Lemma _pad_reference_mfcc_shape (d : nat) (m : matrix) (target_length : nat) :
  rectangular d m -> m <> [] -> (length m <= target_length)%nat ->
  length (_pad_reference_mfcc m target_length) = target_length
  /\ rectangular d (_pad_reference_mfcc m target_length).
Proof.
  intros Hm Hne Hlen. unfold _pad_reference_mfcc.
  destruct (Nat.leb_spec target_length (length m)).
  - split; [lia | exact Hm].
  - unfold pad_edge. cbn [repeat app]. split.
    + rewrite length_app, repeat_length. lia.
    + apply Forall_app. split; [exact Hm|].
      apply Forall_forall. intros row Hrow.
      apply list_elem_of_In, repeat_spec in Hrow. subst row.
      pose proof (last_in m [] Hne) as Hin.
      apply list_elem_of_In in Hin.
      exact (proj1 (Forall_forall _ _) Hm _ Hin).
Qed.

Lemma subtract_ok (d : nat) (a b : matrix) :
  rectangular d a -> rectangular d b -> a <> [] -> length a = length b ->
  subtract a b = Ok (zip_with (zip_with Rminus) a b).
Proof.
  intros Ha Hb Hne Hlen. unfold subtract.
  assert (Hbne : b <> []) by (intros ->; destruct a; [congruence | discriminate]).
  rewrite (rectangular_shape1 d a Ha Hne), (rectangular_shape1 d b Hb Hbne).
  now rewrite Hlen, !Nat.eqb_refl.
Qed.

Lemma pad_shorter_shape (r u : matrix) :
  rectangular 39 r -> rectangular 39 u -> r <> [] -> u <> [] ->
  rectangular 39 (fst (pad_shorter r u)) /\ rectangular 39 (snd (pad_shorter r u))
  /\ fst (pad_shorter r u) <> []
  /\ length (fst (pad_shorter r u)) = length (snd (pad_shorter r u)).
Proof.
  intros Hr Hu Hrne Hune. unfold pad_shorter.
  destruct (Nat.eqb_spec (length r) (length u)) as [Heq|Hneq].
  - cbn. repeat split; assumption.
  - destruct (Nat.ltb_spec (length u) (length r)) as [Hlt|Hge]; cbn.
    + destruct (_pad_reference_mfcc_shape 39 u (length r) Hu Hune) as [Hl Hrect]; [lia|].
      repeat split; try assumption. now rewrite Hl.
    + destruct (_pad_reference_mfcc_shape 39 r (length u) Hr Hrne) as [Hl Hrect]; [lia|].
      repeat split; try assumption.
      intros E. rewrite E in Hl. cbn in Hl. destruct u; [congruence | discriminate].
Qed.

(** On two non-empty normalised segments of 39 columns the computation
    of lines 250-288 raises nothing, and its result is the similarity at
    some mean distance [md >= 0], penalised when the ratio is below 1. *)
Lemma similarity_of_normalized_ok (std_ratio : R) (ref_norm user_norm : matrix) :
  rectangular 39 ref_norm -> rectangular 39 user_norm ->
  ref_norm <> [] -> user_norm <> [] ->
  exists md : R,
    0 <= md
    /\ similarity_of_normalized std_ratio ref_norm user_norm
       = Ok (if Rlt_dec std_ratio 1
             then 1 / (1 + md) * (1 - (1 - std_ratio) * 0.3)
             else 1 / (1 + md)).
Proof.
  intros Hr Hu Hrne Hune. unfold similarity_of_normalized.
  rewrite (rectangular_shape1 39 ref_norm Hr Hrne).
  change (39 / 3)%nat with 13%nat.
  destruct (scale_columns_ok 39 ref_norm (weight_vector 13) Hr Hrne (length_weight_vector 13))
    as [r' [-> [Hlr Hrr]]].
  destruct (scale_columns_ok 39 user_norm (weight_vector 13) Hu Hune (length_weight_vector 13))
    as [u' [-> [Hlu Hru]]].
  cbn [mbind outcome_bind].
  assert (Hr'ne : r' <> []) by (intros ->; destruct ref_norm; [congruence | discriminate]).
  assert (Hu'ne : u' <> []) by (intros ->; destruct user_norm; [congruence | discriminate]).
  destruct (pad_shorter_shape r' u' Hrr Hru Hr'ne Hu'ne) as [Hrp [Hup [Hrpne Hlen]]].
  destruct (pad_shorter r' u') as [rp up]. cbn [fst snd] in Hrp, Hup, Hrpne, Hlen.
  rewrite (subtract_ok 39 rp up Hrp Hup Hrpne Hlen). cbn [mbind outcome_bind].
  eexists. split; [|destruct (Rlt_dec std_ratio 1); reflexivity].
  apply np_mean_nonneg, Forall_fmap, Forall_forall. intros row _. apply sqrt_pos.
Qed.

End Similarity.

Section FrameWise.

Variable delta : nat -> nat -> matrix -> matrix.
Hypothesis delta_keeps_shape : keeps_shape delta.

(** In the main path the two normalised segments have 39 columns and the
    frames of their inputs. *)
Lemma normalized_segments_shape (ref_mfcc user_mfcc : matrix) :
  feature_matrix ref_mfcc -> feature_matrix user_mfcc ->
  (5 <= length ref_mfcc)%nat -> (5 <= length user_mfcc)%nat ->
  let '(ref_norm, user_norm) := normalized_segments delta ref_mfcc user_mfcc in
  rectangular 39 ref_norm /\ rectangular 39 user_norm
  /\ length ref_norm = length ref_mfcc /\ length user_norm = length user_mfcc.
Proof.
  intros Hr Hu Hlr Hlu. unfold normalized_segments.
  destruct (augment_shape delta delta_keeps_shape ref_mfcc Hr Hlr) as [Hl1 Hr1].
  destruct (augment_shape delta delta_keeps_shape user_mfcc Hu Hlu) as [Hl2 Hr2].
  repeat split.
  - now apply rectangular__apply_cmvn.
  - now apply rectangular__apply_cmvn.
  - now rewrite length__apply_cmvn.
  - now rewrite length__apply_cmvn.
Qed.

Lemma frame_wise_short (ref_mfcc user_mfcc : matrix) :
  (length ref_mfcc < 5 \/ length user_mfcc < 5)%nat ->
  frame_wise_euclidean_similarity delta ref_mfcc user_mfcc = 0.
Proof.
  intros Hshort. unfold frame_wise_euclidean_similarity, shape0, MIN_FRAMES.
  destruct ((length ref_mfcc =? 0)%nat || (length user_mfcc =? 0)%nat); [reflexivity|].
  destruct (Nat.ltb_spec (length ref_mfcc) 5), (Nat.ltb_spec (length user_mfcc) 5);
    cbn; try reflexivity. lia.
Qed.

Lemma frame_wise_long (ref_mfcc user_mfcc : matrix) :
  (5 <= length ref_mfcc)%nat -> (5 <= length user_mfcc)%nat ->
  frame_wise_euclidean_similarity delta ref_mfcc user_mfcc
  = match similarity_body delta ref_mfcc user_mfcc with
    | Ok similarity => similarity
    | Raise _ => 0
    end.
Proof.
  intros Hr Hu. unfold frame_wise_euclidean_similarity, shape0, MIN_FRAMES.
  destruct (Nat.eqb_spec (length ref_mfcc) 0); [lia|].
  destruct (Nat.eqb_spec (length user_mfcc) 0); [lia|].
  destruct (Nat.ltb_spec (length ref_mfcc) 5); [lia|].
  destruct (Nat.ltb_spec (length user_mfcc) 5); [lia|].
  reflexivity.
Qed.

(** C2.  For feature matrices (13 or 39 coefficients per frame):
    the similarity is exactly 0 when either input has fewer than 5 frames
    (0 frames included); with at least 5 frames on both sides and a
    standard-deviation ratio below 0.5 it is
    0.05 * (1 - (1 - ratio / 0.5)), a value of [0, 0.05]; and with a ratio
    of at least 0.5 it lies in (0, 1]. *)
Theorem frame_wise_euclidean_similarity_range (ref_mfcc user_mfcc : matrix) :
  feature_matrix ref_mfcc -> feature_matrix user_mfcc ->
  let similarity := frame_wise_euclidean_similarity delta ref_mfcc user_mfcc in
  let std_ratio := std_ratio_of ref_mfcc user_mfcc in
  ((length ref_mfcc < 5 \/ length user_mfcc < 5)%nat -> similarity = 0)
  /\ ((5 <= length ref_mfcc)%nat -> (5 <= length user_mfcc)%nat ->
      std_ratio < 0.5 ->
      similarity = 0.05 * (1 - (1 - std_ratio / 0.5)) /\ 0 <= similarity <= 0.05)
  /\ ((5 <= length ref_mfcc)%nat -> (5 <= length user_mfcc)%nat ->
      0.5 <= std_ratio ->
      0 < similarity <= 1).
Proof.
  intros Href Huser similarity std_ratio. subst similarity.
  pose proof (std_ratio_of_nonneg ref_mfcc user_mfcc) as Hnonneg. fold std_ratio in Hnonneg.
  split; [apply frame_wise_short|]. split.
  - intros Hlr Hlu Hlow. rewrite frame_wise_long by assumption.
    unfold similarity_body, STD_THRESHOLD. fold std_ratio.
    destruct (Rlt_dec std_ratio 0.5) as [_|Hn]; [|contradiction].
    split; [reflexivity | lra].
  - intros Hlr Hlu Hhigh. rewrite frame_wise_long by assumption.
    unfold similarity_body, STD_THRESHOLD. fold std_ratio.
    destruct (Rlt_dec std_ratio 0.5) as [Hlow|_]; [lra|].
    pose proof (normalized_segments_shape ref_mfcc user_mfcc Href Huser Hlr Hlu) as Hshape.
    destruct (normalized_segments delta ref_mfcc user_mfcc) as [ref_norm user_norm].
    destruct Hshape as [Hrn [Hun [Hlrn Hlun]]].
    destruct (similarity_of_normalized_ok std_ratio ref_norm user_norm Hrn Hun)
      as [md [Hmd ->]].
    + intros ->. cbn in Hlrn. lia.
    + intros ->. cbn in Hlun. lia.
    + destruct (Rlt_dec std_ratio 1) as [Hlt|Hge].
      * apply penalised_similarity_range; [exact Hmd | lra].
      * apply similarity_range, Hmd.
Qed.

End FrameWise.

Section WorkedSegment.

Lemma frame_differences_shape (d : nat) (m : matrix) :
  rectangular d m ->
  length (frame_differences m) = length m /\ rectangular d (frame_differences m).
Proof.
  induction 1 as [|row rest Hrow Hrest IH]; [split; [reflexivity | constructor]|].
  destruct rest as [|next rest'].
  - cbn. split; [reflexivity|]. constructor; [now rewrite length_map | constructor].
  - destruct IH as [IHl IHr].
    change (frame_differences (row :: next :: rest'))
      with (zip_with Rminus next row :: frame_differences (next :: rest')).
    split.
    + cbn [length]. now rewrite IHl.
    + constructor; [|exact IHr].
      apply Forall_inv in Hrest. rewrite length_zip_with. cbn in *. lia.
Qed.

Lemma difference_delta_keeps_shape : keeps_shape difference_delta.
Proof.
  intros order width d m Hm. unfold difference_delta.
  induction order as [|order [IHl IHr]]; [split; [reflexivity | exact Hm]|].
  destruct (frame_differences_shape d _ IHr) as [Hl Hr].
  split; [exact (eq_trans Hl IHl) | exact Hr].
Qed.

Lemma flat_energy_feature_matrix : feature_matrix flat_energy.
Proof. left. unfold flat_energy. repeat constructor. Qed.

Lemma np_mean_pos (xs : list R) :
  Forall (fun x => 0 <= x) xs -> Exists (fun x => 0 < x) xs -> 0 < np_mean xs.
Proof.
  intros Hall Hex. unfold np_mean.
  assert (Hsum : 0 < sum xs).
  { unfold sum. induction Hall as [|x xs Hx Hall IH]; [inversion Hex|].
    cbn. pose proof (sum_nonneg xs Hall) as Hs. unfold sum in Hs.
    inversion Hex as [? ? Hpos | ? ? Hex']; subst; [lra|].
    specialize (IH Hex'). lra. }
  apply Rdiv_lt_0_compat; [exact Hsum|].
  apply len_pos. intros ->. inversion Hex.
Qed.

Lemma rising_std_pos : 0 < np_std [0; 1; 2; 3; 4].
Proof.
  unfold np_std, np_mean, len, sum. cbn [length map fold_right].
  replace (INR 5) with 5 by (cbn; lra).
  apply sqrt_lt_R0. lra.
Qed.

Lemma flat_energy_std_pos : 0 < _calculate_std_deviation flat_energy.
Proof.
  unfold _calculate_std_deviation, flat_energy, flat_energy_frame.
  cbn [map shape0 shape1 length Nat.eqb Nat.leb firstn].
  unfold std_axis0, columns.
  cbn [shape1 length seq map column nth].
  apply np_mean_pos.
  - repeat (constructor; [apply np_std_nonneg|]). constructor.
  - right. left. exact rising_std_pos.
Qed.

Lemma flat_energy_std_ratio : std_ratio_of flat_energy flat_energy = 1.
Proof.
  pose proof flat_energy_std_pos as Hpos. unfold std_ratio_of.
  destruct (Rlt_dec 0 (_calculate_std_deviation flat_energy)) as [_|Hn]; [|contradiction].
  field. lra.
Qed.

Lemma frame_wise_euclidean_similarity_range_witness :
  0 < frame_wise_euclidean_similarity difference_delta flat_energy flat_energy <= 1.
Proof.
  apply (frame_wise_euclidean_similarity_range difference_delta
           difference_delta_keeps_shape flat_energy flat_energy
           flat_energy_feature_matrix flat_energy_feature_matrix).
  - cbn. lia.
  - cbn. lia.
  - rewrite flat_energy_std_ratio. lra.
Defined.

End WorkedSegment.

(** ** mfcc_similarity.py: the normalisation of the main path *)

Section Columns.

Lemma nth_zip_with {A B C} (f : A -> B -> C) (l : list A) (k : list B)
    (j : nat) (a : A) (b : B) (c : C) :
  (j < length l)%nat -> (j < length k)%nat ->
  nth j (zip_with f l k) c = f (nth j l a) (nth j k b).
Proof.
  revert k j. induction l as [|x l IH]; intros [|y k] [|j] Hl Hk; cbn in *; try lia.
  - reflexivity.
  - apply IH; lia.
Qed.

Lemma nth_columns (g : list R -> R) (m : matrix) (j : nat) :
  (j < shape1 m)%nat -> nth j (map g (columns m)) 0 = g (column j m).
Proof.
  intros Hj. unfold columns. rewrite map_map.
  rewrite (nth_indep _ 0 (g (column 0 m))) by now rewrite length_map, length_seq.
  rewrite (map_nth (fun i => g (column i m)) (seq 0 (shape1 m)) 0%nat j).
  now rewrite seq_nth.
Qed.

Lemma column_map (f : list R -> list R) (m : matrix) (j : nat) :
  column j (map f m) = map (fun row => nth j (f row) 0) m.
Proof. unfold column. apply map_map. Qed.

(** Every column of [cmvn_rows m] is the z-scored column of [m]. *)
Lemma cmvn_rows_z_scored (d : nat) (m : matrix) :
  rectangular d m -> m <> [] -> z_scored d m (cmvn_rows m).
Proof.
  intros Hm Hne. split; [apply length_cmvn_rows|]. intros j Hj.
  pose proof (rectangular_shape1 d m Hm Hne) as Hd.
  assert (Hmean : length (mean_axis0 m) = d)
    by (unfold mean_axis0; now rewrite length_map, length_columns).
  assert (Hstd : length (map (fun s => s + 1e-9) (std_axis0 m)) = d)
    by (unfold std_axis0; now rewrite !length_map, length_columns).
  assert (Hmj : nth j (mean_axis0 m) 0 = np_mean (column j m))
    by (unfold mean_axis0; apply nth_columns; lia).
  assert (Hsj : nth j (map (fun s => s + 1e-9) (std_axis0 m)) 0
                = np_std (column j m) + 1e-9).
  { unfold std_axis0. rewrite map_map.
    apply (nth_columns (fun col => np_std col + 1e-9)). lia. }
  unfold cmvn_rows. rewrite column_map.
  set (mu := np_mean (column j m)) in *. set (sd := np_std (column j m) + 1e-9) in *.
  unfold column. rewrite map_map. apply map_ext_in. intros row Hrow.
  assert (Hlen : length row = d).
  { apply list_elem_of_In in Hrow. exact (proj1 (Forall_forall _ _) Hm _ Hrow). }
  rewrite (nth_zip_with Rdiv _ _ j 0 0 0)
    by (rewrite ?length_zip_with; lia).
  rewrite (nth_zip_with Rminus _ _ j 0 0 0) by lia.
  now rewrite Hmj, Hsj.
Qed.

Lemma _apply_cmvn_z_scored (d : nat) (m : matrix) :
  rectangular d m -> m <> [] -> z_scored d m (_apply_cmvn m).
Proof.
  intros Hm Hne. unfold _apply_cmvn, shape0.
  destruct (Nat.eqb_spec (length m) 0) as [E|_].
  - destruct m; [congruence | discriminate].
  - now apply cmvn_rows_z_scored.
Qed.

Lemma column_zip_with_app_l (d : nat) (a b : matrix) (j : nat) :
  rectangular d a -> (j < d)%nat -> length a = length b ->
  column j (zip_with (@app R) a b) = column j a.
Proof.
  intros Ha Hj. revert b. induction Ha as [|row a Hrow _ IH]; intros [|row' b] Hlen;
    try discriminate; [reflexivity|].
  cbn. rewrite app_nth1 by lia. f_equal. apply IH. cbn in Hlen. lia.
Qed.

Lemma column_zip_with_cons (c0 : list R) (rest : matrix) :
  length c0 = length rest -> column 0 (zip_with cons c0 rest) = c0.
Proof.
  revert rest. induction c0 as [|x c0 IH]; intros [|row rest] Hlen;
    try discriminate; [reflexivity|].
  cbn. f_equal. apply IH. cbn in Hlen. lia.
Qed.

End Columns.

Section ConstantColumn.

Lemma sum_repeat (c : R) (n : nat) : sum (repeat c n) = INR n * c.
Proof.
  unfold sum. induction n as [|n IH]; [cbn; lra|].
  cbn [repeat fold_right]. rewrite IH, S_INR. ring.
Qed.

Lemma np_mean_repeat (c : R) (n : nat) : (0 < n)%nat -> np_mean (repeat c n) = c.
Proof.
  intros Hn. unfold np_mean, len. rewrite sum_repeat, repeat_length.
  field. apply not_0_INR. lia.
Qed.

(** Plain CMVN sends a constant column to 0. *)
Lemma z_scored_constant_column (d : nat) (x y : matrix) (j : nat) (c : R) :
  z_scored d x y -> (j < d)%nat -> x <> [] ->
  column j x = repeat c (length x) ->
  column j y = repeat 0 (length x).
Proof.
  intros [_ Hcols] Hj Hne Hconst. rewrite (Hcols j Hj), Hconst.
  assert (Hn : (0 < length x)%nat) by (destruct x; [congruence | cbn; lia]).
  rewrite np_mean_repeat by exact Hn.
  generalize (np_std (repeat c (length x)) + 1e-9). intros sd.
  clear. induction (length x) as [|n IH]; [reflexivity|].
  cbn [repeat map]. f_equal; [|exact IH].
  unfold Rdiv. rewrite Rminus_diag. apply Rmult_0_l.
Qed.

Lemma np_sort_repeat (c : R) (n : nat) : np_sort (repeat c n) = repeat c n.
Proof.
  unfold np_sort. induction n as [|n IH]; [reflexivity|].
  cbn [repeat fold_right]. rewrite IH. destruct n as [|n]; [reflexivity|].
  cbn [repeat insert_sorted]. destruct (Rle_dec c c) as [_|Hn]; [reflexivity | lra].
Qed.

Lemma nth_repeat_lt (c : R) (n i : nat) : (i < n)%nat -> nth i (repeat c n) 0 = c.
Proof.
  revert i. induction n as [|n IH]; intros [|i] Hi; cbn; try lia; [reflexivity|].
  apply IH. lia.
Qed.

Lemma np_percentile_repeat (c : R) (n q : nat) :
  (0 < n)%nat -> (q <= 100)%nat -> np_percentile (repeat c n) q = c.
Proof.
  intros Hn Hq. unfold np_percentile. rewrite np_sort_repeat, repeat_length.
  assert (Hlo : ((n - 1) * q / 100 < n)%nat).
  { apply Nat.Div0.div_lt_upper_bound. nia. }
  rewrite !nth_repeat_lt by lia. lra.
Qed.

(** CMVN with clipping sends a constant energy column to 0.5. *)
Lemma cmvn_with_c0_clipping_constant_energy (x : matrix) (c : R) :
  x <> [] -> column 0 x = repeat c (length x) ->
  column 0 (cmvn_with_c0_clipping x) = repeat 0.5 (length x).
Proof.
  intros Hne Hconst. unfold cmvn_with_c0_clipping, shape0.
  assert (Hn : (0 < length x)%nat) by (destruct x; [congruence | cbn; lia]).
  destruct (Nat.eqb_spec (length x) 0); [lia|].
  rewrite Hconst, !np_percentile_repeat by lia.
  destruct (Rlt_dec (c - c) 1e-6) as [_|Hnlt]; [|lra].
  rewrite column_zip_with_cons.
  - clear. induction (length x) as [|n IH]; [reflexivity|]. cbn. now rewrite IH.
  - now rewrite length_map, repeat_length, length_cmvn_rows, length_map.
Qed.

End ConstantColumn.

Section MainPath.

Variable delta : nat -> nat -> matrix -> matrix.
Hypothesis delta_keeps_shape : keeps_shape delta.

(** The augmentation keeps the 13 original columns in place. *)
Lemma augment_column (m : matrix) (j : nat) :
  rectangular 13 m -> (5 <= length m)%nat -> (j < 13)%nat ->
  column j (augment delta m) = column j m.
Proof.
  intros Hm Hlen Hj. unfold augment.
  rewrite (rectangular_shape1 13 m Hm) by (intros ->; cbn in Hlen; lia). cbn.
  unfold _add_delta_features, shape0.
  destruct (Nat.eqb_spec (length m) 0); [lia|].
  destruct (Nat.ltb_spec (length m) 5); [lia|].
  assert (Hcol : forall width,
            column j (zip_with (@app R) (zip_with (@app R) m (delta 1%nat width m))
                                        (delta 2%nat width m)) = column j m).
  { intros width.
    destruct (delta_keeps_shape 1%nat width 13%nat m Hm) as [Hl1 Hr1].
    destruct (delta_keeps_shape 2%nat width 13%nat m Hm) as [Hl2 Hr2].
    rewrite (column_zip_with_app_l 26).
    - apply (column_zip_with_app_l 13); [exact Hm | exact Hj | now rewrite Hl1].
    - now apply (rectangular_zip_with_app 13 13).
    - lia.
    - rewrite length_zip_with. lia. }
  destruct (length m <? 9)%nat; apply Hcol.
Qed.

(** C1, as the code has it.  In the main path (feature matrices with at
    least 5 frames each, ratio at least 0.5), both segments are augmented
    to 39 columns and then normalised by plain CMVN ([_apply_cmvn]):
    each of the 39 columns, the energy column 0 included, has its mean
    subtracted and is divided by its standard deviation plus 1e-9; no
    percentile is taken, nothing is clipped or rescaled to [0, 1].  The
    similarity is computed from these two segments, and a constant energy
    column is normalised to 0 (not to 0.5). *)
Theorem main_path_normalization_is_plain_cmvn (ref_mfcc user_mfcc : matrix) :
  feature_matrix ref_mfcc -> feature_matrix user_mfcc ->
  (5 <= length ref_mfcc)%nat -> (5 <= length user_mfcc)%nat ->
  0.5 <= std_ratio_of ref_mfcc user_mfcc ->
  exists ref_norm user_norm : matrix,
    normalized_segments delta ref_mfcc user_mfcc = (ref_norm, user_norm)
    /\ frame_wise_euclidean_similarity delta ref_mfcc user_mfcc
       = match similarity_of_normalized (std_ratio_of ref_mfcc user_mfcc)
                                        ref_norm user_norm with
         | Ok similarity => similarity
         | Raise _ => 0
         end
    /\ rectangular 39 (augment delta ref_mfcc)
    /\ rectangular 39 (augment delta user_mfcc)
    /\ z_scored 39 (augment delta ref_mfcc) ref_norm
    /\ z_scored 39 (augment delta user_mfcc) user_norm
    /\ (forall c : R,
          column 0 (augment delta ref_mfcc) = repeat c (length ref_mfcc) ->
          column 0 ref_norm = repeat 0 (length ref_mfcc)).
Proof.
  intros Href Huser Hlr Hlu Hhigh.
  destruct (augment_shape delta delta_keeps_shape ref_mfcc Href Hlr) as [Hl1 Hr1].
  destruct (augment_shape delta delta_keeps_shape user_mfcc Huser Hlu) as [Hl2 Hr2].
  assert (Hne1 : augment delta ref_mfcc <> [])
    by (intros E; rewrite E in Hl1; cbn in Hl1; lia).
  assert (Hne2 : augment delta user_mfcc <> [])
    by (intros E; rewrite E in Hl2; cbn in Hl2; lia).
  exists (_apply_cmvn (augment delta ref_mfcc)), (_apply_cmvn (augment delta user_mfcc)).
  split; [reflexivity|]. split.
  { rewrite frame_wise_long by assumption.
    unfold similarity_body, STD_THRESHOLD, normalized_segments.
    destruct (Rlt_dec (std_ratio_of ref_mfcc user_mfcc) 0.5) as [Hlow|_]; [lra|].
    reflexivity. }
  split; [exact Hr1|]. split; [exact Hr2|].
  split; [now apply _apply_cmvn_z_scored|]. split; [now apply _apply_cmvn_z_scored|].
  intros c Hconst. rewrite <- Hl1 in Hconst |- *.
  apply (z_scored_constant_column 39 (augment delta ref_mfcc) _ 0%nat c);
    [now apply _apply_cmvn_z_scored | lia | exact Hne1 | exact Hconst].
Qed.

End MainPath.

Lemma flat_energy_rectangular : rectangular 13 flat_energy.
Proof. unfold flat_energy. repeat constructor. Qed.

Lemma main_path_normalization_is_plain_cmvn_witness :
  exists ref_norm user_norm : matrix,
    normalized_segments difference_delta flat_energy flat_energy = (ref_norm, user_norm)
    /\ z_scored 39 (augment difference_delta flat_energy) ref_norm.
Proof.
  destruct (main_path_normalization_is_plain_cmvn difference_delta
              difference_delta_keeps_shape flat_energy flat_energy
              flat_energy_feature_matrix flat_energy_feature_matrix)
    as [ref_norm [user_norm [Hn [_ [_ [_ [Hz _]]]]]]].
  - cbn. lia.
  - cbn. lia.
  - rewrite flat_energy_std_ratio. lra.
  - exists ref_norm, user_norm. split; [exact Hn | exact Hz].
Defined.

(** C1 as stated fails: [flat_energy] against itself goes through the
    main path, its energy column is constant, and the normalised segment
    has the energy column at 0, where CMVN with clipping gives 0.5. *)
Lemma main_path_energy_is_not_clipped :
  feature_matrix flat_energy
  /\ (5 <= length flat_energy)%nat
  /\ 0.5 <= std_ratio_of flat_energy flat_energy
  /\ column 0 (fst (normalized_segments difference_delta flat_energy flat_energy))
     = [0; 0; 0; 0; 0]
  /\ column 0 (cmvn_with_c0_clipping (augment difference_delta flat_energy))
     = [0.5; 0.5; 0.5; 0.5; 0.5]
  /\ fst (normalized_segments difference_delta flat_energy flat_energy)
     <> cmvn_with_c0_clipping (augment difference_delta flat_energy).
Proof.
  pose proof flat_energy_rectangular as Hrect.
  assert (Hlen : (5 <= length flat_energy)%nat) by (cbn; lia).
  destruct (augment_shape difference_delta difference_delta_keeps_shape flat_energy
              flat_energy_feature_matrix Hlen) as [Hl Hr].
  assert (Hne : augment difference_delta flat_energy <> [])
    by (intros E; rewrite E in Hl; cbn in Hl; lia).
  assert (Hcol : column 0 (augment difference_delta flat_energy)
                 = repeat 1 (length (augment difference_delta flat_energy))).
  { rewrite (augment_column difference_delta difference_delta_keeps_shape
               flat_energy 0%nat Hrect Hlen) by lia.
    rewrite Hl. reflexivity. }
  assert (Hplain : column 0 (fst (normalized_segments difference_delta flat_energy flat_energy))
                   = [0; 0; 0; 0; 0]).
  { cbn [normalized_segments fst].
    rewrite (z_scored_constant_column 39 (augment difference_delta flat_energy) _ 0%nat 1);
      [now rewrite Hl | now apply _apply_cmvn_z_scored | lia | exact Hne | exact Hcol]. }
  assert (Hclip : column 0 (cmvn_with_c0_clipping (augment difference_delta flat_energy))
                  = [0.5; 0.5; 0.5; 0.5; 0.5]).
  { rewrite (cmvn_with_c0_clipping_constant_energy _ 1 Hne Hcol). now rewrite Hl. }
  split; [exact flat_energy_feature_matrix|]. split; [exact Hlen|].
  split; [rewrite flat_energy_std_ratio; lra|].
  split; [exact Hplain|]. split; [exact Hclip|].
  intros E. rewrite E, Hclip in Hplain.
  injection Hplain as H0. lra.
Qed.

(** ** pronunciation.py: the analysis steps as a whole *)

Section Pipeline.

Lemma first_token_tokenless (seg : Segment) :
  tokenless seg -> first_token (word seg) = Raise IndexError.
Proof. unfold tokenless, first_token. now intros ->. Qed.

Lemma first_token_ok_or_index_error (seg : Segment) :
  (exists k, first_token (word seg) = Ok k) \/ first_token (word seg) = Raise IndexError.
Proof.
  unfold first_token. destruct (normalize_and_tokenize (word seg)); [right | left; eexists];
    reflexivity.
Qed.

(** The dictionary is built, or the construction stops on an [IndexError]. *)
Lemma build_user_words_dict_outcome (items : list Segment) :
  forall d : gmap string Segment,
    (exists d', build_user_words_dict items d = Ok d')
    \/ build_user_words_dict items d = Raise IndexError.
Proof.
  induction items as [|item rest IH]; intros d; cbn.
  - left. now exists d.
  - destruct (first_token_ok_or_index_error item) as [[k ->] | ->]; cbn; [apply IH | now right].
Qed.

Lemma build_user_words_dict_raises (items : list Segment) :
  Exists tokenless items ->
  forall d : gmap string Segment, build_user_words_dict items d = Raise IndexError.
Proof.
  induction items as [|item rest IH]; intros Hex d; [inversion Hex|]. cbn.
  destruct (first_token_ok_or_index_error item) as [[k Hk] | ->]; [|reflexivity].
  rewrite Hk. cbn. apply IH.
  inversion Hex as [? ? Hitem | ? ? Hrest]; subst; [|exact Hrest].
  rewrite (first_token_tokenless item Hitem) in Hk. discriminate Hk.
Qed.

Lemma match_word_outcome (d : gmap string Segment) (threshold : R) (ref : Segment) :
  (exists r, match_word d threshold ref = Ok r /\ first_token (word ref) <> Raise IndexError)
  \/ (match_word d threshold ref = Raise IndexError /\ tokenless ref).
Proof.
  unfold match_word, first_token, tokenless.
  destruct (normalize_and_tokenize (word ref)) as [|k ks]; cbn.
  - right. split; reflexivity.
  - left. destruct (d !! k) as [u|].
    + destruct (calculate_time_overlap _ _ _ _). eexists. split; [reflexivity | discriminate].
    + eexists. split; [reflexivity | discriminate].
Qed.

Lemma match_words_raises (d : gmap string Segment) (threshold : R) (refs : list Segment) :
  Exists tokenless refs -> match_words d threshold refs = Raise IndexError.
Proof.
  induction refs as [|ref rest IH]; intros Hex; [inversion Hex|]. cbn.
  destruct (match_word_outcome d threshold ref) as [[r [-> Hok]] | [-> _]]; [|reflexivity].
  cbn. rewrite IH; [reflexivity|].
  inversion Hex as [? ? Href | ? ? Hrest]; subst; [|exact Hrest].
  rewrite (first_token_tokenless ref Href) in Hok. congruence.
Qed.

Lemma analyze_time_overlap_raises (refs users : list Segment) (threshold : R) :
  Exists tokenless refs \/ Exists tokenless users ->
  analyze_time_overlap refs users threshold = Raise IndexError.
Proof.
  intros [Hrefs | Husers]; unfold analyze_time_overlap.
  - destruct (build_user_words_dict_outcome users ∅) as [[d ->] | ->]; cbn;
      [now apply match_words_raises | reflexivity].
  - now rewrite (build_user_words_dict_raises users Husers ∅).
Qed.

(** C5, where the code departs from it.  When a reference word or a user
    word has no normalised token, the analysis steps produce no report:
    the time-overlap analysis raises [IndexError], whatever the audio and
    the recogniser's output. *)
Theorem analysis_steps_raise_on_tokenless_word
    (delta : nat -> nat -> matrix -> matrix)
    (reference_segments user_word_timestamps : list Segment)
    (user_stt_result : WhisperJson)
    (user_mfcc : matrix) (user_frame_times : list R) :
  Exists tokenless reference_segments \/ Exists tokenless user_word_timestamps ->
  analysis_steps delta reference_segments user_word_timestamps user_stt_result
                 user_mfcc user_frame_times
  = Raise IndexError.
Proof.
  intros Hex. unfold analysis_steps.
  now rewrite (analyze_time_overlap_raises _ _ default_threshold Hex).
Qed.

Lemma ref_dash_tokenless : tokenless ref_dash.
Proof. reflexivity. Defined.

Lemma analysis_steps_raise_on_tokenless_word_witness :
  analysis_steps difference_delta [ref_dash] [] [] five_frames five_times
  = Raise IndexError.
Proof.
  apply analysis_steps_raise_on_tokenless_word.
  left. left. exact ref_dash_tokenless.
Defined.

(** The other side: when every reference and user word has a normalised
    token and the script is not empty, the steps return a report with one
    entry per reference word. *)
Lemma analysis_steps_return
    (delta : nat -> nat -> matrix -> matrix)
    (reference_segments user_word_timestamps : list Segment)
    (user_stt_result : WhisperJson)
    (user_mfcc : matrix) (user_frame_times : list R) :
  Forall tokenizes reference_segments -> Forall tokenizes user_word_timestamps ->
  reference_segments <> [] ->
  exists report : Report,
    analysis_steps delta reference_segments user_word_timestamps user_stt_result
                   user_mfcc user_frame_times = Ok report
    /\ length (report_words report) = length reference_segments.
Proof.
  intros Hrefs Husers Hne. unfold analysis_steps, analyze_time_overlap.
  destruct (build_user_words_dict_total _ Husers ∅) as [d ->]. cbn.
  destruct (match_words_recorded d default_threshold _ Hrefs) as [results [-> _]]. cbn.
  assert (Hlog : log_text_matching_summary (map word reference_segments) = Ok tt)
    by (destruct reference_segments; [congruence | reflexivity]).
  rewrite Hlog. cbn.
  set (texts := compare_texts reference_segments user_stt_result).
  assert (Hlen : (0 + length (map word reference_segments) <= length texts)%nat).
  { subst texts. unfold compare_texts, score_text_alignment.
    rewrite !length_map, normalize_segments_to_zero_length. lia. }
  destruct (tally_words_spec texts
              (compare_mfcc_segments delta reference_segments user_mfcc user_frame_times)
              results (map word reference_segments) empty_tally 0%nat Hlen)
    as [t [Ht [added [Happ [Hladd _]]]]].
  unfold generate_comprehensive_results. rewrite Ht. cbn.
  eexists. split; [reflexivity|]. cbn [report_words].
  cbn in Happ. rewrite Happ, Hladd. apply length_map.
Qed.

End Pipeline.

(** ** The theorems at the inputs of the worked examples *)

Lemma continuous_score_monotone_and_clamped_witness :
  continuous_score 0.08 <= continuous_score 0.30.
Proof.
  apply (proj1 continuous_score_monotone_and_clamped). lra.
Defined.

Lemma normalize_segments_to_zero_shifts_and_is_idempotent_witness :
  exists seg' : Segment,
    normalize_segments_to_zero late_words !! 1%nat = Some seg'
    /\ start_time seg' = 1.4 - 1.0
    /\ end_time seg' = 1.9 - 1.0.
Proof.
  destruct (normalize_segments_to_zero_shifts_and_is_idempotent
              (spoken "the" 1.0 1.3) [spoken "cat" 1.4 1.9]) as [_ [Hshift _]].
  destruct (Hshift 1%nat (spoken "cat" 1.4 1.9) eq_refl) as [seg' [Hlookup [Hs [He _]]]].
  exists seg'. split; [exact Hlookup|]. split; [exact Hs | exact He].
Defined.

Lemma pitch_similarity_ignores_null_segments_witness :
  pitch_similarity (analyze_pitch_similarity no_fastdtw [] [] [hello_segment]) = 0.
Proof.
  apply (pitch_similarity_ignores_null_segments no_fastdtw [] [] [hello_segment]).
  reflexivity.
Defined.

(** * Further properties *)

Import WordTimestamps VoiceToPitch PhoneComparison FrameTimes Notions.

(** ** Rounding *)

Section Rounding.

Lemma round_half_even_integer (k : Z) : round_half_even (IZR k) = k.
Proof.
  unfold round_half_even. rewrite ZfloorZ.
  replace (IZR k - IZR k) with 0 by ring.
  destruct (Rlt_dec 0 (1 / 2)); [reflexivity | lra].
Qed.

Lemma round_half_even_near (x : R) :
  (Zfloor x <= round_half_even x <= Zfloor x + 1)%Z.
Proof.
  unfold round_half_even.
  destruct (Rlt_dec _ _); [lia|].
  destruct (Rlt_dec _ _); [lia|].
  destruct (Z.even _); lia.
Qed.

Lemma round_half_even_monotone (x y : R) :
  x <= y -> (round_half_even x <= round_half_even y)%Z.
Proof.
  intros Hxy.
  pose proof (Zfloor_le _ _ Hxy) as Hfl.
  destruct (Z.eq_dec (Zfloor x) (Zfloor y)) as [Heq|Hne].
  - unfold round_half_even. rewrite Heq.
    destruct (Rlt_dec (x - IZR (Zfloor y)) (1 / 2)) as [Hx|Hx].
    + destruct (Rlt_dec (y - IZR (Zfloor y)) (1 / 2)); [lia|].
      destruct (Rlt_dec (1 / 2) (y - IZR (Zfloor y))); [lia|].
      destruct (Z.even (Zfloor y)); lia.
    + destruct (Rlt_dec (y - IZR (Zfloor y)) (1 / 2)) as [Hy|Hy]; [lra|].
      destruct (Rlt_dec (1 / 2) (x - IZR (Zfloor y))) as [Hx'|Hx'].
      * destruct (Rlt_dec (1 / 2) (y - IZR (Zfloor y))); [lia | lra].
      * destruct (Rlt_dec (1 / 2) (y - IZR (Zfloor y))).
        -- destruct (Z.even (Zfloor y)); lia.
        -- lia.
  - pose proof (round_half_even_near x). pose proof (round_half_even_near y). lia.
Qed.

Lemma pow10_IZR (n : nat) : 10 ^ n = IZR (10 ^ Z.of_nat n).
Proof. rewrite <- pow_IZR. reflexivity. Qed.

Lemma pow10_pos (n : nat) : 0 < 10 ^ n.
Proof. apply pow_lt. lra. Qed.

(** Rounding never leaves an interval with whole bounds. *)
Lemma round_between (a b : Z) (x : R) (n : nat) :
  IZR a <= x <= IZR b -> IZR a <= round x n <= IZR b.
Proof.
  intros [Ha Hb]. unfold round.
  pose proof (pow10_pos n) as Hp.
  assert (Hlo : (a * 10 ^ Z.of_nat n <= round_half_even (x * 10 ^ n))%Z).
  { rewrite <- (round_half_even_integer (a * 10 ^ Z.of_nat n)).
    apply round_half_even_monotone.
    rewrite mult_IZR, <- pow10_IZR. nra. }
  assert (Hhi : (round_half_even (x * 10 ^ n) <= b * 10 ^ Z.of_nat n)%Z).
  { rewrite <- (round_half_even_integer (b * 10 ^ Z.of_nat n)).
    apply round_half_even_monotone.
    rewrite mult_IZR, <- pow10_IZR. nra. }
  apply IZR_le in Hlo, Hhi.
  rewrite mult_IZR, <- pow10_IZR in Hlo, Hhi.
  split.
  - apply (Rmult_le_reg_r (10 ^ n)); [assumption|].
    unfold Rdiv. rewrite Rmult_assoc, Rinv_l by lra. lra.
  - apply (Rmult_le_reg_r (10 ^ n)); [assumption|].
    unfold Rdiv. rewrite Rmult_assoc, Rinv_l by lra. lra.
Qed.

Lemma round_unit_interval (x : R) (n : nat) :
  unit_interval x -> unit_interval (round x n).
Proof. intros H. apply (round_between 0 1 x n). exact H. Qed.

Lemma round_monotone (x y : R) (n : nat) : x <= y -> round x n <= round y n.
Proof.
  intros Hxy. unfold round.
  pose proof (pow10_pos n) as Hp.
  assert (H : (round_half_even (x * 10 ^ n) <= round_half_even (y * 10 ^ n))%Z).
  { apply round_half_even_monotone. nra. }
  apply IZR_le in H.
  unfold Rdiv. apply Rmult_le_compat_r; [|assumption].
  left. apply Rinv_0_lt_compat. assumption.
Qed.

End Rounding.

(** ** The overlap of two intervals *)

Section OverlapRatio.

Lemma overlap_ratio_unit (rs re us ue : R) :
  0 <= snd (calculate_time_overlap rs re us ue) <= 1.
Proof.
  unfold calculate_time_overlap.
  destruct (Rle_dec (Rmin re ue) (Rmax rs us)) as [Hno|Hov]; cbn [snd]; [lra|].
  pose proof (Rmax_l rs us). pose proof (Rmin_l re ue).
  destruct (Rlt_dec 0 (re - rs)) as [Hpos|Hneg]; [|lra].
  split.
  - apply Rmult_le_pos; [lra|]. left. apply Rinv_0_lt_compat. assumption.
  - apply (Rmult_le_reg_r (re - rs)); [assumption|].
    unfold Rdiv. rewrite Rmult_assoc, Rinv_l by lra. lra.
Qed.

(** X1.  Whatever the four times, [calculate_time_overlap] returns a
    duration that is not negative and a ratio between 0 and 1; a
    positive overlap is no longer than the reference word and no longer
    than the user's word. *)
Theorem calculate_time_overlap_range (rs re us ue : R) :
  let duration := fst (calculate_time_overlap rs re us ue) in
  let ratio := snd (calculate_time_overlap rs re us ue) in
  0 <= duration
  /\ 0 <= ratio <= 1
  /\ (0 < duration -> duration <= re - rs /\ duration <= ue - us)
  /\ (0 < ratio -> 0 < duration).
Proof.
  unfold calculate_time_overlap.
  destruct (Rle_dec (Rmin re ue) (Rmax rs us)) as [Hno|Hov]; cbn [fst snd].
  - repeat split; lra.
  - assert (Hlt : Rmax rs us < Rmin re ue) by lra.
    pose proof (Rmax_l rs us). pose proof (Rmax_r rs us).
    pose proof (Rmin_l re ue). pose proof (Rmin_r re ue).
    destruct (Rlt_dec 0 (re - rs)) as [Hpos|Hneg]; [|lra].
    repeat split; try lra.
    + apply Rmult_le_pos; [lra|]. left. apply Rinv_0_lt_compat. assumption.
    + apply (Rmult_le_reg_r (re - rs)); [assumption|].
      unfold Rdiv. rewrite Rmult_assoc, Rinv_l by lra. lra.
Qed.

Lemma calculate_time_overlap_range_witness :
  fst (calculate_time_overlap 0 2 1 3) <= 2 - 0
  /\ fst (calculate_time_overlap 0 2 1 3) <= 3 - 1.
Proof.
  apply (calculate_time_overlap_range 0 2 1 3).
  unfold calculate_time_overlap, Rmin, Rmax.
  destruct (Rle_dec 0 1); [|lra]. destruct (Rle_dec 2 3); [|lra].
  destruct (Rle_dec 2 1); [lra|]. cbn [fst]. lra.
Defined.

(** X2.  The two ends of the scale.  Words that do not meet in time, or
    only touch, have overlap (0, 0); a reference word of positive length
    that the user's word covers has ratio 1 and its own length as
    overlap. *)
Theorem calculate_time_overlap_extremes (rs re us ue : R) :
  (ue <= rs \/ re <= us -> rs <= re -> us <= ue ->
   calculate_time_overlap rs re us ue = (0, 0))
  /\ (us <= rs -> re <= ue -> rs < re ->
      calculate_time_overlap rs re us ue = (re - rs, 1)).
Proof.
  unfold calculate_time_overlap. split.
  - intros Hd Hr Hu.
    destruct (Rle_dec (Rmin re ue) (Rmax rs us)) as [_|Hov]; [reflexivity|].
    exfalso. apply Hov. unfold Rmin, Rmax. dec_R.
  - intros H1 H2 H3.
    rewrite (Rmax_left rs us) by lra. rewrite (Rmin_left re ue) by lra.
    destruct (Rle_dec re rs); [lra|].
    destruct (Rlt_dec 0 (re - rs)); [|lra].
    f_equal. field. lra.
Qed.

Lemma calculate_time_overlap_extremes_witness :
  calculate_time_overlap 0 1 2 3 = (0, 0)
  /\ calculate_time_overlap 1 2 0 3 = (2 - 1, 1).
Proof.
  split.
  - apply (proj1 (calculate_time_overlap_extremes 0 1 2 3)); lra.
  - apply (proj2 (calculate_time_overlap_extremes 1 2 0 3)); lra.
Defined.

Lemma match_word_sound (d : gmap string Segment) (threshold : R) (ref : Segment)
    (r : TimeMatch) :
  match_word d threshold ref = Ok r ->
  t_word r = word ref /\ sound_record threshold r.
Proof.
  unfold match_word.
  destruct (first_token (word ref)) as [k|e]; cbn; [|discriminate].
  destruct (d !! k) as [u|].
  - pose proof (overlap_ratio_unit (start_time ref) (end_time ref)
                  (start_time u) (end_time u)) as Hr.
    destruct (calculate_time_overlap _ _ _ _) as [dur ratio].
    cbn [snd] in Hr.
    intros [= <-]. split; [reflexivity|].
    unfold sound_record, log_time_overlap_analysis.
    cbn [overlap_ratio user_start user_end time_match].
    split; [exact Hr|]. split; [split; discriminate|].
    split; [discriminate|].
    unfold Rleb. destruct (Rle_dec threshold ratio).
    + split; [intros _; split; [discriminate | assumption] | reflexivity].
    + split; [discriminate | intros [_ H]; contradiction].
  - intros [= <-]. split; [reflexivity|].
    unfold sound_record. cbn [overlap_ratio user_start user_end time_match].
    split; [lra|]. split; [split; reflexivity|].
    split; [intros _; split; reflexivity|].
    split; [discriminate | intros [H _]; contradiction].
Qed.

Lemma match_words_sound (d : gmap string Segment) (threshold : R)
    (refs : list Segment) :
  forall results : list TimeMatch,
    match_words d threshold refs = Ok results ->
    map t_word results = map word refs
    /\ Forall (sound_record threshold) results.
Proof.
  induction refs as [|ref rest IH]; cbn; intros results.
  - intros [= <-]. split; [reflexivity | constructor].
  - destruct (match_word d threshold ref) as [r|e] eqn:Hr; cbn; [|discriminate].
    destruct (match_words d threshold rest) as [rs|e] eqn:Hrs; cbn; [|discriminate].
    intros [= <-].
    destruct (match_word_sound _ _ _ _ Hr) as [Hw Hs].
    destruct (IH rs eq_refl) as [Hws Hss].
    split; [cbn; congruence | constructor; assumption].
Qed.

(** X3.  When the time-overlap analysis returns, it returns the
    reference words in their order, and every record is sound: its
    ratio lies between 0 and 1, the user's start and end are both
    recorded or both missing, a word the user did not say is not matched
    and has ratio 0, and a word counts as matched in time exactly when
    the user said it and the ratio reaches the threshold. *)
Theorem analyze_time_overlap_records_sound
    (reference_words user_word_timestamps : list Segment) (threshold : R)
    (results : list TimeMatch) :
  analyze_time_overlap reference_words user_word_timestamps threshold = Ok results ->
  map t_word results = map word reference_words
  /\ Forall (sound_record threshold) results.
Proof.
  unfold analyze_time_overlap.
  destruct (build_user_words_dict user_word_timestamps ∅) as [d|e]; cbn; [|discriminate].
  apply match_words_sound.
Qed.

Lemma analyze_time_overlap_records_sound_witness :
  exists results : list TimeMatch,
    analyze_time_overlap the_reference the_user default_threshold = Ok results
    /\ map t_word results = map word the_reference
    /\ Forall (sound_record default_threshold) results.
Proof.
  destruct (build_user_words_dict_total the_user the_user_tokenizes ∅) as [d Hd].
  destruct (match_words_recorded d default_threshold the_reference
              the_reference_tokenizes) as [results [Hres _]].
  assert (H : analyze_time_overlap the_reference the_user default_threshold = Ok results).
  { unfold analyze_time_overlap. rewrite Hd. exact Hres. }
  exists results. split; [exact H|].
  exact (analyze_time_overlap_records_sound _ _ _ _ H).
Defined.

End OverlapRatio.

(** ** Frame-wise similarity on any input *)

Section FrameWiseAll.

Variable delta : nat -> nat -> matrix -> matrix.

Lemma similarity_of_normalized_unit (std_ratio : R) (a b : matrix) (v : R) :
  0 <= std_ratio ->
  similarity_of_normalized std_ratio a b = Ok v -> unit_interval v.
Proof.
  intros Hsr. unfold similarity_of_normalized.
  destruct (scale_columns a _) as [a'|]; cbn [mbind outcome_bind]; [|discriminate].
  destruct (scale_columns b _) as [b'|]; cbn [mbind outcome_bind]; [|discriminate].
  destruct (pad_shorter a' b') as [ap bp].
  destruct (subtract ap bp) as [diff|]; cbn [mbind outcome_bind]; [|discriminate].
  set (md := np_mean _).
  assert (Hmd : 0 <= md).
  { apply np_mean_nonneg, Forall_fmap, Forall_forall. intros row _. apply sqrt_pos. }
  pose proof (similarity_range md Hmd) as Hs.
  unfold unit_interval.
  destruct (Rlt_dec std_ratio 1); intros [= <-]; [nra | lra].
Qed.

Lemma similarity_body_unit (ref_mfcc user_mfcc : matrix) (v : R) :
  similarity_body delta ref_mfcc user_mfcc = Ok v -> unit_interval v.
Proof.
  unfold similarity_body, STD_THRESHOLD.
  pose proof (std_ratio_of_nonneg ref_mfcc user_mfcc) as Hsr.
  destruct (Rlt_dec (std_ratio_of ref_mfcc user_mfcc) 0.5).
  - intros [= <-]. unfold unit_interval. lra.
  - destruct (normalized_segments delta ref_mfcc user_mfcc) as [ref_norm user_norm].
    apply similarity_of_normalized_unit, Hsr.
Qed.

Lemma frame_wise_unit (ref_mfcc user_mfcc : matrix) :
  unit_interval (frame_wise_euclidean_similarity delta ref_mfcc user_mfcc).
Proof.
  unfold frame_wise_euclidean_similarity.
  destruct (_ || _); [unfold unit_interval; lra|].
  destruct (_ || _); [unfold unit_interval; lra|].
  destruct (similarity_body delta ref_mfcc user_mfcc) as [v|e] eqn:Hv.
  - eapply similarity_body_unit, Hv.
  - unfold unit_interval; lra.
Qed.

Lemma segment_similarity_unit (user_mfcc : matrix) (user_frame_times : list R)
    (start_ end_ : R) (segment : Segment) :
  unit_interval (segment_similarity delta user_mfcc user_frame_times start_ end_ segment).
Proof.
  unfold segment_similarity.
  destruct (mfcc segment) as [[|row rest]|]; try (unfold unit_interval; lra).
  destruct (_ =? _)%nat; [unfold unit_interval; lra|].
  destruct (_ =? _)%nat; [unfold unit_interval; lra|].
  apply frame_wise_unit.
Qed.

Lemma continuous_score_zero : continuous_score 0 = 0.
Proof.
  unfold continuous_score, np_interp, sim_points, score_points.
  destruct (Rlt_dec 0 0.00); [lra|].
  cbn [interp_from]. destruct (Rlt_dec 0 0.02); [|lra]. lra.
Qed.

(** The start of the first cached segment, 0 for an empty script. *)
Lemma compare_mfcc_segments_nth (cached_segments : list Segment)
    (user_mfcc : matrix) (user_frame_times : list R) (i : nat) (segment : Segment) :
  cached_segments !! i = Some segment ->
  compare_mfcc_segments delta cached_segments user_mfcc user_frame_times !! i
  = Some (let s := segment_similarity delta user_mfcc user_frame_times
                     (start_time segment - script_offset cached_segments)
                     (end_time segment - script_offset cached_segments) segment in
          {| m_word := word segment;
             similarity := Some s;
             adjusted_score := Some (continuous_score s / 100.0) |}).
Proof.
  intros Hi. unfold compare_mfcc_segments.
  rewrite list_lookup_fmap, Hi. reflexivity.
Qed.


End FrameWiseAll.


(** ** A segment against itself *)

Section SelfSimilarity.

Variable delta : nat -> nat -> matrix -> matrix.
Hypothesis delta_keeps_shape : keeps_shape delta.

Lemma zero_rows_distance (a : matrix) :
  map (fun row => sqrt (sum (map (fun x => x ^ 2) row)))
      (zip_with (zip_with Rminus) a a)
  = repeat 0 (length a).
Proof.
  induction a as [|row a IH]; [reflexivity|].
  cbn [zip_with map length repeat]. rewrite IH. f_equal.
  assert (Hz : sum (map (fun x => x ^ 2) (zip_with Rminus row row)) = 0).
  { clear. induction row as [|x row IH]; [reflexivity|].
    cbn [zip_with map]. unfold sum in *. cbn [fold_right]. rewrite IH. ring. }
  rewrite Hz. apply sqrt_0.
Qed.

Lemma similarity_of_normalized_same (std_ratio : R) (n : matrix) :
  rectangular 39 n -> n <> [] -> 1 <= std_ratio ->
  similarity_of_normalized std_ratio n n = Ok 1.
Proof.
  intros Hn Hne Hsr. unfold similarity_of_normalized.
  rewrite (rectangular_shape1 39 n Hn Hne).
  change (39 / 3)%nat with 13%nat.
  destruct (scale_columns_ok 39 n (weight_vector 13) Hn Hne (length_weight_vector 13))
    as [n' [-> [Hl Hr]]].
  cbn [mbind outcome_bind].
  assert (Hn'ne : n' <> []) by (intros ->; destruct n; [congruence | discriminate]).
  unfold pad_shorter. rewrite Nat.eqb_refl.
  rewrite (subtract_ok 39 n' n' Hr Hr Hn'ne eq_refl). cbn [mbind outcome_bind].
  rewrite zero_rows_distance, np_mean_repeat.
  - destruct (Rlt_dec std_ratio 1); [lra|]. f_equal. field.
  - destruct n'; [congruence | cbn; lia].
Qed.

(** X5.  A feature matrix of at least five frames whose coefficients
    vary scores exactly 1 against itself: the ratio of the standard
    deviations is 1, no penalty applies, and every frame distance is 0. *)
Theorem frame_wise_euclidean_similarity_self (m : matrix) :
  feature_matrix m -> (5 <= length m)%nat ->
  0 < _calculate_std_deviation m ->
  std_ratio_of m m = 1
  /\ frame_wise_euclidean_similarity delta m m = 1.
Proof.
  intros Hm Hlen Hstd.
  assert (Hratio : std_ratio_of m m = 1).
  { unfold std_ratio_of. destruct (Rlt_dec 0 (_calculate_std_deviation m)); [|contradiction].
    field. lra. }
  split; [exact Hratio|].
  rewrite frame_wise_long by assumption.
  unfold similarity_body, STD_THRESHOLD. rewrite Hratio.
  destruct (Rlt_dec 1 0.5); [lra|].
  pose proof (normalized_segments_shape delta delta_keeps_shape m m Hm Hm Hlen Hlen) as Hshape.
  unfold normalized_segments in *.
  destruct Hshape as [Hr [_ [Hl _]]].
  rewrite similarity_of_normalized_same; [reflexivity | exact Hr | | lra].
  intros E. rewrite E in Hl. cbn in Hl. lia.
Qed.

End SelfSimilarity.

Lemma frame_wise_euclidean_similarity_self_witness :
  frame_wise_euclidean_similarity difference_delta flat_energy flat_energy = 1.
Proof.
  apply (frame_wise_euclidean_similarity_self difference_delta
           difference_delta_keeps_shape flat_energy).
  - exact flat_energy_feature_matrix.
  - cbn. lia.
  - exact flat_energy_std_pos.
Defined.

(** ** Normalised columns *)

Section Centred.

Lemma sum_map_affine (mu s : R) (xs : list R) :
  sum (map (fun v => (v - mu) / s) xs) = (sum xs - len xs * mu) / s.
Proof.
  unfold sum, len. induction xs as [|x xs IH].
  - cbn. unfold Rdiv. ring.
  - cbn [map fold_right length]. rewrite IH, S_INR. unfold Rdiv. ring.
Qed.

Lemma len_map {A B} (f : A -> B) (xs : list A) : len (map f xs) = len xs.
Proof. unfold len. now rewrite length_map. Qed.

Lemma np_mean_map_affine (mu s : R) (xs : list R) :
  xs <> [] -> mu = np_mean xs ->
  np_mean (map (fun v => (v - mu) / s) xs) = 0.
Proof.
  intros Hne ->. unfold np_mean at 1. rewrite sum_map_affine.
  pose proof (len_pos xs Hne) as Hlen.
  unfold np_mean.
  replace (sum xs - len xs * (sum xs / len xs)) with 0 by (field; lra).
  unfold Rdiv. ring.
Qed.

Lemma sum_map_scale (c : R) (f : R -> R) (xs : list R) :
  sum (map (fun v => f v * c) xs) = sum (map f xs) * c.
Proof.
  unfold sum. induction xs as [|x xs IH]; cbn [map fold_right]; [ring|].
  rewrite IH. ring.
Qed.

Lemma np_std_map_affine (mu s : R) (xs : list R) :
  xs <> [] -> mu = np_mean xs -> 0 < s ->
  np_std (map (fun v => (v - mu) / s) xs) = np_std xs / s.
Proof.
  intros Hne Hmu Hs. unfold np_std at 1.
  rewrite (np_mean_map_affine mu s xs Hne Hmu).
  rewrite map_map.
  assert (Hsq : map (fun x => ((x - mu) / s - 0) ^ 2) xs
                = map (fun x => (x - mu) ^ 2 * / (s ^ 2)) xs).
  { apply map_ext. intros x. field. lra. }
  rewrite Hsq. unfold np_mean at 1.
  rewrite (sum_map_scale (/ s ^ 2) (fun x => (x - mu) ^ 2)), !len_map.
  unfold np_std. rewrite <- Hmu. unfold np_mean.
  replace (sum (map (fun x => (x - mu) ^ 2) xs) * / s ^ 2 / len xs)
    with (sum (map (fun x => (x - mu) ^ 2) xs) / len xs * / s ^ 2)
    by (unfold Rdiv; ring).
  rewrite sqrt_mult_alt.
  - replace (/ s ^ 2) with (Rsqr (/ s)) by (unfold Rsqr; field; lra).
    rewrite sqrt_Rsqr; [now rewrite len_map|].
    left. apply Rinv_0_lt_compat, Hs.
  - apply Rmult_le_pos.
    + apply sum_nonneg, Forall_fmap, Forall_forall. intros x _. cbn. apply pow2_ge_0.
    + left. apply Rinv_0_lt_compat, len_pos, Hne.
Qed.

(** X6.  [_apply_cmvn] centres and scales every column.  On a matrix of
    [d] columns and at least one frame the result has the same shape,
    each of its columns has mean 0, and the standard deviation of a
    column is that of the input column divided by itself plus 1e-9:
    below 1 always, and 0 for a constant column. *)
Theorem _apply_cmvn_centres_and_scales (d : nat) (m : matrix) (j : nat) :
  rectangular d m -> m <> [] -> (j < d)%nat ->
  let y := _apply_cmvn m in
  length y = length m
  /\ rectangular d y
  /\ np_mean (column j y) = 0
  /\ np_std (column j y) = np_std (column j m) / (np_std (column j m) + 1e-9)
  /\ 0 <= np_std (column j y) < 1.
Proof.
  intros Hm Hne Hj y. subst y.
  destruct (_apply_cmvn_z_scored d m Hm Hne) as [Hlen Hcol].
  specialize (Hcol j Hj).
  assert (Hcne : column j m <> []).
  { unfold column. destruct m; [congruence | discriminate]. }
  pose proof (np_std_nonneg (column j m)) as Hs.
  split; [exact Hlen|]. split; [apply rectangular__apply_cmvn, Hm|].
  rewrite Hcol.
  rewrite np_mean_map_affine by (assumption || reflexivity).
  rewrite np_std_map_affine by (assumption || reflexivity || lra).
  split; [reflexivity|]. split; [reflexivity|].
  split.
  - apply Rmult_le_pos; [assumption|]. left. apply Rinv_0_lt_compat. lra.
  - apply (Rmult_lt_reg_r (np_std (column j m) + 1e-9)); [lra|].
    unfold Rdiv. rewrite Rmult_assoc, Rinv_l by lra. lra.
Qed.

Lemma _apply_cmvn_centres_and_scales_witness :
  np_mean (column 1 (_apply_cmvn flat_energy)) = 0.
Proof.
  apply (_apply_cmvn_centres_and_scales 13 flat_energy 1).
  - exact flat_energy_rectangular.
  - discriminate.
  - lia.
Defined.

End Centred.

(** ** The clipped energy *)

Section Clipping.

Lemma rectangular_zip_with_cons (d : nat) (c : list R) (rest : matrix) :
  rectangular d rest -> rectangular (S d) (zip_with cons c rest).
Proof.
  intros Hrest. revert c. induction Hrest as [|row rest Hrow _ IH]; intros [|x c];
    cbn; try constructor.
  - cbn. now rewrite Hrow.
  - apply IH.
Qed.

Lemma np_clip_between (x lo hi : R) : lo <= hi -> lo <= np_clip x lo hi <= hi.
Proof. intros H. unfold np_clip, Rmin, Rmax. dec_R. Qed.

(** X7.  [cmvn_with_c0_clipping] keeps the shape of its input, and the
    energy coefficient it returns (column 0) lies between 0 and 1 in
    every frame. *)
Theorem cmvn_with_c0_clipping_energy_range (d : nat) (m : matrix) :
  rectangular (S d) m ->
  let y := cmvn_with_c0_clipping m in
  length y = length m
  /\ rectangular (S d) y
  /\ Forall unit_interval (column 0 y).
Proof.
  intros Hm y. subst y. unfold cmvn_with_c0_clipping, shape0.
  destruct (Nat.eqb_spec (length m) 0) as [Hz|Hnz].
  - destruct m; [|discriminate]. repeat split; constructor.
  - set (c0 := column 0 m).
    set (lo := np_percentile c0 5). set (hi := np_percentile c0 95).
    set (c0_norm := if Rlt_dec (hi - lo) 1e-6 then _ else _).
    set (rest_norm := cmvn_rows (map (@tl R) m)).
    assert (Hlc : length c0_norm = length m).
    { subst c0_norm c0. unfold column.
      destruct (Rlt_dec _ _); now rewrite !length_map. }
    assert (Hlr : length rest_norm = length m).
    { subst rest_norm. now rewrite length_cmvn_rows, length_map. }
    assert (Hrr : rectangular d rest_norm).
    { subst rest_norm. apply rectangular_cmvn_rows.
      apply Forall_fmap. eapply Forall_impl; [exact Hm|].
      intros [|x row] Hrow; cbn in *; [discriminate | lia]. }
    split; [rewrite length_zip_with; lia|].
    split; [apply rectangular_zip_with_cons, Hrr|].
    rewrite column_zip_with_cons by congruence.
    subst c0_norm. destruct (Rlt_dec (hi - lo) 1e-6) as [Hflat|Hwide].
    + apply Forall_fmap, Forall_forall. intros x _. cbn. unfold unit_interval. lra.
    + apply Forall_fmap, Forall_forall. intros x _. cbn.
      pose proof (np_clip_between x lo hi) as Hc.
      assert (Hpos : 0 < hi - lo) by lra.
      destruct Hc as [Hc1 Hc2]; [lra|].
      unfold unit_interval. split.
      * apply Rmult_le_pos; [lra|]. left. apply Rinv_0_lt_compat, Hpos.
      * apply (Rmult_le_reg_r (hi - lo)); [exact Hpos|].
        unfold Rdiv. rewrite Rmult_assoc, Rinv_l by lra. lra.
Qed.

Lemma cmvn_with_c0_clipping_energy_range_witness :
  Forall unit_interval (column 0 (cmvn_with_c0_clipping flat_energy)).
Proof.
  apply (cmvn_with_c0_clipping_energy_range 12 flat_energy).
  exact flat_energy_rectangular.
Defined.

End Clipping.

(** ** Derivative features of any clip *)

Section DeltaAny.

Variable delta : nat -> nat -> matrix -> matrix.
Hypothesis delta_keeps_shape : keeps_shape delta.

Lemma rectangular_pad_edge (d : nat) (m : matrix) (before after : nat) :
  rectangular d m -> m <> [] ->
  rectangular d (pad_edge before after m)
  /\ length (pad_edge before after m) = (before + length m + after)%nat.
Proof.
  intros Hm Hne. unfold pad_edge. split.
  - apply Forall_app. split; [|apply Forall_app; split; [exact Hm|]].
    + apply Forall_forall. intros row Hrow.
      apply list_elem_of_In, repeat_spec in Hrow. subst row.
      destruct m as [|row0 rest]; [congruence|]. cbn. now apply Forall_inv in Hm.
    + apply Forall_forall. intros row Hrow.
      apply list_elem_of_In, repeat_spec in Hrow. subst row.
      pose proof (last_in m [] Hne) as Hin. apply list_elem_of_In in Hin.
      exact (proj1 (Forall_forall _ _) Hm _ Hin).
  - rewrite !length_app, !repeat_length. lia.
Qed.

Lemma rectangular_slice (d : nat) (m : matrix) (lo hi : nat) :
  rectangular d m -> rectangular d (slice m lo hi).
Proof. intros Hm. unfold slice. apply Forall_take, Forall_drop, Hm. Qed.

Lemma length_slice {A} (l : list A) (lo hi : nat) :
  (hi <= length l)%nat -> length (slice l lo hi) = (hi - lo)%nat.
Proof. intros H. unfold slice. rewrite length_firstn, length_skipn. lia. Qed.

Lemma joined_shape (d : nat) (m d1 d2 : matrix) :
  rectangular d m -> rectangular d d1 -> rectangular d d2 ->
  length d1 = length m -> length d2 = length m ->
  let y := zip_with (@app R) (zip_with (@app R) m d1) d2 in
  length y = length m
  /\ rectangular (d + d + d) y
  /\ forall j : nat, (j < d)%nat -> column j y = column j m.
Proof.
  intros Hm H1 H2 Hl1 Hl2 y. subst y. split; [|split].
  - rewrite !length_zip_with. lia.
  - apply rectangular_zip_with_app; [|exact H2].
    now apply rectangular_zip_with_app.
  - intros j Hj.
    rewrite (column_zip_with_app_l (d + d)).
    + now apply (column_zip_with_app_l d).
    + now apply rectangular_zip_with_app.
    + lia.
    + rewrite length_zip_with. lia.
Qed.

Lemma _add_delta_features_shape_cols (d : nat) (m : matrix) :
  rectangular d m -> m <> [] ->
  let y := _add_delta_features delta m in
  length y = length m
  /\ rectangular (d + d + d) y
  /\ forall j : nat, (j < d)%nat -> column j y = column j m.
Proof.
  intros Hm Hne. unfold _add_delta_features, shape0.
  destruct (Nat.eqb_spec (length m) 0) as [Hz|Hnz].
  { destruct m; [congruence | discriminate]. }
  destruct (Nat.ltb_spec (length m) 5) as [Hshort|Hlong].
  - replace (Nat.max 0 (5 - length m)) with (5 - length m)%nat by lia.
    destruct (Nat.ltb_spec 0 (5 - length m)) as [_|Hp]; [|lia].
    destruct (rectangular_pad_edge d m (5 - length m) (5 - length m) Hm Hne)
      as [Hpr Hpl].
    destruct (delta_keeps_shape 1%nat 3%nat d _ Hpr) as [Hl1 Hr1].
    destruct (delta_keeps_shape 2%nat 3%nat d _ Hpr) as [Hl2 Hr2].
    apply joined_shape; try assumption.
    + now apply rectangular_slice.
    + now apply rectangular_slice.
    + rewrite length_slice; lia.
    + rewrite length_slice; lia.
  - assert (Hpair : forall width,
              let y := zip_with (@app R) (zip_with (@app R) m (delta 1%nat width m))
                                (delta 2%nat width m) in
              length y = length m
              /\ rectangular (d + d + d) y
              /\ forall j : nat, (j < d)%nat -> column j y = column j m).
    { intros width.
      destruct (delta_keeps_shape 1%nat width d m Hm) as [Hl1 Hr1].
      destruct (delta_keeps_shape 2%nat width d m Hm) as [Hl2 Hr2].
      now apply joined_shape. }
    destruct (length m <? 9)%nat; apply Hpair.
Qed.


(** X8.  [_add_delta_features] on a clip of any length.  Given a filter
    that keeps shapes, a matrix of [d] coefficients and at least one
    frame comes back with the same number of frames and three times the
    coefficients, the first [d] of them being the input's; this holds
    for clips of fewer than five frames as well, where the clip is
    padded before the filter and cut back after it. *)
Theorem _add_delta_features_shape_any (d : nat) (m : matrix) :
  rectangular d m -> m <> [] ->
  let y := _add_delta_features delta m in
  length y = length m
  /\ rectangular (d + d + d) y
  /\ forall j : nat, (j < d)%nat -> column j y = column j m.
Proof. apply _add_delta_features_shape_cols. Qed.

End DeltaAny.

Lemma three_frames_rectangular : rectangular 1 three_frames.
Proof. repeat constructor. Qed.

Lemma _add_delta_features_shape_any_witness :
  length (_add_delta_features difference_delta three_frames) = 3%nat.
Proof.
  apply (_add_delta_features_shape_any difference_delta difference_delta_keeps_shape
           1 three_frames).
  - exact three_frames_rectangular.
  - discriminate.
Defined.

(** ** The frames of a time window *)

Section Window.

Lemma first_index_le (test : R -> bool) (a : list R) :
  (first_index test a <= length a)%nat.
Proof. induction a as [|t a IH]; cbn; [lia|]. destruct (test t); cbn; lia. Qed.

Lemma frames_within_none (mfcc : matrix) (frame_times : list R) (start_ end_ : R) :
  Forall (fun t => end_ < t) frame_times ->
  frames_within mfcc frame_times start_ end_ = [].
Proof.
  intros Hall. revert mfcc.
  induction Hall as [|t a Ht _ IH]; intros [|row mfcc]; cbn; try reflexivity.
  rewrite (Rleb_false t end_) by exact Ht. rewrite andb_false_r. apply IH.
Qed.

Lemma first_index_zero (test : R -> bool) (a : list R) :
  Forall (fun t => test t = true) a -> first_index test a = O.
Proof. intros [|t a' Ht _]; cbn; [reflexivity | now rewrite Ht]. Qed.

Lemma slice_cons_S {A} (x : A) (l : list A) (lo hi : nat) :
  slice (x :: l) (S lo) (S hi) = slice l lo hi.
Proof. reflexivity. Qed.

Lemma slice_frames_within (frame_times : list R) :
  StronglySorted Rle frame_times ->
  forall (mfcc : matrix) (start_ end_ : R),
    length frame_times = length mfcc ->
    slice mfcc (first_index (fun t => Rleb start_ t) frame_times)
               (first_index (fun t => Rltb end_ t) frame_times)
    = frames_within mfcc frame_times start_ end_.
Proof.
  induction 1 as [|t a Hsorted IH Hall]; intros [|row mfcc] start_ end_ Hlen;
    try discriminate; [reflexivity|].
  cbn in Hlen. injection Hlen as Hlen.
  cbn [first_index frames_within].
  destruct (Rle_dec start_ t) as [Hs|Hs]; destruct (Rlt_dec end_ t) as [He|He].
  - (* start <= t, end < t *)
    rewrite (Rleb_true start_ t), (Rltb_true end_ t), (Rleb_false t end_) by lra.
    cbn [andb]. unfold slice. cbn. symmetry. apply frames_within_none.
    eapply Forall_impl; [exact Hall|]. cbn. intros; lra.
  - (* start <= t <= end *)
    rewrite (Rleb_true start_ t), (Rltb_false end_ t), (Rleb_true t end_) by lra.
    cbn [andb]. unfold slice. cbn [skipn]. rewrite Nat.sub_0_r. cbn [firstn]. f_equal.
    rewrite <- (IH mfcc start_ end_ Hlen).
    rewrite (first_index_zero (fun t0 => Rleb start_ t0) a).
    + unfold slice. now rewrite Nat.sub_0_r.
    + eapply Forall_impl; [exact Hall|]. cbn. intros t' Ht'. apply Rleb_true. lra.
  - (* t < start, end < t *)
    rewrite (Rleb_false start_ t), (Rltb_true end_ t) by lra.
    cbn [andb]. unfold slice. cbn. symmetry. apply frames_within_none.
    eapply Forall_impl; [exact Hall|]. cbn. intros; lra.
  - (* t < start, t <= end *)
    rewrite (Rleb_false start_ t), (Rltb_false end_ t) by lra.
    cbn [andb]. rewrite slice_cons_S. apply IH, Hlen.
Qed.

Lemma extract_mfcc_segment_sorted (mfcc : matrix) (frame_times : list R)
    (start_time end_time : R) :
  StronglySorted Rle frame_times -> length frame_times = length mfcc ->
  extract_mfcc_segment mfcc frame_times start_time end_time
  = if (length (frames_within mfcc frame_times start_time end_time) <? 5)%nat
    then []
    else frames_within mfcc frame_times start_time end_time.
Proof.
  intros Hsorted Hlen. unfold extract_mfcc_segment, MIN_FRAMES.
  rewrite (searchsorted_left_first_index _ _ Hsorted),
          (searchsorted_right_first_index _ _ Hsorted).
  pose proof (first_index_le (fun t => Rleb start_time t) frame_times) as H1.
  pose proof (first_index_le (fun t => Rltb end_time t) frame_times) as H2.
  rewrite Nat.max_0_l, (Nat.min_r _ _) by lia.
  rewrite <- (slice_frames_within frame_times Hsorted mfcc start_time end_time Hlen).
  rewrite length_slice by lia.
  set (i1 := first_index (fun t => Rleb start_time t) frame_times) in *.
  set (i2 := first_index (fun t => Rltb end_time t) frame_times) in *.
  destruct (Z.ltb_spec (Z.of_nat i2 - Z.of_nat i1) (Z.of_nat 5)) as [Hlt|Hge];
    destruct (Nat.ltb_spec (i2 - i1) 5) as [Hlt'|Hge']; try reflexivity; lia.
Qed.

(** X9.  [extract_mfcc_segment] on frame times in increasing order, one
    per frame: the result is made of exactly the frames whose time lies
    in the closed window from [start_time] to [end_time], in order, when
    there are at least five of them, and it is empty otherwise; so the
    function never returns one to four frames. *)
Theorem extract_mfcc_segment_window (mfcc : matrix) (frame_times : list R)
    (start_time end_time : R) :
  StronglySorted Rle frame_times -> length frame_times = length mfcc ->
  let segment := extract_mfcc_segment mfcc frame_times start_time end_time in
  let inside := frames_within mfcc frame_times start_time end_time in
  ((5 <= length inside)%nat -> segment = inside)
  /\ ((length inside < 5)%nat -> segment = [])
  /\ (segment = [] \/ (5 <= length segment)%nat).
Proof.
  intros Hsorted Hlen segment inside. subst segment inside.
  rewrite (extract_mfcc_segment_sorted _ _ _ _ Hsorted Hlen).
  destruct (Nat.ltb_spec (length (frames_within mfcc frame_times start_time end_time)) 5).
  - split; [lia|]. split; [reflexivity|]. left. reflexivity.
  - split; [reflexivity|]. split; [lia|]. right. assumption.
Qed.

Lemma five_times_sorted : StronglySorted Rle five_times.
Proof.
  unfold five_times.
  repeat (constructor; [|repeat (constructor; [lra|]); constructor]).
  constructor.
Qed.

Lemma extract_mfcc_segment_window_witness :
  extract_mfcc_segment five_frames five_times 0.1 0.6 = [].
Proof.
  apply (extract_mfcc_segment_window five_frames five_times 0.1 0.6).
  - exact five_times_sorted.
  - reflexivity.
  - cbn [frames_within five_frames five_times].
    rewrite (Rleb_false 0.1 0) by lra. cbn [andb].
    rewrite (Rleb_true 0.1 0.25), (Rleb_true 0.25 0.6) by lra. cbn [andb].
    rewrite (Rleb_true 0.1 0.5), (Rleb_true 0.5 0.6) by lra. cbn [andb].
    rewrite (Rleb_true 0.1 0.75), (Rleb_false 0.75 0.6) by lra. cbn [andb].
    rewrite (Rleb_true 0.1 1), (Rleb_false 1 0.6) by lra. cbn [andb].
    cbn. lia.
Defined.

End Window.

(** ** The character table *)

Section Lcs.

Lemma lcs_row_bound (k : nat) (ai : ascii) (b : list ascii) :
  forall (up_row : list nat) (diag left : nat),
    (diag <= k)%nat -> (left <= S k)%nat ->
    Forall (fun v => (v <= k)%nat) up_row ->
    Forall (fun v => (v <= S k)%nat) (lcs_row ai b up_row diag left).
Proof.
  induction b as [|bj b IH]; intros [|up up_row] diag left Hd Hl Hup;
    cbn [lcs_row]; try constructor.
  - apply Forall_inv in Hup. destruct (Ascii.eqb ai bj); lia.
  - apply IH.
    + now apply Forall_inv in Hup.
    + apply Forall_inv in Hup. destruct (Ascii.eqb ai bj); lia.
    + now apply Forall_inv_tail in Hup.
Qed.

Lemma lcs_rows_bound (b a : list ascii) :
  forall (k : nat) (row : list nat),
    Forall (fun v => (v <= k)%nat) row ->
    Forall (fun v => (v <= k + length a)%nat)
           (fold_left (fun row ai => O :: lcs_row ai b (tl row) (hd O row) O) a row).
Proof.
  induction a as [|ai a IH]; intros k row Hrow; cbn [fold_left length].
  - rewrite Nat.add_0_r. exact Hrow.
  - replace (k + S (length a))%nat with (S k + length a)%nat by lia.
    apply IH. constructor; [lia|].
    apply lcs_row_bound.
    + destruct Hrow; cbn; [lia | assumption].
    + lia.
    + destruct Hrow; cbn; [constructor | assumption].
Qed.

Lemma last_bound (k : nat) (l : list nat) :
  Forall (fun v => (v <= k)%nat) l -> (List.last l O <= k)%nat.
Proof.
  induction 1 as [|x l Hx Hl IH]; cbn; [lia|].
  destruct l; [exact Hx | exact IH].
Qed.

Lemma lcs_last_bound (a b : list ascii) :
  (List.last (lcs_last_row a b) O <= length a)%nat.
Proof.
  apply last_bound. unfold lcs_last_row.
  apply (lcs_rows_bound b a 0).
  apply Forall_forall. intros v Hv. apply list_elem_of_In, repeat_spec in Hv. lia.
Qed.

Lemma length_lcs_row (ai : ascii) (b : list ascii) :
  forall (up_row : list nat) (diag left : nat),
    length b = length up_row ->
    length (lcs_row ai b up_row diag left) = length b.
Proof.
  induction b as [|bj b IH]; intros [|up up_row] diag left Hlen;
    cbn [lcs_row length] in *; try reflexivity; try discriminate.
  f_equal. apply IH. lia.
Qed.

Lemma lcs_row_diagonal (ai : ascii) :
  forall (j : nat) (b : list ascii) (up_row : list nat) (diag left : nat),
    b !! j = Some ai -> (j < length up_row)%nat ->
    nth j (lcs_row ai b up_row diag left) O = S (nth j (diag :: up_row) O).
Proof.
  induction j as [|j IH]; intros [|bj b] [|up up_row] diag left Hb Hlen;
    cbn in Hb, Hlen; try discriminate; try lia; cbn [lcs_row nth].
  - injection Hb as ->. now rewrite Ascii.eqb_refl.
  - rewrite IH; [reflexivity | exact Hb | lia].
Qed.

(** After the rows of a prefix [pre] of the word itself, the table has
    [length pre] on its diagonal. *)
Lemma lcs_rows_diagonal (suf : list ascii) :
  forall (pre : list ascii) (row : list nat),
    length row = S (length (pre ++ suf)) ->
    nth (length pre) row O = length pre ->
    let last_row :=
      fold_left (fun row ai => O :: lcs_row ai (pre ++ suf) (tl row) (hd O row) O)
                suf row in
    length last_row = S (length (pre ++ suf))
    /\ nth (length (pre ++ suf)) last_row O = length (pre ++ suf).
Proof.
  induction suf as [|x suf IH]; intros pre row Hlen Hdiag; cbn [fold_left].
  - rewrite app_nil_r in *. split; assumption.
  - replace (pre ++ x :: suf) with ((pre ++ [x]) ++ suf) in *
      by (rewrite <- app_assoc; reflexivity).
    apply IH.
    + cbn [length]. f_equal. apply length_lcs_row.
      destruct row; cbn in *; [discriminate | lia].
    + rewrite length_app. cbn [length]. rewrite Nat.add_1_r. cbn [nth].
      rewrite lcs_row_diagonal.
      * f_equal. destruct row as [|r0 row]; [discriminate|]. exact Hdiag.
      * rewrite <- app_assoc. cbn. rewrite lookup_app_r by lia.
        now rewrite Nat.sub_diag.
      * destruct row; cbn in *; [discriminate|].
        rewrite !length_app in Hlen. cbn in Hlen. lia.
Qed.

Lemma last_nth {A} (l : list A) (d : A) : List.last l d = nth (length l - 1) l d.
Proof.
  induction l as [|x l IH]; [reflexivity|].
  destruct l as [|y l]; [reflexivity|].
  cbn [List.last] in *. rewrite IH. cbn. now rewrite Nat.sub_0_r.
Qed.

Lemma lcs_last_self (a : list ascii) : List.last (lcs_last_row a a) O = length a.
Proof.
  unfold lcs_last_row.
  destruct (lcs_rows_diagonal a [] (repeat O (S (length a)))) as [Hlen Hdiag].
  - now rewrite repeat_length.
  - reflexivity.
  - cbn [app] in *. rewrite last_nth, Hlen. cbn. rewrite Nat.sub_0_r. exact Hdiag.
Qed.

Lemma lcs_ratio_unit (a b : string) : 0 <= compute_char_lcs_ratio a b <= 1.
Proof.
  unfold compute_char_lcs_ratio.
  set (la := list_ascii_of_string a). set (lb := list_ascii_of_string b).
  destruct (Nat.ltb_spec 0 (Nat.max (length la) (length lb))) as [Hpos|Hz]; [|lra].
  pose proof (lcs_last_bound la lb) as Hb.
  assert (Hle : (List.last (lcs_last_row la lb) O <= Nat.max (length la) (length lb))%nat)
    by lia.
  apply le_INR in Hle. apply lt_INR in Hpos. cbn in Hpos.
  pose proof (pos_INR (List.last (lcs_last_row la lb) O)) as H0.
  split.
  - apply Rmult_le_pos; [assumption|]. left. now apply Rinv_0_lt_compat.
  - apply (Rmult_le_reg_r (INR (Nat.max (length la) (length lb)))); [assumption|].
    unfold Rdiv. rewrite Rmult_assoc, Rinv_l by lra. lra.
Qed.

(** X10.  [compute_char_lcs_ratio] is a fraction: whatever the two
    words, the ratio lies between 0 and 1.  A word that is not empty has
    ratio 1 with itself, and two empty words have ratio 0. *)
Theorem compute_char_lcs_ratio_range (a b : string) :
  0 <= compute_char_lcs_ratio a b <= 1
  /\ (a <> EmptyString -> compute_char_lcs_ratio a a = 1)
  /\ compute_char_lcs_ratio EmptyString EmptyString = 0.
Proof.
  split; [|split].
  - apply lcs_ratio_unit.
  - intros Hne. unfold compute_char_lcs_ratio.
    set (la := list_ascii_of_string a).
    assert (Hlen : (0 < length la)%nat).
    { subst la. destruct a; [congruence | cbn; lia]. }
    rewrite Nat.max_id, lcs_last_self.
    destruct (Nat.ltb_spec 0 (length la)); [|lia].
    apply lt_INR in Hlen. cbn in Hlen. field. lra.
  - unfold compute_char_lcs_ratio. cbn. reflexivity.
Qed.

Lemma compute_char_lcs_ratio_range_witness :
  compute_char_lcs_ratio "hello" "hello" = 1.
Proof.
  apply (compute_char_lcs_ratio_range "hello" "hello"). discriminate.
Defined.

End Lcs.

(** ** Normalised tokens *)

Section Tokens.

Lemma lower_char_not_upper (c : ascii) : is_upper (lower_char c) = false.
Proof. destruct c as [[] [] [] [] [] [] [] []]; reflexivity. Qed.

Lemma apostrophe_not_upper : is_upper apostrophe = false.
Proof. reflexivity. Qed.

(** Induction on a list by the length of the list. *)
Lemma list_length_ind {A} (P : list A -> Prop) :
  (forall l, (forall l', (length l' < length l)%nat -> P l') -> P l) ->
  forall l, P l.
Proof.
  intros Hstep l.
  assert (H : forall n l', (length l' < n)%nat -> P l').
  { induction n as [|n IH]; intros l' Hl'; [lia|].
    apply Hstep. intros l'' Hl''. apply IH. lia. }
  apply (H (S (length l))). lia.
Qed.

Lemma replace_apostrophe_cons (a : ascii) (tl : list ascii) :
  replace_apostrophe (a :: tl)
  = match tl with
    | b :: c :: rest =>
        if ((code a =? 226) && (code b =? 128) && (code c =? 153))%nat
        then apostrophe :: replace_apostrophe rest
        else a :: replace_apostrophe tl
    | _ => a :: replace_apostrophe tl
    end.
Proof. destruct tl as [|b [|c rest]]; reflexivity. Qed.

Lemma replace_apostrophe_Forall (P : ascii -> Prop) (l : list ascii) :
  P apostrophe -> Forall P l -> Forall P (replace_apostrophe l).
Proof.
  intros Hap. induction l as [l IH] using list_length_ind. intros Hl.
  destruct l as [|a tl]; [constructor|].
  rewrite replace_apostrophe_cons.
  pose proof (Forall_inv Hl) as Ha. pose proof (Forall_inv_tail Hl) as Htl.
  assert (Hdef : Forall P (a :: replace_apostrophe tl)).
  { constructor; [exact Ha|]. apply IH; [cbn; lia | exact Htl]. }
  destruct tl as [|b [|c rest]]; try exact Hdef.
  destruct (_ && _)%bool; [|exact Hdef].
  constructor; [exact Hap|]. apply IH; [cbn; lia|].
  now apply Forall_inv_tail, Forall_inv_tail in Htl.
Qed.

Lemma replace_apostrophe_In (x : ascii) (l : list ascii) :
  (code x < 128)%nat -> In x l -> In x (replace_apostrophe l).
Proof.
  intros Hx. induction l as [l IH] using list_length_ind. intros Hin.
  destruct l as [|a tl]; [contradiction|].
  rewrite replace_apostrophe_cons.
  assert (Hdef : In x (a :: replace_apostrophe tl)).
  { destruct Hin as [->|Hin]; [now left|]. right. apply IH; [cbn; lia | exact Hin]. }
  destruct tl as [|b [|c rest]]; try exact Hdef.
  destruct (Nat.eqb_spec (code a) 226) as [Ea|]; [|exact Hdef].
  destruct (Nat.eqb_spec (code b) 128) as [Eb|]; [|exact Hdef].
  destruct (Nat.eqb_spec (code c) 153) as [Ec|]; [|exact Hdef].
  cbn [andb]. right.
  destruct Hin as [->|[->|[->|Hin]]]; try lia.
  apply IH; [cbn; lia | exact Hin].
Qed.

Lemma collapse_spaces_Forall (P : ascii -> Prop) (l : list ascii) :
  P space -> Forall P l -> forall in_run, Forall P (collapse_spaces in_run l).
Proof.
  intros Hsp. induction 1 as [|c l Hc _ IH]; intros in_run; cbn; [constructor|].
  destruct (is_space c).
  - destruct in_run; [apply IH | constructor; [exact Hsp | apply IH]].
  - constructor; [exact Hc | apply IH].
Qed.

Lemma collapse_spaces_In (x : ascii) (l : list ascii) :
  is_space x = false -> In x l -> forall in_run, In x (collapse_spaces in_run l).
Proof.
  intros Hx. induction l as [|c l IH]; intros Hin in_run; [contradiction|].
  cbn. destruct Hin as [->|Hin].
  - rewrite Hx. now left.
  - destruct (is_space c).
    + destruct in_run; [now apply IH | right; now apply IH].
    + right. now apply IH.
Qed.

Lemma lstrip_Forall (P : ascii -> Prop) (l : list ascii) :
  Forall P l -> Forall P (lstrip l).
Proof.
  induction 1 as [|c l Hc Hl IH]; cbn; [constructor|].
  destruct (is_space c); [exact IH | now constructor].
Qed.

Lemma lstrip_In (x : ascii) (l : list ascii) :
  is_space x = false -> In x l -> In x (lstrip l).
Proof.
  intros Hx. induction l as [|c l IH]; intros Hin; [contradiction|].
  cbn. destruct (is_space c) eqn:Ec; [|exact Hin].
  destruct Hin as [->|Hin]; [congruence | now apply IH].
Qed.

Lemma strip_Forall (P : ascii -> Prop) (l : list ascii) :
  Forall P l -> Forall P (strip l).
Proof.
  intros Hl. unfold strip.
  apply Forall_rev, lstrip_Forall, Forall_rev, lstrip_Forall, Hl.
Qed.

Lemma strip_In (x : ascii) (l : list ascii) :
  is_space x = false -> In x l -> In x (strip l).
Proof.
  intros Hx Hin. unfold strip.
  apply in_rev. rewrite rev_involutive.
  apply lstrip_In; [exact Hx|]. apply -> in_rev. now apply lstrip_In.
Qed.

Lemma string_of_list_nonempty (l : list ascii) :
  l <> [] -> string_of_list_ascii l <> EmptyString.
Proof. destruct l; [congruence | discriminate]. Qed.

Lemma split_spaces_tokens (P : ascii -> Prop) (text : list ascii) :
  Forall (fun c => is_space c = true \/ P c) text ->
  forall cur : list ascii,
    Forall P cur ->
    Forall (fun tok => tok <> EmptyString /\ Forall P (list_ascii_of_string tok))
           (split_spaces cur text).
Proof.
  induction 1 as [|c text Hc _ IH]; intros cur Hcur; cbn [split_spaces].
  - destruct cur as [|x cur]; constructor; [|constructor].
    split.
    + apply string_of_list_nonempty. intros E. apply (f_equal (@length ascii)) in E.
      rewrite length_rev in E. discriminate.
    + rewrite list_ascii_of_string_of_list_ascii. apply Forall_rev, Hcur.
  - destruct (is_space c) eqn:Ec.
    + destruct cur as [|x cur]; [apply IH; constructor|].
      constructor; [|apply IH; constructor].
      split.
      * apply string_of_list_nonempty. intros E. apply (f_equal (@length ascii)) in E.
        rewrite length_rev in E. discriminate.
      * rewrite list_ascii_of_string_of_list_ascii. apply Forall_rev, Hcur.
    + apply IH. constructor; [|exact Hcur].
      destruct Hc as [Hc|Hc]; [congruence | exact Hc].
Qed.

Lemma split_spaces_nonempty (text : list ascii) :
  forall cur : list ascii,
    cur <> [] \/ Exists (fun c => is_space c = false) text ->
    split_spaces cur text <> [].
Proof.
  induction text as [|c text IH]; intros cur H; cbn [split_spaces].
  - destruct H as [H|H]; [|inversion H]. destruct cur; [congruence | discriminate].
  - destruct (is_space c) eqn:Ec.
    + destruct cur; [|discriminate]. apply IH. right.
      destruct H as [H|H]; [congruence|].
      inversion H; subst; [congruence | assumption].
    + apply IH. left. discriminate.
Qed.

Lemma kept_or_space (c : ascii) :
  is_upper c = false ->
  is_word_char c || is_space c || Ascii.eqb c apostrophe = true ->
  is_space c = true \/ (is_space c = false /\ token_char c = true).
Proof.
  intros Hup Hkeep. unfold token_char. unfold is_word_char in Hkeep.
  rewrite Hup in Hkeep. cbn [orb] in Hkeep.
  destruct (is_space c); [now left | right]. split; [reflexivity|].
  rewrite orb_false_r in Hkeep. exact Hkeep.
Qed.

(** X11.  Every token that [normalize_and_tokenize] returns is clean:
    it is not empty and it is made of lower-case letters, digits,
    underscores and apostrophes only; no token holds white space, an
    upper-case letter or a punctuation mark. *)
Theorem normalize_and_tokenize_clean (text : string) :
  Forall clean_token (normalize_and_tokenize text).
Proof.
  unfold normalize_and_tokenize.
  set (l0 := lower (list_ascii_of_string text)).
  assert (H0 : Forall (fun c => is_upper c = false) l0).
  { subst l0. unfold lower. apply Forall_fmap, Forall_forall. intros c _.
    apply lower_char_not_upper. }
  pose proof (replace_apostrophe_Forall _ l0 apostrophe_not_upper H0) as H1.
  set (l1 := replace_apostrophe l0) in *.
  assert (H2 : Forall (fun c => is_space c = true
                                \/ (is_space c = false /\ token_char c = true))
                      (strip_punctuation l1)).
  { unfold strip_punctuation. apply Forall_forall. intros c Hc.
    apply list_elem_of_In, filter_In in Hc. destruct Hc as [Hin Hkeep].
    apply kept_or_space; [|exact Hkeep].
    apply list_elem_of_In in Hin. exact (proj1 (Forall_forall _ _) H1 c Hin). }
  set (l2 := strip_punctuation l1) in *.
  pose proof (collapse_spaces_Forall _ l2 (or_introl eq_refl) H2 false) as H3.
  apply strip_Forall in H3.
  pose proof (split_spaces_tokens _ _ H3 [] (List.Forall_nil _)) as H4.
  eapply Forall_impl; [exact H4|].
  intros tok [Hne Hall]. split; [exact Hne|].
  eapply Forall_impl; [exact Hall|]. cbn. intros c [_ Hc]. exact Hc.
Qed.

Lemma alphanumeric_lower_char (c : ascii) :
  alphanumeric c = true ->
  alphanumeric (lower_char c) = true
  /\ is_space (lower_char c) = false
  /\ (code (lower_char c) <? 128)%nat = true
  /\ is_word_char (lower_char c) = true.
Proof.
  destruct c as [[] [] [] [] [] [] [] []]; vm_compute; intros H;
    try discriminate; repeat split.
Qed.

(** A word with a letter or a digit has a normalised token. *)
Lemma alphanumeric_tokenizes (w : string) (c : ascii) :
  In c (list_ascii_of_string w) -> alphanumeric c = true ->
  normalize_and_tokenize w <> [].
Proof.
  intros Hin Hc. unfold normalize_and_tokenize.
  destruct (alphanumeric_lower_char c Hc) as [_ [Hsp [Hcode Hword]]].
  apply split_spaces_nonempty. right.
  apply Exists_exists. exists (lower_char c). split; [|exact Hsp].
  apply list_elem_of_In.
  apply strip_In; [exact Hsp|].
  apply collapse_spaces_In; [exact Hsp|].
  unfold strip_punctuation. apply filter_In. split; [|now rewrite Hword].
  apply replace_apostrophe_In; [now apply Nat.ltb_lt|].
  unfold lower. now apply in_map.
Qed.

End Tokens.

(** ** The text comparison as a whole *)

Section TextResults.

Lemma max_by_in {A} (key : A -> R) (rest : list A) :
  forall best : A, In (max_by key best rest) (best :: rest).
Proof.
  induction rest as [|x rest IH]; intros best; cbn [max_by]; [now left|].
  destruct (Rlt_dec (key best) (key x)).
  - right. apply IH.
  - destruct (IH best) as [H|H]; [left; exact H | right; right; exact H].
Qed.

Lemma score_word_sound (user_normalized : list Segment) (ref : Segment) :
  r_word (score_word user_normalized ref) = word ref
  /\ sound_text_result (score_word user_normalized ref)
  /\ (Forall (fun u => probability (confidence u)) user_normalized ->
      probability (r_confidence (score_word user_normalized ref))).
Proof.
  unfold score_word, sound_text_result, LCS_THRESH.
  destruct (List.filter _ user_normalized) as [|c cs] eqn:Hf.
  - cbn. repeat split; try lra; try discriminate.
  - set (best := max_by _ c cs).
    assert (Hbest : In best user_normalized).
    { assert (H : In best (c :: cs)) by apply max_by_in.
      rewrite <- Hf in H. apply filter_In in H. tauto. }
    set (sim := if word_match_with_normalization (word ref) (word best) then 1
                else compute_char_lcs_ratio (word ref) (word best)).
    assert (Hsim : 0 <= sim <= 1).
    { subst sim. destruct (word_match_with_normalization _ _); [lra|].
      apply lcs_ratio_unit. }
    destruct (Rlt_dec sim 0.6) as [Hlow|Hhigh]; cbn.
    + repeat split; try lra; try discriminate.
    + split; [reflexivity|]. split.
      * split; [exact Hsim|]. split; [intros _; lra | discriminate].
      * intros Hall.
        pose proof (proj1 (Forall_forall _ _) Hall best
                      (proj2 (list_elem_of_In _ _) Hbest)) as Hp.
        cbn beta in Hp.
        destruct (confidence best); [exact Hp | cbn; unfold unit_interval; lra].
Qed.

Lemma parse_token_confidence (token : Token) :
  probability (p token) ->
  Forall (fun u => probability (confidence u)) (parse_token token).
Proof.
  intros Hp. unfold parse_token.
  destruct (text token) as [t|]; [|constructor].
  destruct (startswith_bracket t); [constructor|].
  destruct (str_strip t); [constructor|].
  constructor; [|constructor]. cbn.
  destruct (p token); [exact Hp | unfold unit_interval; lra].
Qed.

Lemma parse_whisper_cpp_result_confidence (whisper_json : WhisperJson) :
  Forall (Forall (fun token => probability (p token))) whisper_json ->
  Forall (fun u => probability (confidence u)) (parse_whisper_cpp_result whisper_json).
Proof.
  unfold parse_whisper_cpp_result.
  induction 1 as [|segment rest Hseg _ IH]; cbn [flat_map]; [constructor|].
  apply Forall_app. split; [|exact IH].
  induction Hseg as [|token segment Htok _ IHs]; cbn [flat_map]; [constructor|].
  apply Forall_app. split; [now apply parse_token_confidence | exact IHs].
Qed.

Lemma normalize_segments_to_zero_confidence (segments : list Segment) :
  Forall (fun u => probability (confidence u)) segments ->
  Forall (fun u => probability (confidence u)) (normalize_segments_to_zero segments).
Proof.
  intros H. destruct segments as [|seg0 rest]; [exact H|].
  unfold normalize_segments_to_zero. apply Forall_fmap.
  eapply Forall_impl; [exact H|]. intros seg Hseg. exact Hseg.
Qed.

Lemma map_word_normalize_segments_to_zero (segments : list Segment) :
  map word (normalize_segments_to_zero segments) = map word segments.
Proof.
  destruct segments as [|seg0 rest]; [reflexivity|].
  unfold normalize_segments_to_zero. rewrite map_map. reflexivity.
Qed.

(** X12.  [score_text_alignment] answers word by word: the result names
    the reference words in their order; every similarity lies between 0
    and 1; a word passes only with a similarity of at least 0.6; an
    entry without confidence is a failed word below that threshold; and
    when every token of the recogniser carries a probability, so does
    every entry that has a confidence. *)
Theorem score_text_alignment_results (reference_segments : list Segment)
    (user_whisper_json : WhisperJson) :
  let results := score_text_alignment reference_segments user_whisper_json in
  map r_word results = map word reference_segments
  /\ Forall sound_text_result results
  /\ (Forall (Forall (fun token => probability (p token))) user_whisper_json ->
      Forall (fun r => probability (r_confidence r)) results).
Proof.
  intros results. subst results. unfold score_text_alignment.
  set (user_normalized := normalize_segments_to_zero _).
  split; [|split].
  - rewrite map_map.
    rewrite <- (map_word_normalize_segments_to_zero reference_segments).
    apply map_ext. intros ref. apply score_word_sound.
  - apply Forall_fmap, Forall_forall. intros ref _. apply score_word_sound.
  - intros Hp. apply Forall_fmap, Forall_forall. intros ref _.
    apply score_word_sound.
    apply normalize_segments_to_zero_confidence, parse_whisper_cpp_result_confidence, Hp.
Qed.

Lemma score_text_alignment_results_witness :
  Forall (fun r => probability (r_confidence r))
         (score_text_alignment [ref_cat] [[cat_token 0.1 0.45 (Some 0.9)]]).
Proof.
  apply (score_text_alignment_results [ref_cat] [[cat_token 0.1 0.45 (Some 0.9)]]).
  repeat constructor; cbn; lra.
Defined.

(** *** Moving a recording in time *)

Lemma parse_token_delay (c : R) (token : Token) :
  parse_token (delay_token c token) = map (delay_segment c) (parse_token token).
Proof.
  unfold parse_token, delay_token. cbn [text ts_from ts_to p].
  destruct (text token) as [t|]; [|reflexivity].
  destruct (startswith_bracket t); [reflexivity|].
  destruct (str_strip t); reflexivity.
Qed.

Lemma parse_whisper_cpp_result_delay (c : R) (whisper_json : WhisperJson) :
  parse_whisper_cpp_result (delay c whisper_json)
  = map (delay_segment c) (parse_whisper_cpp_result whisper_json).
Proof.
  unfold parse_whisper_cpp_result, delay.
  induction whisper_json as [|segment rest IH]; [reflexivity|].
  cbn [map flat_map]. rewrite map_app, IH. f_equal.
  clear. induction segment as [|token segment IH]; [reflexivity|].
  cbn [map flat_map]. now rewrite map_app, IH, parse_token_delay.
Qed.

Lemma normalize_segments_to_zero_delay (c : R) (segments : list Segment) :
  normalize_segments_to_zero (map (delay_segment c) segments)
  = normalize_segments_to_zero segments.
Proof.
  destruct segments as [|seg0 rest]; [reflexivity|].
  unfold normalize_segments_to_zero. cbn [map].
  change (start_time (delay_segment c seg0)) with (start_time seg0 + c).
  f_equal.
  - unfold with_times, delay_segment. cbn. f_equal; ring.
  - rewrite map_map. apply map_ext. intros seg.
    unfold with_times, delay_segment. cbn. f_equal; ring.
Qed.


End TextResults.

(** ** The report as a whole *)

Section ReportSound.

Variables (text_comparison_result : list TextResult)
          (mfcc_comparison_result : list MfccResult)
          (time_matching_results : list TimeMatch).

Hypothesis text_sound :
  Forall (fun r => probability (r_confidence r)) text_comparison_result.
Hypothesis mfcc_sound : Forall sound_mfcc_result mfcc_comparison_result.

Lemma mfcc_value_unit (i : nat) : unit_interval (mfcc_value mfcc_comparison_result i).
Proof.
  unfold mfcc_value.
  destruct (mfcc_comparison_result !! i) as [entry|] eqn:Hi;
    [|unfold unit_interval; lra].
  pose proof (Forall_lookup_1 _ _ _ _ mfcc_sound Hi) as [Ha Hs].
  destruct (adjusted_score entry); [exact Ha|].
  unfold or_default. destruct (similarity entry); [exact Hs | unfold unit_interval; lra].
Qed.

Lemma tally_word_sound (t t' : Tally) (n i : nat) (w : string) :
  sound_tally t n ->
  tally_word text_comparison_result mfcc_comparison_result time_matching_results t i w
  = Ok t' ->
  sound_tally t' (S n).
Proof.
  intros [Hlen [Htext [Htime [Hfail [Hlow Hall]]]]]. unfold tally_word, index.
  destruct (text_comparison_result !! i) as [entry|] eqn:Hi;
    cbn [mbind outcome_bind]; [|discriminate].
  intros [= <-].
  pose proof (Forall_lookup_1 _ _ _ _ text_sound Hi) as Hconf. cbn beta in Hconf.
  pose proof (mfcc_value_unit i) as Hm.
  unfold sound_tally.
  cbn [word_analysis text_pass_count time_pass_count stt_failures time_failures
       mfcc_low_quality].
  split; [rewrite length_app; cbn; lia|].
  split; [destruct (is_pass (status entry)); lia|].
  split.
  { destruct (time_matching_results !! i) as [tr|]; [|lia].
    destruct (time_match tr); lia. }
  split.
  { destruct (time_matching_results !! i) as [tr|]; cbn [negb andb]; [|lia].
    destruct (user_start tr); cbn [negb andb];
      try destruct (negb (time_match tr)); cbn [andb];
      rewrite ?length_app; cbn [length]; lia. }
  split.
  { destruct (Rlt_dec _ _); rewrite ?length_app; cbn; lia. }
  apply Forall_app. split; [exact Hall|]. constructor; [|constructor].
  unfold sound_word_analysis. cbn [word_score mfcc_similarity].
  split; apply round_unit_interval; [|exact Hm].
  unfold unit_interval in *.
  assert (Hts : 0 <= (if is_pass (status entry)
                      then or_default (r_confidence entry) 0 else 0) <= 1).
  { destruct (is_pass (status entry)); [|lra].
    unfold or_default. destruct (r_confidence entry); [exact Hconf | lra]. }
  lra.
Qed.

Lemma tally_words_sound (reference_words : list string) :
  forall (t t' : Tally) (n i : nat),
    sound_tally t n ->
    tally_words text_comparison_result mfcc_comparison_result time_matching_results
                t i reference_words = Ok t' ->
    sound_tally t' (n + length reference_words).
Proof.
  induction reference_words as [|w rest IH]; intros t t' n i Ht; cbn [tally_words length].
  - intros [= <-]. now rewrite Nat.add_0_r.
  - destruct (tally_word _ _ _ t i w) as [t1|e] eqn:H1; cbn [mbind outcome_bind];
      [|discriminate].
    intros H'. replace (n + S (length rest))%nat with (S n + length rest)%nat by lia.
    eapply IH; [|exact H']. eapply tally_word_sound; eassumption.
Qed.

Lemma sum_unit_bounds (xs : list R) :
  Forall unit_interval xs -> 0 <= sum xs <= len xs.
Proof.
  unfold sum, len. induction 1 as [|x xs Hx _ IH]; cbn [fold_right length].
  - cbn. lra.
  - rewrite S_INR. unfold unit_interval in Hx. lra.
Qed.

Lemma ratio_or_zero_unit (x : R) (n : nat) :
  0 <= x <= INR n -> unit_interval (ratio_or_zero x n).
Proof.
  intros Hx. unfold ratio_or_zero, unit_interval.
  destruct n as [|n]; [lra|].
  assert (Hn : 0 < INR (S n)) by (apply lt_0_INR; lia).
  split.
  - apply Rmult_le_pos; [lra|]. left. now apply Rinv_0_lt_compat.
  - apply (Rmult_le_reg_r (INR (S n))); [exact Hn|].
    unfold Rdiv. rewrite Rmult_assoc, Rinv_l by lra. lra.
Qed.

Lemma generate_comprehensive_results_fractions (reference_words : list string)
    (report : Report) :
  generate_comprehensive_results reference_words text_comparison_result
    mfcc_comparison_result time_matching_results = Ok report ->
  total_words report = length reference_words
  /\ length (report_words report) = length reference_words
  /\ (passed_words report <= total_words report)%nat
  /\ (time_matched_words report <= total_words report)%nat
  /\ (length (report_stt_failures report) + length (report_time_failures report)
      <= total_words report)%nat
  /\ (length (report_mfcc_low_quality report) <= total_words report)%nat
  /\ Forall sound_word_analysis (report_words report)
  /\ unit_interval (overall_score report)
  /\ unit_interval (text_accuracy report)
  /\ unit_interval (time_accuracy report)
  /\ unit_interval (mfcc_average report).
Proof.
  unfold generate_comprehensive_results.
  destruct (tally_words _ _ _ empty_tally 0 reference_words) as [t|e] eqn:Ht;
    cbn [mbind outcome_bind]; [|discriminate].
  intros [= <-].
  assert (H0 : sound_tally empty_tally 0).
  { unfold sound_tally, empty_tally. cbn. repeat split; try lia. constructor. }
  pose proof (tally_words_sound reference_words _ _ _ _ H0 Ht) as Hs.
  cbn [Nat.add] in Hs.
  destruct Hs as [Hlen [Htext [Htime [Hfail [Hlow Hall]]]]].
  cbn [total_words report_words passed_words time_matched_words report_stt_failures
       report_time_failures report_mfcc_low_quality overall_score text_accuracy
       time_accuracy mfcc_average].
  rewrite !length_map.
  repeat (split; [first [reflexivity | assumption | lia]|]).
  split; [|split; [|split]]; apply round_unit_interval, ratio_or_zero_unit.
  - assert (Hf : Forall unit_interval (map word_score (word_analysis t))).
    { apply Forall_fmap. eapply Forall_impl; [exact Hall|]. intros a [Ha _]. exact Ha. }
    pose proof (sum_unit_bounds _ Hf) as Hb. unfold len in Hb.
    now rewrite length_map in Hb.
  - split; [apply pos_INR | now apply le_INR].
  - split; [apply pos_INR | now apply le_INR].
  - assert (Hf : Forall unit_interval (map mfcc_similarity (word_analysis t))).
    { apply Forall_fmap. eapply Forall_impl; [exact Hall|]. intros a [_ Ha]. exact Ha. }
    pose proof (sum_unit_bounds _ Hf) as Hb. unfold len in Hb.
    now rewrite length_map in Hb.
Qed.

(** X14.  The report of [generate_comprehensive_results] is consistent.
    When the confidences of the text comparison and the values of the
    MFCC comparison are fractions, a report that is produced has one
    analysis per reference word; its counts of passed and of
    time-matched words do not exceed the number of words, nor do its
    lists of failures; every word score lies between 0 and 1, and so do
    the overall score, the two accuracies and the MFCC average. *)
Theorem generate_comprehensive_results_consistent (reference_words : list string)
    (report : Report) :
  generate_comprehensive_results reference_words text_comparison_result
    mfcc_comparison_result time_matching_results = Ok report ->
  total_words report = length reference_words
  /\ length (report_words report) = length reference_words
  /\ (passed_words report <= total_words report)%nat
  /\ (time_matched_words report <= total_words report)%nat
  /\ (length (report_stt_failures report) + length (report_time_failures report)
      <= total_words report)%nat
  /\ (length (report_mfcc_low_quality report) <= total_words report)%nat
  /\ Forall sound_word_analysis (report_words report)
  /\ unit_interval (overall_score report)
  /\ unit_interval (text_accuracy report)
  /\ unit_interval (time_accuracy report)
  /\ unit_interval (mfcc_average report).
Proof. apply generate_comprehensive_results_fractions. Qed.

End ReportSound.

Lemma cat_passed_probability :
  Forall (fun r => probability (r_confidence r)) [cat_passed].
Proof. constructor; [|constructor]. cbn. unfold unit_interval. lra. Qed.

Lemma generate_comprehensive_results_consistent_witness :
  exists report : Report,
    generate_comprehensive_results ["cat"%string] [cat_passed] [] [] = Ok report
    /\ unit_interval (overall_score report).
Proof.
  destruct (tally_words_spec [cat_passed] [] [] ["cat"%string] empty_tally 0)
    as [t [Ht _]]; [cbn; lia|].
  assert (Hex : exists report : Report,
            generate_comprehensive_results ["cat"%string] [cat_passed] [] [] = Ok report).
  { unfold generate_comprehensive_results. rewrite Ht. cbn [mbind outcome_bind].
    eexists. reflexivity. }
  destruct Hex as [report Hr]. exists report. split; [exact Hr|].
  apply (generate_comprehensive_results_consistent [cat_passed] [] []
           cat_passed_probability (List.Forall_nil _) ["cat"%string] report Hr).
Defined.

(** ** The scores of the pipeline *)

Section PipelineScores.

Variable delta : nat -> nat -> matrix -> matrix.

Lemma score_text_alignment_confidences (reference_segments : list Segment)
    (user_whisper_json : WhisperJson) :
  Forall (Forall (fun token => probability (p token))) user_whisper_json ->
  Forall (fun r => probability (r_confidence r))
         (score_text_alignment reference_segments user_whisper_json).
Proof.
  intros Hp. unfold score_text_alignment.
  apply Forall_fmap, Forall_forall. intros ref _.
  apply score_word_sound.
  apply normalize_segments_to_zero_confidence, parse_whisper_cpp_result_confidence, Hp.
Qed.

Lemma compare_mfcc_segments_sound (cached_segments : list Segment)
    (user_mfcc : matrix) (user_frame_times : list R) :
  Forall sound_mfcc_result
         (compare_mfcc_segments delta cached_segments user_mfcc user_frame_times).
Proof.
  unfold compare_mfcc_segments. apply Forall_fmap, Forall_forall.
  intros segment _. unfold compose. cbv beta zeta.
  unfold sound_mfcc_result, probability. cbn [similarity adjusted_score].
  split; [|apply segment_similarity_unit].
  match goal with
  | |- unit_interval (continuous_score ?s / _) =>
      pose proof (continuous_score_range s)
  end.
  unfold unit_interval. lra.
Qed.


End PipelineScores.


(** ** Pitch values *)

Section PitchValues.

Lemma extract_pitch_segment_safe_filter (pitch_data : list PitchPoint) (start_ end_ : R) :
  extract_pitch_segment_safe pitch_data start_ end_
  = List.filter (fun h => Rltb 0 h) (extract_pitch_segment pitch_data start_ end_).
Proof.
  induction pitch_data as [|pt rest IH]; [reflexivity|].
  cbn [extract_pitch_segment_safe extract_pitch_segment].
  destruct (hz pt) as [h|]; [|exact IH].
  destruct (Rleb start_ (time pt) && Rleb (time pt) end_); cbn [andb]; [|exact IH].
  cbn [List.filter]. destruct (Rltb 0 h); [now f_equal | exact IH].
Qed.

Lemma length_extract_pitch_segment (pitch_data : list PitchPoint) (start_ end_ : R) :
  (length (extract_pitch_segment pitch_data start_ end_) <= length pitch_data)%nat.
Proof.
  induction pitch_data as [|pt rest IH]; [reflexivity|].
  cbn [extract_pitch_segment].
  destruct (hz pt) as [h|]; [|cbn; lia].
  destruct (Rleb start_ (time pt) && Rleb (time pt) end_); cbn; lia.
Qed.

(** X16.  The two extractors of a pitch segment.  The safe one of
    [textgrid_comparator.py] returns the values of the one of
    [voice_to_pitch.py] that are positive, in the same order; so all
    its values are positive, and it returns no more values than the
    other, which returns no more than there are points. *)
Theorem extract_pitch_segment_safe_positive_part
    (pitch_data : list PitchPoint) (start_ end_ : R) :
  extract_pitch_segment_safe pitch_data start_ end_
  = List.filter (fun h => Rltb 0 h) (extract_pitch_segment pitch_data start_ end_)
  /\ Forall (fun h => 0 < h) (extract_pitch_segment_safe pitch_data start_ end_)
  /\ (length (extract_pitch_segment_safe pitch_data start_ end_)
      <= length (extract_pitch_segment pitch_data start_ end_)
      <= length pitch_data)%nat.
Proof.
  rewrite extract_pitch_segment_safe_filter.
  split; [reflexivity|]. split; [|split].
  - apply Forall_forall. intros h Hh.
    apply list_elem_of_In, filter_In in Hh. destruct Hh as [_ Hh].
    unfold Rltb in Hh. destruct (Rlt_dec 0 h); [assumption | discriminate].
  - apply List.filter_length_le.
  - apply length_extract_pitch_segment.
Qed.

Lemma map_const_repeat {A} (c : R) (xs : list A) :
  map (fun _ => c) xs = repeat c (length xs).
Proof. induction xs as [|x xs IH]; cbn; [reflexivity | now rewrite IH]. Qed.



(** *** The cosine of two contours *)

Lemma sum_squares_nonneg (a : list R) : 0 <= sum (map (fun x => x ^ 2) a).
Proof. apply sum_nonneg, Forall_fmap, Forall_forall. intros x _. cbn. apply pow2_ge_0. Qed.

Lemma two_terms_bound (x y P Q : R) :
  0 <= P -> 0 <= Q ->
  x * y + P * Q <= sqrt (x ^ 2 + P ^ 2) * sqrt (y ^ 2 + Q ^ 2).
Proof.
  intros HP HQ.
  rewrite <- sqrt_mult by nra.
  destruct (Rle_dec (x * y + P * Q) 0) as [Hneg|Hpos].
  - pose proof (sqrt_pos ((x ^ 2 + P ^ 2) * (y ^ 2 + Q ^ 2))). lra.
  - rewrite <- (sqrt_Rsqr (x * y + P * Q)) by lra.
    apply sqrt_le_1_alt. unfold Rsqr.
    assert (H : 0 <= (x * Q - P * y) ^ 2) by apply pow2_ge_0. nra.
Qed.

(** The inequality of Cauchy and Schwarz, on the common prefix of two
    lists. *)
Lemma dot_le_norms (a : list R) : forall b : list R, dot a b <= norm a * norm b.
Proof.
  unfold dot, norm.
  induction a as [|x a IH]; intros [|y b]; cbn [zip_with map].
  - unfold sum. cbn. rewrite sqrt_0. lra.
  - change (sum []) with 0. apply Rmult_le_pos; apply sqrt_pos.
  - change (sum []) with 0. apply Rmult_le_pos; apply sqrt_pos.
  - change (sum (x * y :: zip_with Rmult a b)) with (x * y + sum (zip_with Rmult a b)).
    change (sum (x ^ 2 :: map (fun x => x ^ 2) a))
      with (x ^ 2 + sum (map (fun x => x ^ 2) a)).
    change (sum (y ^ 2 :: map (fun x => x ^ 2) b))
      with (y ^ 2 + sum (map (fun x => x ^ 2) b)).
    pose proof (sum_squares_nonneg a) as Ha. pose proof (sum_squares_nonneg b) as Hb.
    specialize (IH b).
    set (A := sum (map (fun x => x ^ 2) a)) in *.
    set (B := sum (map (fun x => x ^ 2) b)) in *.
    pose proof (two_terms_bound x y (sqrt A) (sqrt B) (sqrt_pos A) (sqrt_pos B)) as H.
    replace (sqrt A ^ 2) with A in H by (cbn; rewrite Rmult_1_r, sqrt_sqrt; lra).
    replace (sqrt B ^ 2) with B in H by (cbn; rewrite Rmult_1_r, sqrt_sqrt; lra).
    lra.
Qed.

Lemma calculate_simple_pitch_similarity_unit (ref_pitch user_pitch : list R) :
  unit_interval (calculate_simple_pitch_similarity ref_pitch user_pitch).
Proof.
  unfold calculate_simple_pitch_similarity, unit_interval.
  destruct (_ <? 3)%nat; [lra|].
  set (rn := map _ (resample ref_pitch _)). set (un := map _ (resample user_pitch _)).
  destruct (Req_dec_T (norm rn) 0) as [|Hr]; [lra|].
  destruct (Req_dec_T (norm un) 0) as [|Hu]; [lra|].
  split; [apply Rmax_l|].
  apply Rmax_lub; [lra|].
  pose proof (dot_le_norms rn un) as Hcs.
  assert (Hrp : 0 < norm rn) by (pose proof (sqrt_pos (sum (map (fun x => x ^ 2) rn)));
                                 unfold norm in *; lra).
  assert (Hup : 0 < norm un) by (pose proof (sqrt_pos (sum (map (fun x => x ^ 2) un)));
                                 unfold norm in *; lra).
  assert (Hprod : 0 < norm rn * norm un) by (apply Rmult_lt_0_compat; assumption).
  assert (Hsim : dot rn un / (norm rn * norm un) <= 1).
  { apply (Rmult_le_reg_r (norm rn * norm un)); [exact Hprod|].
    unfold Rdiv. rewrite Rmult_assoc, Rinv_l by lra. lra. }
  lra.
Qed.

(** X18.  The cosine similarity of two pitch contours lies between 0 and
    1, whatever the contours; it is 0 when either has fewer than three
    values. *)
Theorem calculate_simple_pitch_similarity_range (ref_pitch user_pitch : list R) :
  0 <= calculate_simple_pitch_similarity ref_pitch user_pitch <= 1
  /\ ((length ref_pitch < 3 \/ length user_pitch < 3)%nat ->
      calculate_simple_pitch_similarity ref_pitch user_pitch = 0).
Proof.
  split; [apply calculate_simple_pitch_similarity_unit|].
  intros Hshort. unfold calculate_simple_pitch_similarity.
  destruct (Nat.ltb_spec (Nat.min (length ref_pitch) (length user_pitch)) 3);
    [reflexivity | lia].
Qed.

Lemma calculate_simple_pitch_similarity_range_witness :
  calculate_simple_pitch_similarity [100; 110] [100; 110; 120] = 0.
Proof.
  apply (calculate_simple_pitch_similarity_range [100; 110] [100; 110; 120]).
  left. cbn. lia.
Defined.

Section WithDtw.

Variable fastdtw : list R -> list R -> outcome R.
Hypothesis distance_nonneg :
  forall (x y : list R) (d : R), fastdtw x y = Ok d -> 0 <= d.

Lemma calculate_dtw_pitch_similarity_unit (ref_pitch user_pitch : list R) :
  unit_interval (calculate_dtw_pitch_similarity fastdtw ref_pitch user_pitch).
Proof.
  unfold calculate_dtw_pitch_similarity.
  destruct (_ || _); [unfold unit_interval; lra|].
  destruct (fastdtw _ _) as [d|e] eqn:Hd.
  - apply distance_nonneg in Hd. unfold unit_interval.
    split; [apply Rmax_l|]. apply Rmax_lub; [lra|].
    assert (0 <= d / INR (Nat.max (length (zscore_normalize_pitch ref_pitch))
                                   (length (zscore_normalize_pitch user_pitch)))).
    { unfold Rdiv. apply Rmult_le_pos; [exact Hd|].
      destruct (Nat.max _ _) as [|n]; [cbn; rewrite Rinv_0; lra|].
      left. apply Rinv_0_lt_compat, lt_0_INR. lia. }
    lra.
  - apply calculate_simple_pitch_similarity_unit.
Qed.

Lemma mean_unit (xs : list R) :
  Forall unit_interval xs -> xs <> [] -> unit_interval (sum xs / len xs).
Proof.
  intros Hall Hne. pose proof (sum_unit_bounds xs Hall) as Hb.
  pose proof (len_pos xs Hne) as Hl. unfold unit_interval. split.
  - apply Rmult_le_pos; [lra|]. left. now apply Rinv_0_lt_compat.
  - apply (Rmult_le_reg_r (len xs)); [exact Hl|].
    unfold Rdiv. rewrite Rmult_assoc, Rinv_l by lra. lra.
Qed.

Variables (ref_pitch_data user_pitch_data : list PitchPoint).

Lemma segment_pitch_similarity_unit (segment : ScriptSegment) :
  probability (segment_pitch_similarity fastdtw ref_pitch_data user_pitch_data segment).
Proof.
  unfold segment_pitch_similarity.
  destruct (_ && _); [|exact I]. apply calculate_dtw_pitch_similarity_unit.
Qed.

Lemma analyze_pitch_similarity_unit (segments : list ScriptSegment) :
  let analysis :=
    analyze_pitch_similarity fastdtw ref_pitch_data user_pitch_data segments in
  unit_interval (pitch_similarity analysis)
  /\ length (segment_details analysis) = length segments
  /\ Forall (fun d => probability (d_similarity d)) (segment_details analysis).
Proof.
  unfold analyze_pitch_similarity. rewrite pitch_loop_spec. cbn [app].
  set (sims := omap _ segments).
  assert (Hsims : Forall unit_interval sims).
  { subst sims. apply Forall_forall. intros s Hs.
    apply list_elem_of_omap in Hs. destruct Hs as [seg [_ Hseg]].
    pose proof (segment_pitch_similarity_unit seg) as Hp. rewrite Hseg in Hp. exact Hp. }
  cbn [pitch_similarity segment_details].
  split; [|split].
  - apply round_unit_interval.
    destruct sims as [|s sims'] eqn:E; [unfold unit_interval; lra|].
    rewrite <- E in *. apply mean_unit; [exact Hsims | now rewrite E].
  - apply length_map.
  - apply Forall_fmap, Forall_forall. intros seg _. unfold compose.
    cbn [d_similarity].
    pose proof (segment_pitch_similarity_unit seg) as Hp.
    destruct (segment_pitch_similarity _ _ _ seg); cbn; [|exact I].
    now apply round_unit_interval.
Qed.

(** X19.  The pitch analysis yields fractions.  Given a DTW distance
    that is never negative, [analyze_pitch_similarity] reports one
    detail per script segment; every similarity it reports, the
    similarity of a segment as the overall one, lies between 0 and 1. *)
Theorem analyze_pitch_similarity_range (segments : list ScriptSegment) :
  let analysis :=
    analyze_pitch_similarity fastdtw ref_pitch_data user_pitch_data segments in
  0 <= pitch_similarity analysis <= 1
  /\ length (segment_details analysis) = length segments
  /\ Forall (fun d => probability (d_similarity d)) (segment_details analysis).
Proof. apply analyze_pitch_similarity_unit. Qed.

End WithDtw.

End PitchValues.

Lemma paired_distance_nonneg (x y : list R) (d : R) :
  paired_distance x y = Ok d -> 0 <= d.
Proof.
  unfold paired_distance. intros [= <-].
  apply sum_nonneg. revert y. induction x as [|a x IH]; intros [|b y]; cbn;
    try constructor; [apply Rabs_pos | apply IH].
Qed.

Lemma analyze_pitch_similarity_range_witness :
  0 <= pitch_similarity (analyze_pitch_similarity paired_distance [] [] [hello_segment]) <= 1.
Proof.
  apply (analyze_pitch_similarity_range paired_distance paired_distance_nonneg
           [] [] [hello_segment]).
Defined.

(** ** Phones, timing and the final score *)

Section Timing.

Lemma calculate_timing_accuracy_span (ref_intervals user_intervals : list Interval) :
  ref_intervals <> [] -> user_intervals <> [] ->
  calculate_timing_accuracy ref_intervals user_intervals
  = Rmax 0 (1 - (if Rlt_dec 0 (span ref_intervals)
                 then Rabs (span ref_intervals - span user_intervals)
                      / span ref_intervals
                 else 1)).
Proof.
  intros Hr Hu. destruct ref_intervals as [|r0 rs]; [congruence|].
  destruct user_intervals as [|u0 us]; [congruence|]. reflexivity.
Qed.

Lemma calculate_timing_accuracy_unit (ref_intervals user_intervals : list Interval) :
  unit_interval (calculate_timing_accuracy ref_intervals user_intervals).
Proof.
  unfold unit_interval.
  destruct ref_intervals as [|r0 rs]; [cbn; lra|].
  destruct user_intervals as [|u0 us]; [cbn; lra|].
  rewrite calculate_timing_accuracy_span by discriminate.
  split; [apply Rmax_l|]. apply Rmax_lub; [lra|].
  destruct (Rlt_dec 0 (span (r0 :: rs))) as [Hpos|]; [|lra].
  assert (0 <= Rabs (span (r0 :: rs) - span (u0 :: us)) / span (r0 :: rs)).
  { apply Rmult_le_pos; [apply Rabs_pos|]. left. now apply Rinv_0_lt_compat. }
  lra.
Qed.

(** X20.  [calculate_timing_accuracy] compares the lengths of the two
    utterances.  It always lies between 0 and 1, and it is 0 when a tier
    is empty or the reference has no positive length.  For a reference
    of positive length it is 1 exactly when the user's utterance is as
    long as the reference, and 0 exactly when the two lengths differ by
    the length of the reference or more. *)
Theorem calculate_timing_accuracy_range (ref_intervals user_intervals : list Interval) :
  0 <= calculate_timing_accuracy ref_intervals user_intervals <= 1
  /\ (ref_intervals = [] \/ user_intervals = [] \/ span ref_intervals <= 0 ->
      calculate_timing_accuracy ref_intervals user_intervals = 0)
  /\ (ref_intervals <> [] -> user_intervals <> [] -> 0 < span ref_intervals ->
      (calculate_timing_accuracy ref_intervals user_intervals = 1
       <-> span user_intervals = span ref_intervals)
      /\ (calculate_timing_accuracy ref_intervals user_intervals = 0
          <-> span ref_intervals <= Rabs (span ref_intervals - span user_intervals))).
Proof.
  split; [apply calculate_timing_accuracy_unit|]. split.
  - intros [->|[->|Hspan]]; [reflexivity | destruct ref_intervals; reflexivity |].
    destruct ref_intervals as [|r0 rs]; [reflexivity|].
    destruct user_intervals as [|u0 us]; [reflexivity|].
    rewrite calculate_timing_accuracy_span by discriminate.
    destruct (Rlt_dec 0 (span (r0 :: rs))); [lra|].
    unfold Rmax. dec_R.
  - intros Hr Hu Hpos.
    rewrite calculate_timing_accuracy_span by assumption.
    destruct (Rlt_dec 0 (span ref_intervals)); [|contradiction].
    set (rd := span ref_intervals) in *. set (ud := span user_intervals).
    assert (Hq : Rabs (rd - ud) / rd * rd = Rabs (rd - ud)) by (field; lra).
    pose proof (Rabs_pos (rd - ud)) as Habs.
    assert (Hq0 : 0 <= Rabs (rd - ud) / rd).
    { apply Rmult_le_pos; [exact Habs|]. left. now apply Rinv_0_lt_compat. }
    split; split.
    + intros H. unfold Rmax in H.
      destruct (Rle_dec 0 (1 - Rabs (rd - ud) / rd)); [|lra].
      assert (Hz : Rabs (rd - ud) = 0) by nra.
      unfold Rabs in Hz. destruct (Rcase_abs (rd - ud)); lra.
    + intros H. rewrite H. replace (rd - rd) with 0 by ring.
      rewrite Rabs_R0. unfold Rdiv. rewrite Rmult_0_l.
      unfold Rmax. dec_R.
    + intros H. unfold Rmax in H.
      destruct (Rle_dec 0 (1 - Rabs (rd - ud) / rd)); nra.
    + intros H. assert (1 <= Rabs (rd - ud) / rd).
      { apply (Rmult_le_reg_r rd); [exact Hpos|]. lra. }
      unfold Rmax. dec_R.
Qed.

Lemma calculate_timing_accuracy_range_witness :
  calculate_timing_accuracy
    [ {| i_start := 0; i_end := 1; phone := Some "HH"%string |} ]
    [ {| i_start := 2; i_end := 3; phone := Some "HH"%string |} ] = 1.
Proof.
  apply (calculate_timing_accuracy_range
           [ {| i_start := 0; i_end := 1; phone := Some "HH"%string |} ]
           [ {| i_start := 2; i_end := 3; phone := Some "HH"%string |} ]);
    try discriminate; cbn; lra.
Defined.

Lemma count_matches_le (ref_phones : list string) :
  forall user_phones : list string,
    (count_matches ref_phones user_phones
     <= Nat.min (length ref_phones) (length user_phones))%nat.
Proof.
  induction ref_phones as [|r rs IH]; intros [|u us]; cbn [count_matches length];
    try lia.
  specialize (IH us). destruct (String.eqb r u); lia.
Qed.

Lemma count_matches_same (l : list string) : count_matches l l = length l.
Proof.
  induction l as [|r rs IH]; [reflexivity|].
  cbn [count_matches length]. now rewrite String.eqb_refl, IH.
Qed.

Lemma round_one (n : nat) : round 1 n = 1.
Proof.
  pose proof (round_between 1 1 1 n). lra.
Qed.

Lemma round_zero (n : nat) : round 0 n = 0.
Proof.
  pose proof (round_between 0 0 0 n). lra.
Qed.

Lemma compare_textgrids_sound (ref_data user_data : TextgridData) :
  let analysis := compare_textgrids ref_data user_data in
  (matched_phones analysis
   <= Nat.min (reference_phones analysis) (user_phones analysis))%nat
  /\ unit_interval (pronunciation_accuracy analysis)
  /\ unit_interval (timing_accuracy analysis).
Proof.
  unfold compare_textgrids.
  cbn [matched_phones reference_phones user_phones pronunciation_accuracy timing_accuracy].
  set (rp := phones (intervals ref_data)). set (up := phones (intervals user_data)).
  pose proof (count_matches_le rp up) as Hle.
  split; [exact Hle|]. split.
  - apply round_unit_interval. unfold unit_interval.
    destruct (Nat.ltb_spec 0 (length rp)) as [Hpos|]; [|lra].
    assert (Hm : (count_matches rp up <= length rp)%nat) by lia.
    apply le_INR in Hm. apply lt_INR in Hpos. cbn in Hpos.
    pose proof (pos_INR (count_matches rp up)).
    split.
    + apply Rmult_le_pos; [assumption|]. left. now apply Rinv_0_lt_compat.
    + apply (Rmult_le_reg_r (INR (length rp))); [assumption|].
      unfold Rdiv. rewrite Rmult_assoc, Rinv_l by lra. lra.
  - apply round_unit_interval, calculate_timing_accuracy_unit.
Qed.

(** X21.  [compare_textgrids] counts the phones that agree position by
    position.  The count exceeds neither the number of reference phones
    nor the number of the user's phones; both accuracies lie between 0
    and 1; the pronunciation accuracy is 1 when the user's phones are
    the reference's and there are some, and 0 without reference phones. *)
Theorem compare_textgrids_accuracies (ref_data user_data : TextgridData) :
  let analysis := compare_textgrids ref_data user_data in
  (matched_phones analysis
   <= Nat.min (reference_phones analysis) (user_phones analysis))%nat
  /\ 0 <= pronunciation_accuracy analysis <= 1
  /\ 0 <= timing_accuracy analysis <= 1
  /\ (phones (intervals user_data) = phones (intervals ref_data) ->
      phones (intervals ref_data) <> [] ->
      pronunciation_accuracy analysis = 1)
  /\ (phones (intervals ref_data) = [] -> pronunciation_accuracy analysis = 0).
Proof.
  intros analysis.
  destruct (compare_textgrids_sound ref_data user_data) as [H1 [H2 H3]].
  split; [exact H1|]. split; [exact H2|]. split; [exact H3|].
  subst analysis. unfold compare_textgrids. cbn [pronunciation_accuracy]. split.
  - intros Hsame Hne. rewrite Hsame, count_matches_same.
    destruct (Nat.ltb_spec 0 (length (phones (intervals ref_data)))) as [Hpos|Hz].
    + apply lt_INR in Hpos. cbn in Hpos.
      replace (INR (length (phones (intervals ref_data)))
               / INR (length (phones (intervals ref_data)))) with 1 by (field; lra).
      apply round_one.
    + destruct (phones (intervals ref_data)); [congruence | cbn in Hz; lia].
  - intros ->. cbn. apply round_zero.
Qed.

Lemma compare_textgrids_accuracies_witness :
  pronunciation_accuracy
    (compare_textgrids
       {| intervals := [ {| i_start := 0; i_end := 1; phone := Some "HH"%string |} ];
          total_duration := 1 |}
       {| intervals := [ {| i_start := 2; i_end := 3; phone := Some "HH"%string |} ];
          total_duration := 3 |}) = 1.
Proof.
  apply (compare_textgrids_accuracies
           {| intervals := [ {| i_start := 0; i_end := 1; phone := Some "HH"%string |} ];
              total_duration := 1 |}
           {| intervals := [ {| i_start := 2; i_end := 3; phone := Some "HH"%string |} ];
              total_duration := 3 |}).
  - reflexivity.
  - discriminate.
Defined.

End Timing.

Section FinalScore.

Lemma round_percentage (x : R) (n : nat) : percentage x -> percentage (round x n).
Proof. intros H. apply (round_between 0 100 x n). exact H. Qed.

Lemma calculate_final_score_weighted (p t q : R) (tg : option TextgridAnalysis)
    (pa : option PitchAnalysis) :
  let scores :=
    calculate_final_score
      {| textgrid_analysis := tg; pitch_analysis := pa;
         overall_scores := Some {| pronunciation_score := Some p;
                                   timing_score := Some t;
                                   pitch_score := Some q |} |} in
  final_overall_score scores = round (0.5 * p + 0.25 * t + 0.25 * q) 1
  /\ final_pronunciation_score scores = round p 1
  /\ final_timing_score scores = round t 1
  /\ final_pitch_score scores = round q 1.
Proof.
  unfold calculate_final_score, weight_pronunciation, weight_timing, weight_pitch.
  cbn [overall_scores pronunciation_score timing_score pitch_score get_score
       final_overall_score final_pronunciation_score final_timing_score final_pitch_score].
  repeat split. f_equal. lra.
Qed.

(** X22.  [calculate_final_score] weighs the three scores by 50, 25 and
    25 percent and rounds to one decimal.  With the three scores between
    0 and 100 the final score lies between 0 and 100, and between the
    smallest and the greatest of the three, rounded; three equal scores
    give that score, rounded.  A comparison without [overall_scores] is
    scored 0. *)
Theorem calculate_final_score_range (p t q : R) (tg : option TextgridAnalysis)
    (pa : option PitchAnalysis) :
  let scores :=
    calculate_final_score
      {| textgrid_analysis := tg; pitch_analysis := pa;
         overall_scores := Some {| pronunciation_score := Some p;
                                   timing_score := Some t;
                                   pitch_score := Some q |} |} in
  (percentage p -> percentage t -> percentage q ->
   percentage (final_overall_score scores))
  /\ round (Rmin p (Rmin t q)) 1 <= final_overall_score scores
     <= round (Rmax p (Rmax t q)) 1
  /\ (p = t -> t = q -> final_overall_score scores = round p 1)
  /\ final_overall_score
       (calculate_final_score
          {| textgrid_analysis := tg; pitch_analysis := pa; overall_scores := None |})
     = 0.
Proof.
  intros scores.
  destruct (calculate_final_score_weighted p t q tg pa) as [Hf _].
  fold scores in Hf. rewrite Hf.
  split; [|split; [|split]].
  - intros Hp Ht Hq. apply round_percentage. unfold percentage in *. lra.
  - pose proof (Rmin_l p (Rmin t q)). pose proof (Rmin_r p (Rmin t q)).
    pose proof (Rmin_l t q). pose proof (Rmin_r t q).
    pose proof (Rmax_l p (Rmax t q)). pose proof (Rmax_r p (Rmax t q)).
    pose proof (Rmax_l t q). pose proof (Rmax_r t q).
    split; apply round_monotone; lra.
  - intros -> ->. f_equal. lra.
  - unfold calculate_final_score. cbn [overall_scores final_overall_score].
    replace (0 * weight_pronunciation / 100 + 0 * weight_timing / 100
             + 0 * weight_pitch / 100) with 0 by (unfold Rdiv; ring).
    apply round_zero.
Qed.

Lemma calculate_final_score_range_witness :
  percentage
    (final_overall_score
       (calculate_final_score
          {| textgrid_analysis := None; pitch_analysis := None;
             overall_scores := Some {| pronunciation_score := Some 80;
                                       timing_score := Some 60;
                                       pitch_score := Some 40 |} |})).
Proof.
  apply (calculate_final_score_range 80 60 40 None None); unfold percentage; lra.
Defined.

Section WithDistance.

Variable fastdtw : list R -> list R -> outcome R.
Hypothesis distance_nonneg :
  forall (x y : list R) (d : R), fastdtw x y = Ok d -> 0 <= d.

(** X23.  From the analyses to the final score.  Given a DTW distance
    that is never negative, the three scores that
    [comprehensive_analysis] hands on are percentages, and so are the
    final score and the three component scores that
    [calculate_final_score] makes of them. *)
Theorem final_score_of_analysis_is_percentage
    (ref_data user_data : TextgridData)
    (ref_pitch_data user_pitch_data : list PitchPoint)
    (reference_segments : list ScriptSegment) :
  let comparison :=
    comprehensive_analysis fastdtw ref_data user_data ref_pitch_data
                           user_pitch_data reference_segments in
  let scores := calculate_final_score comparison in
  (exists p t q : R,
     overall_scores comparison
     = Some {| pronunciation_score := Some p; timing_score := Some t;
               pitch_score := Some q |}
     /\ percentage p /\ percentage t /\ percentage q)
  /\ percentage (final_overall_score scores)
  /\ percentage (final_pronunciation_score scores)
  /\ percentage (final_timing_score scores)
  /\ percentage (final_pitch_score scores).
Proof.
  intros comparison scores. subst scores comparison.
  unfold comprehensive_analysis, comprehensive_result.
  destruct (compare_textgrids_sound ref_data user_data) as [_ [Hp Ht]].
  destruct (analyze_pitch_similarity_unit fastdtw distance_nonneg ref_pitch_data
              user_pitch_data reference_segments) as [Hq _].
  set (tg := compare_textgrids ref_data user_data) in *.
  set (pa := analyze_pitch_similarity fastdtw ref_pitch_data user_pitch_data
               reference_segments) in *.
  assert (Hp' : percentage (pronunciation_accuracy tg * 100))
    by (unfold percentage, unit_interval in *; lra).
  assert (Ht' : percentage (timing_accuracy tg * 100))
    by (unfold percentage, unit_interval in *; lra).
  assert (Hq' : percentage (pitch_similarity pa * 100))
    by (unfold percentage, unit_interval in *; lra).
  split.
  - cbn [overall_scores]. eexists _, _, _. split; [reflexivity|].
    split; [exact Hp' | split; [exact Ht' | exact Hq']].
  - destruct (calculate_final_score_weighted
                (pronunciation_accuracy tg * 100) (timing_accuracy tg * 100)
                (pitch_similarity pa * 100) (Some tg) (Some pa))
      as [H1 [H2 [H3 H4]]].
    cbv zeta in H1, H2, H3, H4. rewrite H1, H2, H3, H4.
    repeat split; apply round_percentage; try assumption;
      unfold percentage in *; lra.
Qed.

End WithDistance.

End FinalScore.

Lemma final_score_of_analysis_is_percentage_witness :
  percentage
    (final_overall_score
       (calculate_final_score
          (comprehensive_analysis paired_distance
             {| intervals := []; total_duration := 0 |}
             {| intervals := []; total_duration := 0 |}
             [] [] [hello_segment]))).
Proof.
  apply (final_score_of_analysis_is_percentage paired_distance paired_distance_nonneg
           {| intervals := []; total_duration := 0 |}
           {| intervals := []; total_duration := 0 |}
           [] [] [hello_segment]).
Defined.

(** ** The recogniser's words *)

Section Merging.

Lemma alphanumeric_not_space (c : ascii) : alphanumeric c = true -> is_space c = false.
Proof.
  destruct c as [[] [] [] [] [] [] [] []]; vm_compute; intros H;
    try discriminate; reflexivity.
Qed.

Lemma list_ascii_of_string_app (a b : string) :
  list_ascii_of_string (a ++ b) = list_ascii_of_string a ++ list_ascii_of_string b.
Proof.
  induction a as [|c a IH]; [reflexivity|].
  change (list_ascii_of_string (String c a ++ b))
    with (c :: list_ascii_of_string (a ++ b)).
  rewrite IH. reflexivity.
Qed.

Lemma has_alphanumeric_app (a b : string) :
  has_alphanumeric a \/ has_alphanumeric b -> has_alphanumeric (a ++ b).
Proof.
  unfold has_alphanumeric. rewrite list_ascii_of_string_app.
  intros [[c [Hin Hc]]|[c [Hin Hc]]]; exists c; (split; [|exact Hc]);
    apply in_or_app; [left | right]; exact Hin.
Qed.

Lemma has_alphanumeric_strip (t : string) :
  has_alphanumeric t -> has_alphanumeric (str_strip t).
Proof.
  intros [c [Hin Hc]]. exists c. split; [|exact Hc].
  unfold str_strip. rewrite list_ascii_of_string_of_list_ascii.
  apply strip_In; [now apply alphanumeric_not_space | exact Hin].
Qed.

Lemma has_alphanumeric_nonempty (t : string) : has_alphanumeric t -> t <> EmptyString.
Proof. intros [c [Hin _]] ->. exact Hin. Qed.

Lemma not_punctuation (t : string) :
  is_punctuation t = false -> t = EmptyString \/ has_alphanumeric t.
Proof.
  unfold is_punctuation, has_alphanumeric.
  destruct t as [|c0 t0]; [now left|]. right.
  remember (list_ascii_of_string (String c0 t0)) as l eqn:El.
  assert (Hf : forallb (fun c => negb (is_word_char c) || (code c =? 95)%nat) l = false).
  { destruct l; [discriminate | exact H]. }
  clear H El. induction l as [|c l IH]; [discriminate|].
  cbn [forallb] in Hf. apply andb_false_iff in Hf. destruct Hf as [Hc|Hl].
  - exists c. split; [now left|].
    apply orb_false_iff in Hc. destruct Hc as [Hw Hu].
    apply negb_false_iff in Hw. unfold is_word_char in Hw. unfold alphanumeric.
    rewrite Hu, orb_false_r in Hw. exact Hw.
  - destruct (IH Hl) as [c' [Hin Hc']]. exists c'. split; [now right | exact Hc'].
Qed.

Lemma has_alphanumeric_tokenizes (w : string) :
  has_alphanumeric w -> normalize_and_tokenize w <> [].
Proof. intros [c [Hin Hc]]. exact (alphanumeric_tokenizes w c Hin Hc). Qed.

Lemma nonempty_spec (s : string) : nonempty s = true <-> s <> EmptyString.
Proof. destruct s; cbn; split; congruence. Qed.

Lemma flush_sound (st : Merge) :
  sound_merge st ->
  Forall (fun w => has_alphanumeric (wt_word w) /\ wt_end w <> None) (flush st)
  /\ Forall (fun w => wt_start w <> None) (tl (flush st)).
Proof.
  intros [Hout [Hcur [Hstart Htl]]]. unfold flush.
  destruct (nonempty (current_text st)) eqn:Hne; [|split; assumption].
  apply nonempty_spec in Hne.
  destruct Hcur as [Hcur|[Hal Hend]]; [contradiction|].
  split.
  - apply Forall_app. split; [exact Hout|]. constructor; [|constructor].
    split; assumption.
  - destruct (word_timestamps st) as [|w0 ws] eqn:E; [constructor|].
    cbn [app tl] in *. apply Forall_app. split; [exact Htl|].
    constructor; [|constructor]. cbn [wt_start].
    intros Hnone. specialize (Hstart Hnone). discriminate.
Qed.

Lemma merge_token_sound (st : Merge) (token : Token) :
  sound_merge st -> sound_merge (merge_token st token).
Proof.
  intros Hst. unfold merge_token.
  set (t := match text token with Some t => t | None => EmptyString end).
  destruct (startswith_bracket t && endswith_bracket t); [exact Hst|].
  destruct (is_punctuation t) eqn:Hp; [exact Hst|].
  apply not_punctuation in Hp.
  assert (Hstrip : str_strip t = EmptyString \/ has_alphanumeric (str_strip t)).
  { destruct Hp as [->|Hal]; [left; reflexivity | right; now apply has_alphanumeric_strip]. }
  destruct (startswith_space t).
  - destruct (flush_sound st Hst) as [Hf1 Hf2].
    unfold sound_merge. cbn [word_timestamps current_text word_start prev_end].
    split; [exact Hf1|]. split.
    + destruct Hstrip as [Hs|Hs]; [now left | right]. split; [exact Hs | discriminate].
    + split; [discriminate | exact Hf2].
  - destruct Hst as [Hout [Hcur [Hstart Htl]]].
    unfold sound_merge. cbn [word_timestamps current_text word_start prev_end].
    split; [exact Hout|]. split; [|split; assumption].
    destruct Hcur as [Hcur|[Hal Hend]].
    + rewrite Hcur. cbn [append].
      destruct Hstrip as [Hs|Hs]; [now left | right]. split; [exact Hs | discriminate].
    + right. split; [|discriminate]. apply has_alphanumeric_app. now left.
Qed.

Lemma fold_merge_sound (tokens : list Token) :
  forall st : Merge, sound_merge st -> sound_merge (fold_left merge_token tokens st).
Proof.
  induction tokens as [|token tokens IH]; intros st Hst; [exact Hst|].
  cbn [fold_left]. apply IH, merge_token_sound, Hst.
Qed.

Lemma merge_start_sound : sound_merge merge_start.
Proof.
  unfold sound_merge, merge_start. cbn.
  split; [constructor|]. split; [now left|]. split; [reflexivity | constructor].
Qed.

Lemma merge_tokens_sound (tokens : list Token) :
  Forall (fun w => has_alphanumeric (wt_word w) /\ wt_end w <> None) (merge_tokens tokens)
  /\ Forall (fun w => wt_start w <> None) (tl (merge_tokens tokens)).
Proof. apply flush_sound, fold_merge_sound, merge_start_sound. Qed.

(** X24.  The words that [extract_word_timestamps] merges from the
    tokens (the transcription has no non-empty [words] list).  Every
    word has an end time and holds a letter or a digit, so that it has a
    first normalised token; and every word but the first has a start
    time. *)
Theorem extract_word_timestamps_words (transcription : Transcription)
    (rest : list Transcription) :
  tr_words transcription = None \/ tr_words transcription = Some [] ->
  let result := extract_word_timestamps (transcription :: rest) in
  Forall (fun w => wt_end w <> None
                   /\ has_alphanumeric (wt_word w)
                   /\ normalize_and_tokenize (wt_word w) <> []) result
  /\ Forall (fun w => wt_start w <> None) (tl result).
Proof.
  intros Hwords result. subst result. cbn [extract_word_timestamps].
  assert (Htokens :
    let r := match tr_tokens transcription with
             | Some (t :: ts) => merge_tokens (t :: ts)
             | _ => []
             end in
    Forall (fun w => has_alphanumeric (wt_word w) /\ wt_end w <> None) r
    /\ Forall (fun w => wt_start w <> None) (tl r)).
  { destruct (tr_tokens transcription) as [[|t ts]|]; cbn zeta;
      [split; constructor | apply merge_tokens_sound | split; constructor]. }
  cbn zeta in Htokens. destruct Htokens as [Ht1 Ht2].
  assert (Hgoal :
    Forall (fun w => wt_end w <> None
                     /\ has_alphanumeric (wt_word w)
                     /\ normalize_and_tokenize (wt_word w) <> [])
           match tr_tokens transcription with
           | Some (t :: ts) => merge_tokens (t :: ts)
           | _ => []
           end).
  { eapply Forall_impl; [exact Ht1|]. intros x [Hx Hend].
    split; [exact Hend|]. split; [exact Hx | now apply has_alphanumeric_tokenizes]. }
  destruct Hwords as [Hw|Hw]; rewrite Hw; split; assumption.
Qed.

Lemma extract_word_timestamps_words_witness :
  Forall (fun w => wt_end w <> None
                   /\ has_alphanumeric (wt_word w)
                   /\ normalize_and_tokenize (wt_word w) <> [])
         (extract_word_timestamps
            [ {| tr_words := None; tr_tokens := Some hello_world_tokens |} ]).
Proof.
  apply (extract_word_timestamps_words
           {| tr_words := None; tr_tokens := Some hello_world_tokens |} []).
  left. reflexivity.
Defined.

Lemma merge_token_headless (st : Merge) (token : Token) :
  headless_merge st -> headless_merge (merge_token st token).
Proof.
  intros Hst. unfold merge_token.
  set (t := match text token with Some t => t | None => EmptyString end).
  destruct (startswith_bracket t && endswith_bracket t); [exact Hst|].
  destruct (is_punctuation t); [exact Hst|].
  destruct (startswith_space t).
  - right. unfold flush. cbn [word_timestamps].
    destruct Hst as [[Hout [Hcur Hstart]]|[w [ws [Hout Hw]]]].
    + apply nonempty_spec in Hcur. rewrite Hcur, Hout, Hstart. cbn [app].
      eexists _, _. split; reflexivity.
    + rewrite Hout. destruct (nonempty (current_text st)); cbn [app];
        eexists _, _; (split; [reflexivity | exact Hw]).
  - destruct Hst as [[Hout [Hcur Hstart]]|Hst]; [left | right; exact Hst].
    cbn [word_timestamps current_text word_start].
    split; [exact Hout|]. split; [|exact Hstart].
    destruct (current_text st); [congruence | discriminate].
Qed.

Lemma fold_merge_headless (tokens : list Token) :
  forall st : Merge,
    headless_merge st -> headless_merge (fold_left merge_token tokens st).
Proof.
  induction tokens as [|token tokens IH]; intros st Hst; [exact Hst|].
  cbn [fold_left]. apply IH, merge_token_headless, Hst.
Qed.

Lemma flush_headless (st : Merge) :
  headless_merge st ->
  exists (w : WordTimestamp) (ws : list WordTimestamp),
    flush st = w :: ws /\ wt_start w = None.
Proof.
  unfold flush. intros [[Hout [Hcur Hstart]]|[w [ws [Hout Hw]]]].
  - apply nonempty_spec in Hcur. rewrite Hcur, Hout, Hstart. cbn [app].
    eexists _, _. split; reflexivity.
  - rewrite Hout. destruct (nonempty (current_text st)); cbn [app];
      eexists _, _; (split; [reflexivity | exact Hw]).
Qed.

(** X25.  A first word without a start time.  When the first token of
    the recogniser is kept (it is neither a control token nor made of
    punctuation only), is not empty and has no leading space, the first
    word that [extract_word_timestamps] merges from the tokens has
    [None] as its start time, whatever tokens follow. *)
Theorem merge_tokens_first_word_without_start (token : Token) (rest : list Token)
    (t : string) :
  text token = Some t ->
  t <> EmptyString ->
  startswith_bracket t && endswith_bracket t = false ->
  is_punctuation t = false ->
  startswith_space t = false ->
  exists (w : WordTimestamp) (ws : list WordTimestamp),
    extract_word_timestamps
      [ {| tr_words := None; tr_tokens := Some (token :: rest) |} ] = w :: ws
    /\ wt_start w = None.
Proof.
  intros Ht Hne Hcontrol Hpunct Hspace.
  cbn [extract_word_timestamps tr_words tr_tokens]. unfold merge_tokens.
  apply flush_headless. cbn [fold_left]. apply fold_merge_headless.
  unfold merge_token. rewrite Ht, Hcontrol, Hpunct, Hspace.
  left. cbn [word_timestamps current_text word_start merge_start].
  split; [reflexivity|]. split; [|reflexivity].
  cbn [append]. apply has_alphanumeric_nonempty, has_alphanumeric_strip.
  destruct (not_punctuation t Hpunct); [contradiction | assumption].
Qed.

Lemma merge_tokens_first_word_without_start_witness :
  exists (w : WordTimestamp) (ws : list WordTimestamp),
    extract_word_timestamps
      [ {| tr_words := None; tr_tokens := Some headless_tokens |} ] = w :: ws
    /\ wt_start w = None.
Proof.
  apply (merge_tokens_first_word_without_start (piece "Hel" 0.0 0.2)
           [piece "lo" 0.2 0.4; piece " world" 0.5 0.9] "Hel");
    (reflexivity || discriminate).
Defined.

Lemma as_segment_word (w : WordTimestamp) (seg : Segment) :
  as_segment w = Some seg -> word seg = wt_word w.
Proof.
  unfold as_segment. destruct (wt_start w), (wt_end w); try discriminate.
  now intros [= <-].
Qed.

(** X26.  Merged words have keys.  The words that
    [extract_word_timestamps] merges from the tokens, when each has its
    two times, never make [analyze_time_overlap] fail on the user's
    side: if every reference word has a normalised token, the analysis
    returns one record per reference word. *)
Theorem analyze_time_overlap_on_merged_words (tokens : list Token)
    (user_word_timestamps reference_words : list Segment) (threshold : R) :
  Forall2 (fun w seg => as_segment w = Some seg)
          (extract_word_timestamps [ {| tr_words := None; tr_tokens := Some tokens |} ])
          user_word_timestamps ->
  Forall tokenizes reference_words ->
  Forall tokenizes user_word_timestamps
  /\ exists results : list TimeMatch,
       analyze_time_overlap reference_words user_word_timestamps threshold = Ok results
       /\ length results = length reference_words.
Proof.
  intros Hsegs Hrefs.
  assert (Husers : Forall tokenizes user_word_timestamps).
  { assert (Hw : Forall (fun w => has_alphanumeric (wt_word w))
                        (extract_word_timestamps
                           [ {| tr_words := None; tr_tokens := Some tokens |} ])).
    { cbn [extract_word_timestamps tr_words tr_tokens].
      destruct tokens as [|t ts]; [constructor|].
      eapply Forall_impl; [exact (proj1 (merge_tokens_sound (t :: ts)))|].
      intros w [Hw _]. exact Hw. }
    induction Hsegs as [|w seg ws segs Hseg _ IH]; [constructor|].
    constructor; [|apply IH; now apply Forall_inv_tail in Hw].
    unfold tokenizes. rewrite (as_segment_word w seg Hseg).
    apply has_alphanumeric_tokenizes. now apply Forall_inv in Hw. }
  split; [exact Husers|].
  destruct (build_user_words_dict_total user_word_timestamps Husers ∅) as [d Hd].
  destruct (match_words_recorded d threshold reference_words Hrefs)
    as [results [Hres [Hlen _]]].
  exists results. split; [|exact Hlen].
  unfold analyze_time_overlap. rewrite Hd. exact Hres.
Qed.

Lemma hello_world_merged :
  Forall2 (fun w seg => as_segment w = Some seg)
          (extract_word_timestamps
             [ {| tr_words := None; tr_tokens := Some hello_world_tokens |} ])
          hello_world_segments.
Proof. repeat constructor. Qed.

Lemma analyze_time_overlap_on_merged_words_witness :
  exists results : list TimeMatch,
    analyze_time_overlap the_reference hello_world_segments default_threshold = Ok results
    /\ length results = length the_reference.
Proof.
  apply (analyze_time_overlap_on_merged_words hello_world_tokens hello_world_segments
           the_reference default_threshold hello_world_merged the_reference_tokenizes).
Defined.

End Merging.

(** ** S3 addresses *)

Section S3.

Variable urlparse : string -> string * string.

Lemma split_on_exhausted (sep : ascii) (s : list ascii) :
  forall cur : list ascii,
    split_on sep (Some O) cur s = [string_of_list_ascii (rev cur ++ s)].
Proof.
  induction s as [|c s IH]; intros cur; cbn [split_on].
  - now rewrite app_nil_r.
  - assert (H : split_on sep (Some O) (c :: cur) s
                = [string_of_list_ascii (rev cur ++ c :: s)]).
    { rewrite IH. cbn [rev]. now rewrite <- app_assoc. }
    destruct (Ascii.eqb c sep); exact H.
Qed.

Lemma split_on_part (sep : ascii) (part : list ascii) :
  Forall (fun c => c <> sep) part ->
  forall (n : nat) (cur rest : list ascii),
    split_on sep (Some (S n)) cur (part ++ sep :: rest)
    = string_of_list_ascii (rev cur ++ part) :: split_on sep (Some n) [] rest.
Proof.
  induction 1 as [|c part Hc _ IH]; intros n cur rest; cbn [app split_on].
  - rewrite Ascii.eqb_refl. now rewrite app_nil_r.
  - destruct (Ascii.eqb_spec c sep) as [E|_]; [contradiction|].
    rewrite IH. cbn [rev]. now rewrite <- app_assoc.
Qed.

Lemma split_on_last (sep : ascii) (part : list ascii) :
  Forall (fun c => c <> sep) part ->
  forall (m : option nat) (cur : list ascii),
    split_on sep m cur part = [string_of_list_ascii (rev cur ++ part)].
Proof.
  induction 1 as [|c part Hc _ IH]; intros m cur; cbn [split_on].
  - now rewrite app_nil_r.
  - destruct (Ascii.eqb_spec c sep) as [E|_]; [contradiction|].
    rewrite IH. cbn [rev]. now rewrite <- app_assoc.
Qed.

Lemma prefix_append (pre s : string) : String.prefix pre (pre ++ s) = true.
Proof.
  induction pre as [|c pre IH]; [destruct s; reflexivity|].
  change (match ascii_dec c c with
          | left _ => String.prefix pre (pre ++ s)
          | right _ => false
          end = true).
  destruct (ascii_dec c c); [exact IH | congruence].
Qed.

Lemma s3_parts (bucket : string) (rest : list ascii) :
  Forall (fun c => c <> slash) (list_ascii_of_string bucket) ->
  split_on slash (Some 3%nat) []
           (list_ascii_of_string "s3://" ++ list_ascii_of_string bucket ++ slash :: rest)
  = ["s3:"; EmptyString; bucket; string_of_list_ascii rest]%string.
Proof.
  intros Hb.
  change (list_ascii_of_string "s3://" ++ list_ascii_of_string bucket ++ slash :: rest)
    with (list_ascii_of_string "s3:" ++ slash
          :: ([] ++ slash :: (list_ascii_of_string bucket ++ slash :: rest))).
  rewrite split_on_part by (repeat constructor; discriminate).
  rewrite split_on_part by constructor.
  rewrite split_on_part by exact Hb.
  rewrite split_on_exhausted.
  cbn [rev app]. rewrite !string_of_list_ascii_of_string. reflexivity.
Qed.

(** X27.  [parse_s3_url] on addresses of the form s3://bucket/key.  For
    a bucket name without a slash, the address made of the bucket and a
    key is parsed back into that bucket and that key, slashes of the key
    included; the address of the bucket alone, without a slash after it,
    raises [ValueError]. *)
Theorem parse_s3_url_round_trip (bucket key : string) :
  Forall (fun c => c <> slash) (list_ascii_of_string bucket) ->
  parse_s3_url urlparse ("s3://" ++ bucket ++ "/" ++ key) = Ok (bucket, key)
  /\ parse_s3_url urlparse ("s3://" ++ bucket) = Raise ValueError.
Proof.
  intros Hb. unfold parse_s3_url. split.
  - rewrite prefix_append.
    rewrite !list_ascii_of_string_app.
    change (list_ascii_of_string "/") with [slash]. cbn [app].
    rewrite (s3_parts bucket (list_ascii_of_string key) Hb).
    cbn. now rewrite string_of_list_ascii_of_string.
  - rewrite prefix_append.
    rewrite list_ascii_of_string_app.
    change (list_ascii_of_string "s3://")
      with (list_ascii_of_string "s3:" ++ slash :: ([] ++ slash :: [])).
    rewrite <- !app_assoc. cbn [app].
    change (list_ascii_of_string "s3:" ++ slash :: slash :: list_ascii_of_string bucket)
      with (list_ascii_of_string "s3:" ++ slash
            :: ([] ++ slash :: list_ascii_of_string bucket)).
    rewrite split_on_part by (repeat constructor; discriminate).
    rewrite split_on_part by constructor.
    rewrite split_on_last by exact Hb.
    reflexivity.
Qed.

End S3.

Lemma parse_s3_url_round_trip_witness :
  parse_s3_url no_host "s3://my-bucket/audio/user.wav" = Ok ("my-bucket", "audio/user.wav")%string.
Proof.
  apply (parse_s3_url_round_trip no_host "my-bucket" "audio/user.wav").
  repeat constructor; discriminate.
Defined.

(** ** When the pipeline returns *)

Section Outcome.

Variable delta : nat -> nat -> matrix -> matrix.

Lemma tokenizes_or_tokenless (segments : list Segment) :
  Forall tokenizes segments \/ Exists tokenless segments.
Proof.
  induction segments as [|seg rest [IH|IH]].
  - left. constructor.
  - destruct (normalize_and_tokenize (word seg)) as [|t ts] eqn:E.
    + right. left. exact E.
    + left. constructor; [|exact IH]. unfold tokenizes. rewrite E. discriminate.
  - right. right. exact IH.
Qed.

Lemma analysis_steps_empty_script (user_word_timestamps : list Segment)
    (user_stt_result : WhisperJson) (user_mfcc : matrix) (user_frame_times : list R) :
  Forall tokenizes user_word_timestamps ->
  analysis_steps delta [] user_word_timestamps user_stt_result user_mfcc user_frame_times
  = Raise ZeroDivisionError.
Proof.
  intros Husers. unfold analysis_steps, analyze_time_overlap.
  destruct (build_user_words_dict_total user_word_timestamps Husers ∅) as [d ->].
  reflexivity.
Qed.


End Outcome.


(** ** The frame times of a recording *)

Section FrameTimesOfRecording.

Lemma map_seq_sorted (f : nat -> R) :
  (forall i j : nat, (i <= j)%nat -> f i <= f j) ->
  forall n a : nat, StronglySorted Rle (map f (seq a n)).
Proof.
  intros Hmono. induction n as [|n IH]; intros a; cbn [seq map]; constructor.
  - apply IH.
  - apply List.Forall_forall. intros x Hx.
    apply in_map_iff in Hx. destruct Hx as [i [<- Hi]].
    apply in_seq in Hi. apply Hmono. lia.
Qed.

Lemma frame_times_of_sound (duration : R) (n_frames : nat) :
  0 <= duration ->
  length (frame_times_of duration n_frames) = n_frames
  /\ StronglySorted Rle (frame_times_of duration n_frames)
  /\ Forall (fun t => 0 <= t <= duration) (frame_times_of duration n_frames).
Proof.
  intros Hd. unfold frame_times_of, np_linspace.
  destruct n_frames as [|[|n]].
  - split; [reflexivity|]. split; constructor.
  - split; [reflexivity|]. split.
    + constructor; constructor.
    + constructor; [lra | constructor].
  - set (num := S (S n)).
    assert (Hn : 0 < INR (num - 1)) by (apply lt_0_INR; subst num; lia).
    assert (Hstep : 0 <= (duration - 0) / INR (num - 1)).
    { apply Rmult_le_pos; [lra|]. left. now apply Rinv_0_lt_compat. }
    split; [now rewrite length_map, length_seq|]. split.
    + apply map_seq_sorted. intros i j Hij. apply le_INR in Hij. nra.
    + apply Forall_forall. intros t Ht.
      apply list_elem_of_In, in_map_iff in Ht. destruct Ht as [i [<- Hi]].
      apply in_seq in Hi.
      assert (Hi' : (i <= num - 1)%nat) by lia. apply le_INR in Hi'.
      pose proof (pos_INR i) as Hi0.
      split; [nra|].
      assert (Hq : (duration - 0) / INR (num - 1) * INR (num - 1) = duration)
        by (field; lra).
      nra.
Qed.

Lemma frames_within_all (mfcc : matrix) (frame_times : list R) (start_ end_ : R) :
  length frame_times = length mfcc ->
  Forall (fun t => start_ <= t <= end_) frame_times ->
  frames_within mfcc frame_times start_ end_ = mfcc.
Proof.
  intros Hlen Hall. revert mfcc Hlen.
  induction Hall as [|t a Ht _ IH]; intros [|row mfcc] Hlen; try discriminate;
    [reflexivity|].
  cbn [frames_within]. rewrite (Rleb_true start_ t), (Rleb_true t end_) by lra.
  cbn [andb]. f_equal. apply IH. cbn in Hlen. lia.
Qed.

(** X29.  The frame times that [extract_mfcc_from_audio] attaches to
    the frames of a recording of [duration >= 0] seconds are one per
    frame, in increasing order and within the recording.  On them
    [extract_mfcc_segment] returns the frames of the window when there
    are five or more and nothing otherwise, and the window of the whole
    recording gives back every frame of a recording of five frames or
    more. *)
Theorem extract_mfcc_segment_on_frame_times (mfcc : matrix) (duration : R)
    (start_time end_time : R) :
  0 <= duration ->
  let frame_times := frame_times_of duration (length mfcc) in
  length frame_times = length mfcc
  /\ StronglySorted Rle frame_times
  /\ Forall (fun t => 0 <= t <= duration) frame_times
  /\ extract_mfcc_segment mfcc frame_times start_time end_time
     = (if (length (frames_within mfcc frame_times start_time end_time) <? 5)%nat
        then []
        else frames_within mfcc frame_times start_time end_time)
  /\ ((5 <= length mfcc)%nat ->
      extract_mfcc_segment mfcc frame_times 0 duration = mfcc).
Proof.
  intros Hd frame_times.
  destruct (frame_times_of_sound duration (length mfcc) Hd) as [Hlen [Hsorted Hin]].
  fold frame_times in Hlen, Hsorted, Hin.
  split; [exact Hlen|]. split; [exact Hsorted|]. split; [exact Hin|].
  split; [now apply extract_mfcc_segment_sorted|].
  intros Hfive.
  rewrite (extract_mfcc_segment_sorted _ _ _ _ Hsorted Hlen).
  rewrite (frames_within_all mfcc frame_times 0 duration Hlen Hin).
  destruct (Nat.ltb_spec (length mfcc) 5); [lia | reflexivity].
Qed.

Lemma extract_mfcc_segment_on_frame_times_witness :
  extract_mfcc_segment five_frames (frame_times_of 1 (length five_frames)) 0 1
  = five_frames.
Proof.
  apply (extract_mfcc_segment_on_frame_times five_frames 1 0 1).
  - lra.
  - cbn. lia.
Defined.

End FrameTimesOfRecording.

(** ** The standard deviation of an augmented matrix *)

Section StdOfAugmented.

Variable delta : nat -> nat -> matrix -> matrix.
Hypothesis delta_keeps_shape : keeps_shape delta.

Lemma nth_firstn_lt {A} (l : list A) (n j : nat) (d : A) :
  (j < n)%nat -> nth j (firstn n l) d = nth j l d.
Proof.
  revert n j. induction l as [|x l IH]; intros [|n] [|j] Hj; cbn; try lia;
    try reflexivity.
  apply IH. lia.
Qed.

Lemma columns_firstn (d : nat) (y m : matrix) (k : nat) :
  rectangular d y -> (k <= d)%nat -> y <> [] -> rectangular k m -> m <> [] ->
  (forall j : nat, (j < k)%nat -> column j y = column j m) ->
  columns (map (firstn k) y) = columns m.
Proof.
  intros Hy Hk Hyne Hm Hmne Hcol. unfold columns.
  assert (Hs1 : shape1 (map (firstn k) y) = k).
  { destruct y as [|row y]; [congruence|]. cbn.
    apply Forall_inv in Hy. rewrite length_firstn. lia. }
  rewrite Hs1, (rectangular_shape1 k m Hm Hmne).
  apply map_ext_in. intros j Hj. apply in_seq in Hj.
  rewrite <- Hcol by lia. unfold column. rewrite map_map.
  apply map_ext. intros row. apply nth_firstn_lt. lia.
Qed.

(** X30.  The standard deviation that decides on a missing word is
    taken over the 13 static coefficients only: [_calculate_std_deviation] gives the same value
    on a matrix of 13 coefficients and on the matrix that
    [_add_delta_features] makes of it, for a filter that keeps shapes. *)
Theorem _calculate_std_deviation_ignores_derivatives (m : matrix) :
  rectangular 13 m -> m <> [] ->
  _calculate_std_deviation (_add_delta_features delta m) = _calculate_std_deviation m.
Proof.
  intros Hm Hne.
  destruct (_add_delta_features_shape_cols delta delta_keeps_shape 13 m Hm Hne)
    as [Hlen [Hrect Hcol]].
  set (y := _add_delta_features delta m) in *.
  assert (Hyne : y <> []) by (intros E; rewrite E in Hlen; destruct m; [congruence | discriminate]).
  unfold _calculate_std_deviation, shape0.
  rewrite (rectangular_shape1 _ y Hrect Hyne), (rectangular_shape1 _ m Hm Hne).
  destruct (Nat.eqb_spec (length y) 0) as [E|_]; [destruct y; [congruence | discriminate]|].
  destruct (Nat.eqb_spec (length m) 0) as [E|_]; [destruct m; [congruence | discriminate]|].
  change (13 <=? 13 + 13 + 13)%nat with true. change (13 <=? 13)%nat with true.
  cbv iota. unfold std_axis0.
  rewrite (columns_firstn (13 + 13 + 13) y m 13 Hrect) by (assumption || lia).
  rewrite (columns_firstn 13 m m 13 Hm) by (assumption || lia || reflexivity).
  reflexivity.
Qed.

End StdOfAugmented.

Lemma _calculate_std_deviation_ignores_derivatives_witness :
  _calculate_std_deviation (_add_delta_features difference_delta flat_energy)
  = _calculate_std_deviation flat_energy.
Proof.
  apply (_calculate_std_deviation_ignores_derivatives difference_delta
           difference_delta_keeps_shape flat_energy).
  - exact flat_energy_rectangular.
  - discriminate.
Defined.
